(** * Pizza value calculator: a shallow embedding of [claude-code-script.py]

    The script builds three [Pizza] objects, ranks them by area per euro,
    prints a report and a budget recommendation.  Its numbers are Python
    [float]s, that is IEEE 754 binary64 values, and they are modelled by
    Rocq's primitive binary64 floats, whose operations are the same
    correctly rounded ones.  The one operation of the script that CPython
    does not round correctly is [**], which calls [pow] of the C library:
    [_calculate_area] takes the correctly rounded square for it, and
    [_calculate_area_libm] takes the library function as a parameter.
    Its strings are modelled by [string]; the model covers ASCII text (the
    size descriptors of the script are ASCII).

    Python's built-ins that the script calls ([str.lower], [str.replace],
    [str.strip], [in], [str.split], [float], [int], [max], [sorted],
    [print] and the [.2f] format) are modelled in the first part, from
    their documented behaviour; the script's own functions follow, under
    the names they have in the source. *)

From Stdlib Require Import Reals Lra Machin.
From Stdlib Require Import ZArith QArith Qabs Qround Bool List String Ascii Lia.
From Stdlib Require Import Floats DecimalString Permutation Sorted.
Import ListNotations.

(* Decimal literals such as 4.80 stand for the nearest binary64 value, as in
   Python. *)
#[global] Set Warnings "-inexact-float".

Local Open Scope string_scope.
Local Open Scope list_scope.
Local Open Scope Z_scope.

(** ** Exceptions and the two monads of the model *)

(** The exceptions the script can raise. *)
Inductive exn : Set :=
| ValueError        (* float("abc"), int(nan), max([]) *)
| OverflowError     (* 1e200 ** 2, int(inf) *)
| ZeroDivisionError (* x / 0.0 *)
| IndexError.       (* [][0] *)

(** A computation that returns a value or raises. *)
Definition result (A : Type) : Type := (exn + A)%type.

Definition ret {A} (a : A) : result A := inr a.
Definition raise {A} (e : exn) : result A := inl e.
Definition bind {A B} (c : result A) (k : A -> result B) : result B :=
  match c with
  | inl e => inl e
  | inr a => k a
  end.

Declare Scope py_scope.
Delimit Scope py_scope with py.
Notation "x <- c ;; k" := (bind c (fun x => k))
  (at level 61, c at next level, right associativity) : py_scope.

(** A computation that also prints: the lines written so far are threaded
    through, and are kept when an exception is raised. *)
Definition io (A : Type) : Type := list string -> result A * list string.

Definition io_ret {A} (a : A) : io A := fun out => (inr a, out).
Definition io_bind {A B} (c : io A) (k : A -> io B) : io B :=
  fun out =>
    match c out with
    | (inl e, out') => (inl e, out')
    | (inr a, out') => k a out'
    end.
Definition lift {A} (c : result A) : io A := fun out => (c, out).
Definition print (line : string) : io unit := fun out => (inr tt, out ++ [line]).

Declare Scope io_scope.
Delimit Scope io_scope with io.
Notation "x <- c ;; k" := (io_bind c (fun x => k))
  (at level 61, c at next level, right associativity) : io_scope.
Notation "c ;;; k" := (io_bind c (fun _ => k))
  (at level 61, right associativity) : io_scope.

(** ** Python strings *)

Module Str.

Definition code (c : ascii) : N := N_of_ascii c.

Definition is_upper (c : ascii) : bool := (65 <=? code c)%N && (code c <=? 90)%N.
Definition is_digit (c : ascii) : bool := (48 <=? code c)%N && (code c <=? 57)%N.

(** [str.isspace] on ASCII: tab, newline, vertical tab, form feed,
    carriage return, the separators 0x1c to 0x1f, and the space. *)
Definition is_space (c : ascii) : bool :=
  ((9 <=? code c)%N && (code c <=? 13)%N)
  || ((28 <=? code c)%N && (code c <=? 31)%N)
  || (code c =? 32)%N.

(** C's [isspace], which [float] uses on an ASCII string. *)
Definition is_c_space (c : ascii) : bool :=
  ((9 <=? code c)%N && (code c <=? 13)%N) || (code c =? 32)%N.

Definition lower_char (c : ascii) : ascii :=
  if is_upper c then ascii_of_N (code c + 32) else c.

(** [s.lower()] *)
Fixpoint lower (s : string) : string :=
  match s with
  | EmptyString => EmptyString
  | String c s' => String (lower_char c) (lower s')
  end.

(** [s.replace(old, new)] for a non-empty [old]: occurrences are found
    from the left and do not overlap.  [skip] counts the characters of
    an occurrence that are still to be passed over. *)
Fixpoint replace_from (old new : string) (skip : nat) (s : string) : string :=
  match s with
  | EmptyString => EmptyString
  | String c s' =>
      match skip with
      | S k => replace_from old new k s'
      | O =>
          if prefix old s
          then (new ++ replace_from old new (pred (String.length old)) s')%string
          else String c (replace_from old new O s')
      end
  end.

Definition replace (old new s : string) : string := replace_from old new O s.

Fixpoint lstrip_by (sp : ascii -> bool) (s : string) : string :=
  match s with
  | EmptyString => EmptyString
  | String c s' => if sp c then lstrip_by sp s' else s
  end.

Fixpoint rstrip_by (sp : ascii -> bool) (s : string) : string :=
  match s with
  | EmptyString => EmptyString
  | String c s' =>
      match rstrip_by sp s' with
      | EmptyString => if sp c then EmptyString else String c EmptyString
      | r => String c r
      end
  end.

Definition strip_by (sp : ascii -> bool) (s : string) : string :=
  rstrip_by sp (lstrip_by sp s).

(** [s.strip()] *)
Definition strip (s : string) : string := strip_by is_space s.

(** [c in s] for a one-character [c] *)
Fixpoint contains (c : ascii) (s : string) : bool :=
  match s with
  | EmptyString => false
  | String d s' => Ascii.eqb d c || contains c s'
  end.

(** [s.split(c)] for a one-character separator: never empty, and one
    piece more than there are separators. *)
Fixpoint split (c : ascii) (s : string) : list string :=
  match s with
  | EmptyString => [EmptyString]
  | String d s' =>
      if Ascii.eqb d c then EmptyString :: split c s'
      else
        match split c s' with
        | p :: ps => String d p :: ps
        | [] => [String d EmptyString]
        end
  end.

(** [s * n] *)
Fixpoint repeat (s : string) (n : nat) : string :=
  match n with
  | O => EmptyString
  | S k => (s ++ repeat s k)%string
  end.

(** [str(n)] for an integer *)
Definition of_Z (n : Z) : string := NilZero.string_of_int (Z.to_int n).

End Str.

(** ** Python floats *)

Module Float.

(** [math.pi], the binary64 value nearest to pi. *)
Definition pi : float := 0x1.921fb54442d18p+1%float.

(** [x / y]: division by zero raises, every other case is IEEE division. *)
Definition truediv (x y : float) : result float :=
  if PrimFloat.eqb y PrimFloat.zero then raise ZeroDivisionError
  else ret (PrimFloat.div x y).

(** [x ** 2] with the correctly rounded square [x * x] in the place of
    the C library's [pow(x, 2.0)].  [float.__pow__] returns NaN and the
    infinities as they are squared and reports a finite operand whose
    power is out of range as an [OverflowError]; an underflow is a silent
    zero.  The [pow] of a C library need not be correctly rounded: its
    result can be a neighbour of [x * x] (glibc documents an error below
    one unit in the last place), so that this function can differ from
    CPython in the last bit.  [pow_libm] below does not fix [pow]. *)
Definition pow2 (x : float) : result float :=
  let y := PrimFloat.mul x x in
  if PrimFloat.is_infinity y && negb (PrimFloat.is_infinity x)
  then raise OverflowError
  else ret y.

(** The values of [errno] after a call of the C library: 0, [EDOM],
    [ERANGE]. *)
Inductive errno : Set := ENONE | EDOM | ERANGE.

(** [_Py_ADJUST_ERANGE1]: an infinite result is an overflow whether the
    library said so or not, and an underflow to zero is no error. *)
Definition adjust_erange (x : float) (e : errno) : errno :=
  match e with
  | ENONE => if PrimFloat.is_infinity x then ERANGE else ENONE
  | ERANGE => if PrimFloat.eqb x PrimFloat.zero then ENONE else ERANGE
  | EDOM => EDOM
  end.

(** [x ** 2] as [float_pow] of CPython computes it, for a C library whose
    [pow] is [libm]: the result and the [errno] it leaves.  NaN, the
    infinities, the zeros and 1 are answered without the library; a
    negative [x] is negated first (the exponent 2 is even); after the
    call [ERANGE] becomes [OverflowError] and any other error
    [ValueError]. *)
Definition pow_libm (libm : float -> float -> float * errno) (x : float)
  : result float :=
  if PrimFloat.is_nan x then ret x
  else if PrimFloat.is_infinity x then ret (PrimFloat.abs x)
  else if PrimFloat.eqb x PrimFloat.zero then ret PrimFloat.zero
  else
    let iv := if PrimFloat.ltb x PrimFloat.zero then PrimFloat.opp x else x in
    if PrimFloat.eqb iv PrimFloat.one then ret PrimFloat.one
    else
      let '(ix, e) := libm iv 2%float in
      match adjust_erange ix e with
      | ENONE => ret ix
      | ERANGE => raise OverflowError
      | EDOM => raise ValueError
      end.

(** A [pow] that returns the correctly rounded square of its first
    argument and reports no error (the script calls [pow] with the
    exponent 2.0 only). *)
Definition rounded_square (x y : float) : float * errno :=
  (PrimFloat.mul x x, ENONE).

(** The integer nearest to [n / d], ties to the even one. *)
Definition div_half_even (n d : Z) : Z :=
  let q := n / d in
  match 2 * (n mod d) ?= d with
  | Lt => q
  | Gt => q + 1
  | Eq => if Z.even q then q else q + 1
  end.

(** The binary64 value nearest to [n / d] (ties to even), signed. *)
Definition SF64of_ratio (neg : bool) (n d : positive) : spec_float :=
  let '(q, e, l) := SFdiv_core_binary prec emax (Zpos n) 0 (Zpos d) 0 in
  binary_round_aux prec emax neg q e l.

(** The binary64 value nearest to [m * 10 ^ e10], for [0 <= m]. *)
Definition of_decimal (neg : bool) (m e10 : Z) : float :=
  match m with
  | Zpos p =>
      SF2Prim
        (if 0 <=? e10
         then binary_normalize prec emax (cond_Zopp neg (m * 10 ^ e10)) 0 false
         else SF64of_ratio neg p (Z.to_pos (10 ^ (- e10))))
  | _ => if neg then PrimFloat.neg_zero else PrimFloat.zero
  end.

(** [float(n)] for an integer: the nearest binary64 value, or
    [OverflowError] when [n] is too large. *)
Definition of_int (n : Z) : result float :=
  match binary_normalize prec emax n 0 false with
  | S754_infinity _ => raise OverflowError
  | f => ret (SF2Prim f)
  end.

(** [n / d] for two integers, [d] positive: the correctly rounded
    quotient, or [OverflowError] when it is too large. *)
Definition int_truediv (n : Z) (d : positive) : result float :=
  match n with
  | Z0 => ret PrimFloat.zero
  | Zpos p =>
      match SF64of_ratio false p d with
      | S754_infinity _ => raise OverflowError
      | f => ret (SF2Prim f)
      end
  | Zneg p =>
      match SF64of_ratio true p d with
      | S754_infinity _ => raise OverflowError
      | f => ret (SF2Prim f)
      end
  end.

(** [int(x)]: truncation towards zero. *)
Definition to_int (x : float) : result Z :=
  match Prim2SF x with
  | S754_nan => raise ValueError
  | S754_infinity _ => raise OverflowError
  | S754_zero _ => ret 0
  | S754_finite s m e =>
      ret (cond_Zopp s (if 0 <=? e then Zpos m * 2 ^ e else Zpos m / 2 ^ (- e)))
  end.

(** The exact value of a finite float, as a rational. *)
Definition to_Q (x : float) : option Q :=
  match Prim2SF x with
  | S754_zero _ => Some 0%Q
  | S754_finite s m e =>
      Some (if 0 <=? e then inject_Z (cond_Zopp s (Zpos m * 2 ^ e))
            else Qmake (cond_Zopp s (Zpos m)) (Z.to_pos (2 ^ (- e))))
  | _ => None
  end.

(** The exact value of a finite float, as a real number (0 for the
    infinities and NaN). *)
Definition to_R (x : float) : R :=
  match Prim2SF x with
  | S754_finite s m e => (IZR (cond_Zopp s (Zpos m)) * powerRZ 2 e)%R
  | _ => 0%R
  end.

(** [f"{x:.2f}"]: the decimal with two places nearest to the exact value
    of [x], ties to even. *)
Definition format_2f (x : float) : string :=
  let sign (s : bool) := if s then "-" else "" in
  match Prim2SF x with
  | S754_nan => "nan"
  | S754_infinity s => (sign s ++ "inf")%string
  | S754_zero s => (sign s ++ "0.00")%string
  | S754_finite s m e =>
      let c := if 0 <=? e then Zpos m * 2 ^ e * 100
               else div_half_even (Zpos m * 100) (2 ^ (- e)) in
      (sign s ++ Str.of_Z (c / 100) ++ "."
         ++ Str.of_Z (c mod 100 / 10) ++ Str.of_Z (c mod 10))%string
  end.

(** *** [float(s)] for a string

    The model reads ASCII text; Python's [float] also accepts the decimal
    digits and the white space of Unicode, which the script's own sizes
    do not use.  The text is stripped of surrounding white space and read
    without
    regard to letter case as
    [[sign] (number [exponent] | "inf" | "infinity" | "nan")], where a
    number is [digits ["." [digits]]] or ["." digits], an exponent is
    ["e" [sign] digits], and one underscore may stand between two digits.
    The reader below is the automaton of that grammar; it carries the
    digits read as an integer [m], the number [k] of fraction digits,
    and the exponent [x]. *)
Inductive pstate : Set :=
| PStart
| PInt (m : Z)
| PIntU (m : Z)
| PDot0
| PDot (m : Z)
| PFrac (m k : Z)
| PFracU (m k : Z)
| PExp0 (m k : Z)
| PExpS (m k : Z) (neg : bool)
| PExp (m k : Z) (neg : bool) (x : Z)
| PExpU (m k : Z) (neg : bool) (x : Z)
| PFail.

Inductive pchar : Set :=
| CDigit (d : Z)
| CUnderscore
| CDot
| CE
| CSign (neg : bool)
| COther.

Definition classify_char (c : ascii) : pchar :=
  if Str.is_digit c then CDigit (Z.of_N (Str.code c) - 48)
  else if Ascii.eqb c "_" then CUnderscore
  else if Ascii.eqb c "." then CDot
  else if Ascii.eqb c "e" then CE
  else if Ascii.eqb c "+" then CSign false
  else if Ascii.eqb c "-" then CSign true
  else COther.

Definition pstep (st : pstate) (c : ascii) : pstate :=
  match st, classify_char c with
  | PStart, CDigit d => PInt d
  | PStart, CDot => PDot0
  | PInt m, CDigit d => PInt (10 * m + d)
  | PInt m, CUnderscore => PIntU m
  | PInt m, CDot => PDot m
  | PInt m, CE => PExp0 m 0
  | PIntU m, CDigit d => PInt (10 * m + d)
  | PDot0, CDigit d => PFrac d 1
  | PDot m, CDigit d => PFrac (10 * m + d) 1
  | PDot m, CE => PExp0 m 0
  | PFrac m k, CDigit d => PFrac (10 * m + d) (k + 1)
  | PFrac m k, CUnderscore => PFracU m k
  | PFrac m k, CE => PExp0 m k
  | PFracU m k, CDigit d => PFrac (10 * m + d) (k + 1)
  | PExp0 m k, CDigit d => PExp m k false d
  | PExp0 m k, CSign neg => PExpS m k neg
  | PExpS m k neg, CDigit d => PExp m k neg d
  | PExp m k neg x, CDigit d => PExp m k neg (10 * x + d)
  | PExp m k neg x, CUnderscore => PExpU m k neg x
  | PExpU m k neg x, CDigit d => PExp m k neg (10 * x + d)
  | _, _ => PFail
  end.

Fixpoint prun (st : pstate) (s : string) : pstate :=
  match s with
  | EmptyString => st
  | String c s' => prun (pstep st c) s'
  end.

(** The number read, as [m * 10 ^ e], when the text ends in [st]. *)
Definition pfinish (st : pstate) : option (Z * Z) :=
  match st with
  | PInt m | PDot m => Some (m, 0)
  | PFrac m k => Some (m, - k)
  | PExp m k neg x => Some (m, cond_Zopp neg x - k)
  | _ => None
  end.

(** The sign of a literal and what follows it. *)
Definition split_sign (s : string) : bool * string :=
  match s with
  | String c r =>
      if Ascii.eqb c "+" then (false, r)
      else if Ascii.eqb c "-" then (true, r)
      else (false, s)
  | EmptyString => (false, s)
  end.

(** What follows the sign: an infinity, a NaN or a number. *)
Definition of_body (neg : bool) (body : string) : result float :=
  if String.eqb body "inf" || String.eqb body "infinity"
  then ret (if neg then PrimFloat.neg_infinity else PrimFloat.infinity)
  else if String.eqb body "nan" then ret PrimFloat.nan
  else
    match pfinish (prun PStart body) with
    | Some (m, e) => ret (of_decimal neg m e)
    | None => raise ValueError
    end.

(** A literal in lower case, without surrounding white space. *)
Definition of_literal (s : string) : result float :=
  let '(neg, body) := split_sign s in of_body neg body.

(** [float(s)] *)
Definition of_str (s : string) : result float :=
  of_literal (Str.lower (Str.strip_by Str.is_c_space s)).

End Float.

(** ** Python lists *)

Module Seq.

Section Generic.
Context {A : Type}.

(** [l[i]] for [0 <= i] *)
Definition item (l : list A) (i : nat) : result A :=
  match nth_error l i with
  | Some a => ret a
  | None => raise IndexError
  end.

(** [max(l, key=key)]: the running maximum is replaced when an item's
    key is greater, so the first of several maximal items is kept. *)
Fixpoint max_from (key : A -> float) (best : A) (l : list A) : A :=
  match l with
  | [] => best
  | x :: l' =>
      max_from key (if PrimFloat.ltb (key best) (key x) then x else best) l'
  end.

Definition max_by (key : A -> float) (l : list A) : result A :=
  match l with
  | [] => raise ValueError
  | x :: l' => ret (max_from key x l')
  end.

(** [list.sort] compares with [<] only and is stable: an item goes
    behind the items that are not greater than it.  This is the result of
    CPython's sort for keys that are not NaN.  On NaN keys [<] is not an
    order, and the list CPython returns depends on the comparisons its
    merge sort happens to make, which an insertion from the left does not
    always repeat (both return a rearrangement of the list). *)
Fixpoint insert (key : A -> float) (x : A) (l : list A) : list A :=
  match l with
  | [] => [x]
  | y :: l' =>
      if PrimFloat.ltb (key x) (key y) then x :: l
      else y :: insert key x l'
  end.

Definition sort (key : A -> float) (l : list A) : list A :=
  fold_left (fun acc x => insert key x acc) l [].

(** [sorted(l, key=key, reverse=reverse)].  With [reverse] the list is
    reversed, sorted and reversed again, which is how the order of
    equal items is kept. *)
Definition sorted (key : A -> float) (reverse : bool) (l : list A) : list A :=
  if reverse then rev (sort key (rev l)) else sort key l.

(** [enumerate(l, start)] *)
Fixpoint enumerate (start : Z) (l : list A) : list (Z * A) :=
  match l with
  | [] => []
  | x :: l' => (start, x) :: enumerate (start + 1) l'
  end.

(** [for x in l: body(x)] *)
Fixpoint for_each (l : list A) (body : A -> io unit) : io unit :=
  match l with
  | [] => io_ret tt
  | x :: l' => io_bind (body x) (fun _ => for_each l' body)
  end.
End Generic.

End Seq.

(** ** The script *)

(** The [size] argument of [Pizza]: a number or a string. *)
Inductive size_descriptor : Set :=
  | SizeInt (n : Z)
  | SizeFloat (x : float)
  | SizeStr (s : string).

(** An instance of [class Pizza]. *)
Record Pizza : Set := mkPizza {
  name : string;
  price : float;
  area : float;
  value_ratio : float
  }.

(** [Pizza._calculate_area] *)
Definition _calculate_area (size : size_descriptor) : result float :=
  (match size with
   | SizeInt n =>
       radius <- Float.int_truediv n 2 ;;
       sq <- Float.pow2 radius ;;
       ret (PrimFloat.mul Float.pi sq)
   | SizeFloat x =>
       radius <- Float.truediv x 2%float ;;
       sq <- Float.pow2 radius ;;
       ret (PrimFloat.mul Float.pi sq)
   | SizeStr s =>
       let size_str := Str.strip (Str.replace "cm" "" (Str.lower s)) in
       if Str.contains "x" size_str then
         let dimensions := Str.split "x" size_str in
         d0 <- Seq.item dimensions 0 ;;
         width <- Float.of_str (Str.strip d0) ;;
         d1 <- Seq.item dimensions 1 ;;
         height <- Float.of_str (Str.strip d1) ;;
         ret (PrimFloat.mul width height)
       else
         diameter <- Float.of_str size_str ;;
         radius <- Float.truediv diameter 2%float ;;
         sq <- Float.pow2 radius ;;
         ret (PrimFloat.mul Float.pi sq)
   end)%py.

(** [Pizza._calculate_area] once more, with the [pow] of the C library as
    a parameter: the same lines, with [pow_libm libm] for [**]. *)
Definition _calculate_area_libm (libm : float -> float -> float * Float.errno)
    (size : size_descriptor) : result float :=
  (match size with
   | SizeInt n =>
       radius <- Float.int_truediv n 2 ;;
       sq <- Float.pow_libm libm radius ;;
       ret (PrimFloat.mul Float.pi sq)
   | SizeFloat x =>
       radius <- Float.truediv x 2%float ;;
       sq <- Float.pow_libm libm radius ;;
       ret (PrimFloat.mul Float.pi sq)
   | SizeStr s =>
       let size_str := Str.strip (Str.replace "cm" "" (Str.lower s)) in
       if Str.contains "x" size_str then
         let dimensions := Str.split "x" size_str in
         d0 <- Seq.item dimensions 0 ;;
         width <- Float.of_str (Str.strip d0) ;;
         d1 <- Seq.item dimensions 1 ;;
         height <- Float.of_str (Str.strip d1) ;;
         ret (PrimFloat.mul width height)
       else
         diameter <- Float.of_str size_str ;;
         radius <- Float.truediv diameter 2%float ;;
         sq <- Float.pow_libm libm radius ;;
         ret (PrimFloat.mul Float.pi sq)
   end)%py.

(** [Pizza.__init__] *)
Definition __init__ (name : string) (size : size_descriptor) (price : float)
  : result Pizza :=
  (area <- _calculate_area size ;;
   value_ratio <- (if PrimFloat.ltb PrimFloat.zero price
                   then Float.truediv area price
                   else ret PrimFloat.zero) ;;
   ret (mkPizza name price area value_ratio))%py.

(** [Pizza.__str__] *)
Definition __str__ (self : Pizza) : result string :=
  (q <- Float.truediv (price self) (area self) ;;
   ret (name self ++ ": " ++ Float.format_2f (area self) ++ " cm² for €"
          ++ Float.format_2f (price self) ++ " (€"
          ++ Float.format_2f (PrimFloat.mul q 100%float) ++ " per 100 cm²)")%string)%py.

(** [Pizza.__repr__] *)
Definition __repr__ (self : Pizza) : string :=
  ("Pizza('" ++ name self ++ "', area=" ++ Float.format_2f (area self)
     ++ ", price=" ++ Float.format_2f (price self) ++ ")")%string.

(** [find_best_pizza] *)
Definition find_best_pizza (pizzas : list Pizza) : result Pizza :=
  Seq.max_by value_ratio pizzas.

(** The ranking that [display_results] prints:
    [sorted(pizzas, key=lambda p: p.value_ratio, reverse=True)]. *)
Definition sorted_pizzas (pizzas : list Pizza) : list Pizza :=
  Seq.sorted value_ratio true pizzas.

(** [display_results] *)
Definition display_results (pizzas : list Pizza) : io unit :=
  (let sorted_pizzas := sorted_pizzas pizzas in
   print (Str.repeat "=" 70) ;;;
   print "PIZZA VALUE ANALYSIS" ;;;
   print (Str.repeat "=" 70) ;;;
   print "" ;;;
   Seq.for_each (Seq.enumerate 1 sorted_pizzas) (fun '(i, pizza) =>
     print (Str.of_Z i ++ ". " ++ name pizza)%string ;;;
     print ("   Area: " ++ Float.format_2f (area pizza) ++ " cm²")%string ;;;
     print ("   Price: €" ++ Float.format_2f (price pizza))%string ;;;
     print ("   Value: " ++ Float.format_2f (value_ratio pizza)
              ++ " cm² per €")%string ;;;
     q <- lift (Float.truediv (price pizza) (area pizza)) ;;
     print ("   Cost: €" ++ Float.format_2f (PrimFloat.mul q 100%float)
              ++ " per 100 cm²")%string ;;;
     print "") ;;;
   best <- lift (Seq.item sorted_pizzas 0) ;;
   print (Str.repeat "=" 70) ;;;
   print ("🍕 BEST VALUE: " ++ name best)%string ;;;
   print ("   You get " ++ Float.format_2f (value_ratio best)
            ++ " cm² per euro!")%string ;;;
   print (Str.repeat "=" 70))%io.

(** The three assignments of [main] that make the budget recommendation
    (source lines 129 to 131), for a [budget] and the [best] pizza: the
    number of pizzas, their total area and the money left over. *)
Definition budget_recommendation (budget : float) (best : Pizza)
  : result (Z * float * float) :=
  (q <- Float.truediv budget (price best) ;;
   num_pizzas <- Float.to_int q ;;
   n <- Float.of_int num_pizzas ;;
   let total_area := PrimFloat.mul n (area best) in
   let leftover := PrimFloat.sub budget (PrimFloat.mul n (price best)) in
   ret (num_pizzas, total_area, leftover))%py.

(** The pizzas of [main]. *)
Definition main_pizzas : result (list Pizza) :=
  (small <- __init__ "Small Pizza" (SizeStr "26cm") 4.80%float ;;
   large <- __init__ "Large Pizza" (SizeStr "30cm") 5.50%float ;;
   party <- __init__ "Party Pizza" (SizeStr "46x33cm") 13.00%float ;;
   ret [small; large; party])%py.

(** [main] *)
Definition main : io unit :=
  (pizzas <- lift main_pizzas ;;
   display_results pizzas ;;;
   print (String "010" (Str.repeat "=" 70)) ;;;
   print "BUDGET RECOMMENDATIONS" ;;;
   print (Str.repeat "=" 70) ;;;
   best <- lift (find_best_pizza pizzas) ;;
   let budget := 20.00%float in
   print (String "010" "With a budget of €" ++ Float.format_2f budget ++ ":")%string ;;;
   r <- lift (budget_recommendation budget best) ;;
   let '(num_pizzas, total_area, leftover) := r in
   print ("  → Buy " ++ Str.of_Z num_pizzas ++ "x " ++ name best)%string ;;;
   print ("  → Total pizza area: " ++ Float.format_2f total_area ++ " cm²")%string ;;;
   print ("  → Leftover: €" ++ Float.format_2f leftover)%string)%io.

(** * The vocabulary of the properties *)

(** [x] is within half a cent (0.005) of the decimal [c]: it is [c] when
    written with two places. *)
Definition approx2 (x : float) (c : Q) : bool :=
  match Float.to_Q x with
  | Some q => Qle_bool (Qabs (q - c)) (5 # 1000)
  | None => false
  end.

(** What [main] prints. *)
Definition main_output : list string :=
  [ Str.repeat "=" 70;
    "PIZZA VALUE ANALYSIS";
    Str.repeat "=" 70;
    "";
    "1. Large Pizza"; "   Area: 706.86 cm²"; "   Price: €5.50";
    "   Value: 128.52 cm² per €"; "   Cost: €0.78 per 100 cm²"; "";
    "2. Party Pizza"; "   Area: 1518.00 cm²"; "   Price: €13.00";
    "   Value: 116.77 cm² per €"; "   Cost: €0.86 per 100 cm²"; "";
    "3. Small Pizza"; "   Area: 530.93 cm²"; "   Price: €4.80";
    "   Value: 110.61 cm² per €"; "   Cost: €0.90 per 100 cm²"; "";
    Str.repeat "=" 70;
    "🍕 BEST VALUE: Large Pizza";
    "   You get 128.52 cm² per euro!";
    Str.repeat "=" 70;
    String "010" (Str.repeat "=" 70);
    "BUDGET RECOMMENDATIONS";
    Str.repeat "=" 70;
    String "010" "With a budget of €20.00:";
    "  → Buy 3x Large Pizza";
    "  → Total pizza area: 2120.58 cm²";
    "  → Leftover: €3.50" ].

(** Every character of [s] satisfies [p]. *)
Fixpoint all_chars (p : ascii -> bool) (s : string) : bool :=
  match s with
  | EmptyString => true
  | String c s' => p c && all_chars p s'
  end.

(** The text of a size after [lower], [replace('cm', '')] and [strip]. *)
Definition normalize (s : string) : string :=
  Str.strip (Str.replace "cm" "" (Str.lower s)).

(** [float(s)] returns. *)
Definition is_float_text (s : string) : bool :=
  match Float.of_str s with
  | inr _ => true
  | inl _ => false
  end.

(** A character other than "c". *)
Definition not_c (c : ascii) : bool := negb (Ascii.eqb c "c").

(** A character that is not white space, not "x", not "c", and that
    [lower] leaves as it is. *)
Definition plain (c : ascii) : bool :=
  negb (Str.is_space c) && negb (Ascii.eqb c "x") && not_c c
  && Ascii.eqb (Str.lower_char c) c.

(** 2^-500 and 2^500, about 3.1e-151 and 3.3e150: between them the
    square of the radius and the area are normal numbers. *)
Definition least_diameter : float := 0x1p-500%float.
Definition greatest_diameter : float := 0x1p+500%float.

(** At [x] the [pow(x, 2.0)] of the C library reports no error and
    returns a finite float within [2^-50] of the exact square,
    relatively (four units in the last place). *)
Definition accurate_square (libm : float -> float -> float * Float.errno)
    (x : float) : Prop :=
  snd (libm x 2%float) = Float.ENONE
  /\ PrimFloat.is_finite (fst (libm x 2%float)) = true
  /\ (Rabs (Float.to_R (fst (libm x 2%float)) - Float.to_R x * Float.to_R x)
      <= / 2 ^ 50 * (Float.to_R x * Float.to_R x))%R.

(** The float [a] is finite and within [10^-9], relatively, of the area
    [pi * (d/2)^2] of the circle of diameter [d], a real number. *)
Definition close_to_circle (a : float) (d : R) : Prop :=
  PrimFloat.is_finite a = true
  /\ (Rabs (Float.to_R a - PI * (d / 2) ^ 2) <= / 10 ^ 9 * (PI * (d / 2) ^ 2))%R.

(** A place on a line of integer triples, ordered from the left, for each
    float that is not a NaN: the infinities at the ends, the zeros (equal
    to each other) in the middle, and the finite numbers by exponent and
    mantissa. *)
Definition SFord (f : spec_float) : Z * Z * Z :=
  match f with
  | S754_infinity true => (-2, 0, 0)
  | S754_finite true m e => (-1, - e, - Zpos m)
  | S754_zero _ => (0, 0, 0)
  | S754_finite false m e => (1, e, Zpos m)
  | S754_infinity false => (2, 0, 0)
  | S754_nan => (3, 0, 0)
  end.

(** The order of the triples, first component first. *)
Definition lexlt (p q : Z * Z * Z) : Prop :=
  let '(a1, b1, c1) := p in
  let '(a2, b2, c2) := q in
  a1 < a2 \/ (a1 = a2 /\ (b1 < b2 \/ (b1 = b2 /\ c1 < c2))).

(** The place of a float. *)
Definition ford (x : float) : Z * Z * Z := SFord (Prim2SF x).

(** The key of [a] is a number, not a NaN. *)
Definition numeric {A : Type} (key : A -> float) (a : A) : Prop :=
  PrimFloat.is_nan (key a) = false.

(** No later item has a smaller key. *)
Definition ascending {A : Type} (key : A -> float) : list A -> Prop :=
  StronglySorted (fun a b => PrimFloat.ltb (key b) (key a) = false).

(** No later item has a greater key. *)
Definition descending {A : Type} (key : A -> float) : list A -> Prop :=
  StronglySorted (fun a b => PrimFloat.ltb (key a) (key b) = false).

(** The items whose key equals [r], in the order of the list. *)
Definition with_key {A : Type} (key : A -> float) (r : float) (l : list A)
  : list A :=
  filter (fun a => PrimFloat.eqb (key a) r) l.

(** [m] is the first item of [l] with the greatest key: the items before
    it have smaller keys and no item behind it has a greater key. *)
Definition first_max {A : Type} (key : A -> float) (l : list A) (m : A)
  : Prop :=
  exists l1 l2,
    l = l1 ++ m :: l2
    /\ Forall (fun a => PrimFloat.ltb (key a) (key m) = true) l1
    /\ Forall (fun a => PrimFloat.ltb (key m) (key a) = false) l2.

(** The value ratio of every pizza of the list is a number, not a NaN. *)
Definition ratios_numeric (items : list Pizza) : Prop :=
  Forall (fun p => PrimFloat.is_nan (value_ratio p) = false) items.

(** Each ratio is greater than or equal to every later one. *)
Definition non_increasing (items : list Pizza) : Prop :=
  StronglySorted
    (fun a b => PrimFloat.leb (value_ratio b) (value_ratio a) = true) items.

(** Three pizzas, two of them with the same ratio. *)
Definition sample_items : list Pizza :=
  [ mkPizza "A" 1%float 2%float 2%float;
    mkPizza "B" 1%float 3%float 3%float;
    mkPizza "C" 2%float 6%float 3%float ].

(** Zero or more: a zero of either sign, a positive number or [+inf]. *)
Definition SFnonneg (f : spec_float) : bool :=
  match f with
  | S754_zero _ | S754_finite false _ _ | S754_infinity false => true
  | _ => false
  end.

(** More than zero. *)
Definition SFpos (f : spec_float) : bool :=
  match f with
  | S754_finite false _ _ | S754_infinity false => true
  | _ => false
  end.

(** Not a NaN, and the sign bit is clear. *)
Definition SFplus (f : spec_float) : bool :=
  match f with
  | S754_zero false | S754_finite false _ _ | S754_infinity false => true
  | _ => false
  end.

(** A zero of either sign. *)
Definition SFis_zero (f : spec_float) : bool :=
  match f with
  | S754_zero _ => true
  | _ => false
  end.

(** An infinity of either sign. *)
Definition SFis_inf (f : spec_float) : bool :=
  match f with
  | S754_infinity _ => true
  | _ => false
  end.

(** The size is well formed in the sense of the data model: a positive
    diameter, or a positive width and a positive height. *)
Definition positive_size (size : size_descriptor) : bool :=
  match size with
  | SizeInt n => 0 <? n
  | SizeFloat x => PrimFloat.ltb PrimFloat.zero x
  | SizeStr s =>
      if Str.contains "x" (normalize s) then
        match Str.split "x" (normalize s) with
        | p0 :: p1 :: _ =>
            match Float.of_str (Str.strip p0), Float.of_str (Str.strip p1) with
            | inr w, inr h =>
                PrimFloat.ltb PrimFloat.zero w && PrimFloat.ltb PrimFloat.zero h
            | _, _ => false
            end
        | _ => false
        end
      else
        match Float.of_str (normalize s) with
        | inr d => PrimFloat.ltb PrimFloat.zero d
        | inl _ => false
        end
  end.

(** A zero or a finite number. *)
Definition SFis_finite (f : spec_float) : bool :=
  match f with
  | S754_zero _ | S754_finite _ _ _ => true
  | _ => false
  end.

(** 0 for an exact location, 1 for an inexact one. *)
Definition inexact (l : location) : Z :=
  match l with
  | loc_Exact => 0
  | loc_Inexact _ => 1
  end.

(** The area of the pizza is a zero. *)
Definition zero_area (p : Pizza) : bool := PrimFloat.eqb (area p) PrimFloat.zero.

(** The heading of the report. *)
Definition heading_lines : list string :=
  [Str.repeat "=" 70; "PIZZA VALUE ANALYSIS"%string; Str.repeat "=" 70; ""%string].

(** The six lines of the report for the pizza [p] ranked [i]. *)
Definition entry_lines (i : Z) (p : Pizza) : list string :=
  [ (Str.of_Z i ++ ". " ++ name p)%string;
    ("   Area: " ++ Float.format_2f (area p) ++ " cm²")%string;
    ("   Price: €" ++ Float.format_2f (price p))%string;
    ("   Value: " ++ Float.format_2f (value_ratio p) ++ " cm² per €")%string;
    ("   Cost: €"
       ++ Float.format_2f
            (PrimFloat.mul (PrimFloat.div (price p) (area p)) 100%float)
       ++ " per 100 cm²")%string;
    ""%string ].

(** The lines for the pizzas of [l], numbered from [start]. *)
Fixpoint entries (start : Z) (l : list Pizza) : list string :=
  match l with
  | [] => []
  | p :: l' => entry_lines start p ++ entries (start + 1) l'
  end.

(** The four lines that close the report. *)
Definition closing_lines (best : Pizza) : list string :=
  [ Str.repeat "=" 70;
    ("🍕 BEST VALUE: " ++ name best)%string;
    ("   You get " ++ Float.format_2f (value_ratio best) ++ " cm² per euro!")%string;
    Str.repeat "=" 70 ].

(** The body of the loop of [display_results]. *)
Definition display_entry : Z * Pizza -> io unit :=
  fun '(i, pizza) =>
   (print (Str.of_Z i ++ ". " ++ name pizza)%string ;;;
     print ("   Area: " ++ Float.format_2f (area pizza) ++ " cm²")%string ;;;
     print ("   Price: €" ++ Float.format_2f (price pizza))%string ;;;
     print ("   Value: " ++ Float.format_2f (value_ratio pizza)
              ++ " cm² per €")%string ;;;
     q <- lift (Float.truediv (price pizza) (area pizza)) ;;
     print ("   Cost: €" ++ Float.format_2f (PrimFloat.mul q 100%float)
              ++ " per 100 cm²")%string ;;;
     print "")%io.

(** No two pizzas of the list have equal ratios. *)
Definition distinct_ratios (items : list Pizza) : Prop :=
  ForallOrdPairs
    (fun a b => PrimFloat.eqb (value_ratio a) (value_ratio b) = false) items.

(** Two pizzas, the second with the area 0. *)
Definition zero_area_items : list Pizza :=
  [ mkPizza "A" 1%float 2%float 2%float;
    mkPizza "Z" 1%float 0%float 0%float ].

(** Three pizzas with three different ratios. *)
Definition distinct_items : list Pizza :=
  [ mkPizza "A" 1%float 2%float 2%float;
    mkPizza "B" 1%float 3%float 3%float;
    mkPizza "C" 2%float 8%float 4%float ].

(** 2^-536, about 4.4e-162: the squares and products of sizes from this
    one on are not rounded to zero. *)
Definition least_size : float := 0x1p-536%float.

(** 2^-500 and 2^500: the quotient of an area of at least the first by a
    price of at most the second is not rounded to zero. *)
Definition least_area : float := 0x1p-500%float.
Definition greatest_price : float := 0x1p+500%float.

(** 2^-249, about 1.1e-75: the area of a circle of at least this diameter
    and of a rectangle with sides of at least this length is at least
    2^-500. *)
Definition least_side : float := 0x1p-249%float.

(** The size is well formed and in that range: a positive integer
    diameter, a float diameter of at least [least_side], or a text with
    such a diameter or with a width and a height of at least
    [least_side]. *)
Definition size_in_range (size : size_descriptor) : bool :=
  match size with
  | SizeInt n => 0 <? n
  | SizeFloat x => PrimFloat.leb least_side x
  | SizeStr s =>
      if Str.contains "x" (normalize s) then
        match Str.split "x" (normalize s) with
        | p0 :: p1 :: _ =>
            match Float.of_str (Str.strip p0), Float.of_str (Str.strip p1) with
            | inr w, inr h =>
                PrimFloat.leb least_side w && PrimFloat.leb least_side h
            | _, _ => false
            end
        | _ => false
        end
      else
        match Float.of_str (normalize s) with
        | inr d => PrimFloat.leb least_side d
        | inl _ => false
        end
  end.

(** A positive float of the format with an exponent of at least [k], or
    [+inf]. *)
Definition SFabove (k : Z) (f : spec_float) : Prop :=
  f = S754_infinity false
  \/ exists m e, f = S754_finite false m e /\ bounded prec emax m e = true /\ k <= e.

(** * Properties *)

(** ** The built-ins on sample inputs

    The values on the right are those of CPython. *)

Example lower_sample : Str.lower " 26 CM " = " 26 cm ".
Proof. reflexivity. Qed.

Example replace_sample : Str.replace "cm" "" "26cmcmc m ccmm" = "26c m cm".
Proof. reflexivity. Qed.

Example strip_sample : Str.strip (String "028" " 26 " ++ String "009" "") = "26".
Proof. reflexivity. Qed.

Example split_sample :
  Str.split "x" "46x33" = ["46"; "33"]
  /\ Str.split "x" "26x" = ["26"; ""]
  /\ Str.split "x" "1x2x3" = ["1"; "2"; "3"].
Proof. repeat split. Qed.

Example float_sample :
  Float.of_str "4.80" = inr 4.80%float
  /\ Float.of_str " 1_000.5e-1 " = inr 100.05%float
  /\ Float.of_str "9007199254740993" = inr 9007199254740992%float
  /\ Float.of_str "2.4703282292062328e-324" = inr 0x1p-1074%float
  /\ Float.of_str "1.7976931348623159e308" = inr infinity
  /\ Float.of_str "-Infinity" = inr neg_infinity
  /\ Float.of_str "-0" = inr neg_zero
  /\ Float.of_str (String "028" "1") = inl ValueError
  /\ Float.of_str "1__0" = inl ValueError
  /\ Float.of_str "1e" = inl ValueError
  /\ Float.of_str "" = inl ValueError.
Proof. repeat split; vm_compute; reflexivity. Qed.

Example format_sample :
  Float.format_2f 0.125%float = "0.12"
  /\ Float.format_2f 2.675%float = "2.67"
  /\ Float.format_2f 9.999%float = "10.00"
  /\ Float.format_2f (-0.001)%float = "-0.00"
  /\ Float.format_2f infinity = "inf".
Proof. repeat split; vm_compute; reflexivity. Qed.

Example int_sample :
  Float.to_int 3.99%float = inr 3
  /\ Float.to_int (-3.99)%float = inr (-3)
  /\ Float.to_int infinity = inl OverflowError
  /\ Float.to_int nan = inl ValueError
  /\ Float.of_int 9007199254740993 = inr 9007199254740992%float
  /\ Float.int_truediv 9007199254740993 2 = inr 4503599627370496%float
  /\ Float.int_truediv 26 2 = inr 13%float.
Proof. repeat split; vm_compute; reflexivity. Qed.

Example pow_sample :
  Float.pow2 13%float = inr 169%float
  /\ Float.pow2 1e200%float = inl OverflowError
  /\ Float.pow2 neg_infinity = inr infinity
  /\ Float.pow2 1e-200%float = inr 0%float.
Proof. repeat split; vm_compute; reflexivity. Qed.

(** ** The fixed data set of [main] *)

Lemma main_runs : main [] = (inr tt, main_output).
Proof. vm_compute. reflexivity. Qed.

(** C1: for the data set of [main] the areas are 530.93, 706.86 and 1518.00
    to two places, the ratios 110.61, 128.52 and 116.77, the best pizza is
    the Large Pizza, and a budget of 20.00 buys 3 of them, with a total
    area of 2120.58 to two places and 3.50 left over. *)
Theorem C1_fixed_dataset :
  exists small large party total,
    main_pizzas = inr [small; large; party]
    /\ approx2 (area small) 530.93 = true
    /\ approx2 (area large) 706.86 = true
    /\ approx2 (area party) 1518.00 = true
    /\ approx2 (value_ratio small) 110.61 = true
    /\ approx2 (value_ratio large) 128.52 = true
    /\ approx2 (value_ratio party) 116.77 = true
    /\ map name [small; large; party]
       = ["Small Pizza"; "Large Pizza"; "Party Pizza"]%string
    /\ find_best_pizza [small; large; party] = inr large
    /\ budget_recommendation 20.00%float large = inr (3, total, 3.50%float)
    /\ approx2 total 2120.58 = true.
Proof.
  do 4 eexists.
  split; [vm_compute; reflexivity|].
  repeat split; vm_compute; reflexivity.
Qed.

(** ** Facts about the string built-ins *)

Section StringFacts.

Local Open Scope string_scope.

Lemma append_empty_r (s : string) : (s ++ "")%string = s.
Proof. induction s; simpl; congruence. Qed.

Lemma append_assoc' (a b c : string) :
  ((a ++ b) ++ c)%string = (a ++ (b ++ c))%string.
Proof. induction a; simpl; congruence. Qed.

Lemma all_chars_app p a b :
  all_chars p (a ++ b) = all_chars p a && all_chars p b.
Proof. induction a; simpl; [reflexivity | rewrite IHa, andb_assoc; reflexivity]. Qed.

Lemma all_chars_impl (p q : ascii -> bool) s :
  (forall c, p c = true -> q c = true) ->
  all_chars p s = true -> all_chars q s = true.
Proof.
  intros Hpq. induction s as [|c s IH]; simpl; [reflexivity|].
  rewrite !andb_true_iff. intros [Hc Hs]. auto.
Qed.

(** *** [split] and [in] *)

Lemma split_not_nil c s : Str.split c s <> [].
Proof.
  destruct s as [|d s]; simpl; [discriminate|].
  destruct (Ascii.eqb d c); [discriminate|].
  destruct (Str.split c s); discriminate.
Qed.

(** A text that holds the separator splits into two pieces at least, so
    that [dimensions[0]] and [dimensions[1]] exist. *)
Lemma split_contains c s :
  Str.contains c s = true ->
  exists p0 p1 rest, Str.split c s = p0 :: p1 :: rest.
Proof.
  induction s as [|d s IH]; simpl; [discriminate|].
  destruct (Ascii.eqb d c); simpl.
  - intros _. destruct (Str.split c s) as [|p ps] eqn:E.
    + exfalso. exact (split_not_nil _ _ E).
    + eauto.
  - intros H. destruct (IH H) as (p0 & p1 & rest & E). rewrite E. eauto.
Qed.

Lemma contains_app c a b :
  Str.contains c (a ++ b) = Str.contains c a || Str.contains c b.
Proof. induction a; simpl; [reflexivity | rewrite IHa, orb_assoc; reflexivity]. Qed.

Lemma contains_all_chars c s :
  all_chars (fun d => negb (Ascii.eqb d c)) s = true -> Str.contains c s = false.
Proof.
  induction s as [|d s IH]; simpl; [reflexivity|].
  rewrite andb_true_iff, negb_true_iff. intros [-> Hs]. simpl. auto.
Qed.

Lemma split_no_sep c s :
  Str.contains c s = false -> Str.split c s = [s].
Proof.
  induction s as [|d s IH]; simpl; [reflexivity|].
  destruct (Ascii.eqb d c); simpl; [discriminate|].
  intros H. rewrite (IH H). reflexivity.
Qed.

Lemma split_app_sep c a b :
  Str.contains c a = false ->
  Str.split c (a ++ String c b) = a :: Str.split c b.
Proof.
  induction a as [|d a IH]; simpl.
  - intros _. rewrite Ascii.eqb_refl. reflexivity.
  - destruct (Ascii.eqb d c); simpl; [discriminate|].
    intros H. rewrite (IH H). reflexivity.
Qed.

End StringFacts.

(** ** Parse errors of the area calculator *)

Lemma of_literal_raises s e : Float.of_literal s = inl e -> e = ValueError.
Proof.
  unfold Float.of_literal. destruct (Float.split_sign s) as [neg body].
  unfold Float.of_body.
  destruct (_ || _); [discriminate|].
  destruct (String.eqb body "nan"); [discriminate|].
  destruct (Float.pfinish _) as [[m x]|]; [discriminate|].
  unfold raise. congruence.
Qed.

Lemma of_str_raises s e : Float.of_str s = inl e -> e = ValueError.
Proof. apply of_literal_raises. Qed.

Lemma is_float_text_false s :
  is_float_text s = false <-> Float.of_str s = inl ValueError.
Proof.
  unfold is_float_text. destruct (Float.of_str s) as [e|x] eqn:E.
  - rewrite (of_str_raises _ _ E). tauto.
  - split; discriminate.
Qed.

Lemma truediv_2 x : Float.truediv x 2%float = inr (PrimFloat.div x 2%float).
Proof. reflexivity. Qed.

Lemma pow2_not_ValueError x : Float.pow2 x <> inl ValueError.
Proof. unfold Float.pow2. destruct (_ && _); discriminate. Qed.

(** C2, as the code has it: a textual size raises [ValueError] exactly when
    a number in it cannot be read.  Without an "x" that is the whole
    normalised text; with an "x" it is the first or the second piece, and
    further pieces are not looked at.  The sign of a number is not
    checked.  "26x" raises, as its second piece is empty. *)
Theorem C2_parse_error_iff (s : string) :
  (_calculate_area (SizeStr s) = inl ValueError <->
   if Str.contains "x" (normalize s)
   then exists p0 p1 rest,
       Str.split "x" (normalize s) = p0 :: p1 :: rest
       /\ (is_float_text (Str.strip p0) = false
           \/ is_float_text (Str.strip p1) = false)
   else is_float_text (normalize s) = false)
  /\ _calculate_area (SizeStr "26x") = inl ValueError.
Proof.
  split; [|vm_compute; reflexivity].
  unfold _calculate_area. fold (normalize s).
  destruct (Str.contains "x" (normalize s)) eqn:Hx.
  - destruct (split_contains _ _ Hx) as (p0 & p1 & rest & E).
    rewrite E. cbn [Seq.item nth_error bind ret].
    destruct (Float.of_str (Str.strip p0)) as [e0|w] eqn:E0.
    + pose proof (of_str_raises _ _ E0) as ->. cbn [bind].
      split; [|reflexivity].
      intros _. exists p0, p1, rest. split; [reflexivity|].
      left. apply is_float_text_false. exact E0.
    + cbn [bind]. destruct (Float.of_str (Str.strip p1)) as [e1|h] eqn:E1.
      * pose proof (of_str_raises _ _ E1) as ->. cbn [bind].
        split; [|reflexivity].
        intros _. exists p0, p1, rest. split; [reflexivity|].
        right. apply is_float_text_false. exact E1.
      * cbn [bind]. split; [discriminate|].
        intros (q0 & q1 & r & Eq & H). inversion Eq; subst.
        rewrite !is_float_text_false in H.
        destruct H as [H|H]; congruence.
  - rewrite is_float_text_false.
    destruct (Float.of_str (normalize s)) as [e|d] eqn:E.
    + rewrite (of_str_raises _ _ E). cbn [bind]. tauto.
    + cbn [bind]. rewrite truediv_2. cbn [bind].
      split; [|discriminate].
      destruct (Float.pow2 _) as [e|sq] eqn:Ep; cbn [bind]; [|discriminate].
      intros H. exfalso. apply (pow2_not_ValueError (PrimFloat.div d 2%float)).
      congruence.
Qed.

(** C2, against the claim: "-5cm" does not raise; it is read as the
    diameter -5 and gives the area of a circle of diameter 5. *)
Lemma C2_negative_diameter_accepted :
  _calculate_area (SizeStr "-5cm")
  = inr (PrimFloat.mul Float.pi (PrimFloat.mul 2.5%float 2.5%float))
  /\ _calculate_area (SizeStr "-5cm") <> inl ValueError.
Proof. split; [vm_compute; reflexivity | discriminate]. Qed.

(** A third dimension is not a parse error either. *)
Lemma three_dimensions_accepted :
  _calculate_area (SizeStr "1x2x3cm") = inr 2%float.
Proof. vm_compute. reflexivity. Qed.

(** ** Normalising a size text *)

Section Normalisation.

Local Open Scope string_scope.

(** *** [lower] *)

Lemma lower_app a b : Str.lower (a ++ b) = (Str.lower a ++ Str.lower b)%string.
Proof. induction a; simpl; congruence. Qed.

Lemma lower_fixed s :
  all_chars (fun c => Ascii.eqb (Str.lower_char c) c) s = true -> Str.lower s = s.
Proof.
  induction s as [|c s IH]; simpl; [reflexivity|].
  rewrite andb_true_iff, Ascii.eqb_eq. intros [-> Hs]. rewrite IH; auto.
Qed.

(** *** [replace('cm', '')] *)

Lemma replace_cm_cons c s :
  c <> "c"%char ->
  Str.replace "cm" "" (String c s) = String c (Str.replace "cm" "" s).
Proof.
  intros Hc. unfold Str.replace. cbn [Str.replace_from prefix].
  destruct (ascii_dec "c" c) as [E|_]; [congruence | reflexivity].
Qed.

Lemma replace_cm_cm s :
  Str.replace "cm" "" (String "c" (String "m" s)) = Str.replace "cm" "" s.
Proof.
  unfold Str.replace. cbn [Str.replace_from prefix String.length pred append].
  destruct (ascii_dec "c" "c") as [_|N]; [|congruence].
  destruct (ascii_dec "m" "m") as [_|N]; [|congruence].
  destruct s; reflexivity.
Qed.

Lemma replace_cm_app a r :
  all_chars not_c a = true ->
  Str.replace "cm" "" (a ++ r) = (a ++ Str.replace "cm" "" r)%string.
Proof.
  induction a as [|c a IH]; simpl; [reflexivity|].
  unfold not_c at 1. rewrite andb_true_iff, negb_true_iff, Ascii.eqb_neq.
  intros [Hc Ha]. rewrite replace_cm_cons by exact Hc. rewrite IH; auto.
Qed.

Lemma replace_cm_none s :
  all_chars not_c s = true -> Str.replace "cm" "" s = s.
Proof.
  intros H. rewrite <- (append_empty_r s) at 1.
  rewrite replace_cm_app by exact H. apply append_empty_r.
Qed.

(** *** [strip] *)

Lemma lstrip_app sp w t :
  all_chars sp w = true -> Str.lstrip_by sp (w ++ t) = Str.lstrip_by sp t.
Proof.
  induction w as [|c w IH]; simpl; [reflexivity|].
  rewrite andb_true_iff. intros [-> Hw]. auto.
Qed.

Lemma rstrip_spaces sp w : all_chars sp w = true -> Str.rstrip_by sp w = "".
Proof.
  induction w as [|c w IH]; simpl; [reflexivity|].
  rewrite andb_true_iff. intros [-> Hw]. rewrite IH; auto.
Qed.

Lemma rstrip_app sp t w :
  all_chars sp w = true -> Str.rstrip_by sp (t ++ w) = Str.rstrip_by sp t.
Proof.
  intros Hw. induction t as [|c t IH]; simpl.
  - apply rstrip_spaces, Hw.
  - rewrite IH. reflexivity.
Qed.

Lemma rstrip_keep sp x t :
  Str.rstrip_by sp t <> "" ->
  Str.rstrip_by sp (x ++ t) = (x ++ Str.rstrip_by sp t)%string.
Proof.
  intros Ht. induction x as [|c x IH]; simpl; [reflexivity|].
  rewrite IH. destruct (x ++ Str.rstrip_by sp t)%string eqn:E; [|reflexivity].
  destruct x; simpl in E; [contradiction | discriminate].
Qed.

Lemma rstrip_none sp t :
  all_chars (fun c => negb (sp c)) t = true -> Str.rstrip_by sp t = t.
Proof.
  induction t as [|c t IH]; simpl; [reflexivity|].
  rewrite andb_true_iff, negb_true_iff. intros [Hc Ht].
  rewrite IH by exact Ht. rewrite Hc. destruct t; reflexivity.
Qed.

(** A text whose first and last characters are not white space, between
    white space: [strip] returns the text. *)
Lemma strip_between sp w1 c x t w2 :
  all_chars sp w1 = true -> all_chars sp w2 = true ->
  sp c = false ->
  t <> "" -> all_chars (fun c => negb (sp c)) t = true ->
  Str.strip_by sp (w1 ++ (String c x ++ t) ++ w2) = (String c x ++ t)%string.
Proof.
  intros H1 H2 Hc Ht Hn. unfold Str.strip_by.
  rewrite lstrip_app by exact H1.
  cbn [append Str.lstrip_by]. rewrite Hc.
  change (String c ((x ++ t) ++ w2)) with ((String c (x ++ t)) ++ w2)%string.
  rewrite rstrip_app by exact H2.
  change (String c (x ++ t)) with ((String c x) ++ t)%string.
  rewrite rstrip_keep; rewrite rstrip_none by exact Hn; auto.
Qed.

Lemma strip_plain sp w1 t w2 :
  all_chars sp w1 = true -> all_chars sp w2 = true ->
  all_chars (fun c => negb (sp c)) t = true ->
  Str.strip_by sp (w1 ++ t ++ w2) = t.
Proof.
  intros H1 H2 Hn. unfold Str.strip_by.
  rewrite lstrip_app by exact H1.
  destruct t as [|c t].
  - cbn [append]. assert (E : Str.lstrip_by sp w2 = "").
    { clear -H2. induction w2 as [|d w IH]; simpl in *; [reflexivity|].
      apply andb_true_iff in H2 as [-> Hw]. auto. }
    rewrite E. reflexivity.
  - cbn [append Str.lstrip_by]. simpl in Hn.
    apply andb_true_iff in Hn as [Hc Ht]. apply negb_true_iff in Hc.
    rewrite Hc.
    change (String c (t ++ w2)) with ((String c t) ++ w2)%string.
    rewrite rstrip_app by exact H2.
    apply rstrip_none. simpl. rewrite Hc, Ht. reflexivity.
Qed.

(** What [strip] removes is white space. *)
Lemma lstrip_split sp s :
  exists a, s = (a ++ Str.lstrip_by sp s)%string /\ all_chars sp a = true.
Proof.
  induction s as [|c s (a & E & Ha)]; simpl.
  - exists "". auto.
  - destruct (sp c) eqn:Hc.
    + exists (String c a). simpl. rewrite Hc, Ha, <- E. auto.
    + exists "". auto.
Qed.

Lemma rstrip_split sp s :
  exists b, s = (Str.rstrip_by sp s ++ b)%string /\ all_chars sp b = true.
Proof.
  induction s as [|c s (b & E & Hb)]; simpl.
  - exists "". auto.
  - destruct (Str.rstrip_by sp s) as [|d r] eqn:Er.
    + destruct (sp c) eqn:Hc.
      * exists (String c b). simpl in *. rewrite Hc, Hb, <- E. auto.
      * exists b. simpl in *. split; [congruence | assumption].
    + exists b. simpl in *. split; [congruence | assumption].
Qed.

Lemma strip_split sp s :
  exists a b, s = (a ++ Str.strip_by sp s ++ b)%string
              /\ all_chars sp a = true /\ all_chars sp b = true.
Proof.
  destruct (lstrip_split sp s) as (a & Ea & Ha).
  destruct (rstrip_split sp (Str.lstrip_by sp s)) as (b & Eb & Hb).
  exists a, b. unfold Str.strip_by. rewrite <- Eb. auto.
Qed.

End Normalisation.

(** ** The characters of a number *)

Section Alphabet.

Local Open Scope string_scope.

Ltac ascii_cases c :=
  destruct c as [[] [] [] [] [] [] [] []]; vm_compute; intros;
  first [reflexivity | congruence | discriminate].

Lemma classify_plain c : Float.classify_char c <> Float.COther -> plain c = true.
Proof. ascii_cases c. Qed.

Lemma c_space_is_space c : Str.is_c_space c = true -> Str.is_space c = true.
Proof. ascii_cases c. Qed.

Lemma space_not_c c : Str.is_space c = true -> not_c c = true.
Proof. ascii_cases c. Qed.

Lemma space_not_x c : Str.is_space c = true -> negb (Ascii.eqb c "x") = true.
Proof. ascii_cases c. Qed.

Lemma space_lower c :
  Str.is_space c = true -> Ascii.eqb (Str.lower_char c) c = true.
Proof. ascii_cases c. Qed.

Lemma plain_not_space c : plain c = true -> negb (Str.is_space c) = true.
Proof. ascii_cases c. Qed.

Lemma plain_not_c_space c : plain c = true -> negb (Str.is_c_space c) = true.
Proof. ascii_cases c. Qed.

Lemma plain_not_x c : plain c = true -> negb (Ascii.eqb c "x") = true.
Proof. ascii_cases c. Qed.

Lemma plain_not_c c : plain c = true -> not_c c = true.
Proof. ascii_cases c. Qed.

Lemma plain_lower c : plain c = true -> Ascii.eqb (Str.lower_char c) c = true.
Proof. ascii_cases c. Qed.

Lemma pstep_other st c :
  Float.classify_char c = Float.COther -> Float.pstep st c = Float.PFail.
Proof. intros H. unfold Float.pstep. rewrite H. destruct st; reflexivity. Qed.

Lemma pstep_fail c : Float.pstep Float.PFail c = Float.PFail.
Proof. unfold Float.pstep. destruct (Float.classify_char c); reflexivity. Qed.

Lemma prun_fail s : Float.prun Float.PFail s = Float.PFail.
Proof.
  induction s as [|c s IH]; cbn [Float.prun]; [reflexivity|].
  rewrite pstep_fail. exact IH.
Qed.

(** A text that the automaton accepts is made of plain characters. *)
Lemma prun_plain s : forall st,
  Float.pfinish (Float.prun st s) <> None -> all_chars plain s = true.
Proof.
  induction s as [|c s IH]; intros st H; cbn [Float.prun all_chars] in *;
    [reflexivity|].
  destruct (Float.classify_char c) eqn:Ec.
  6: { rewrite (pstep_other _ _ Ec), prun_fail in H. simpl in H. congruence. }
  all: rewrite classify_plain by congruence; simpl; eapply IH; eassumption.
Qed.

Lemma of_literal_plain s v :
  Float.of_literal s = inr v -> s <> "" /\ all_chars plain s = true.
Proof.
  unfold Float.of_literal.
  assert (body_ok : forall neg body,
    Float.of_body neg body = inr v -> body <> "" /\ all_chars plain body = true).
  { intros neg body. unfold Float.of_body.
    destruct (String.eqb body "inf") eqn:E1.
    { apply String.eqb_eq in E1. subst. split; [discriminate | reflexivity]. }
    destruct (String.eqb body "infinity") eqn:E2.
    { apply String.eqb_eq in E2. subst. split; [discriminate | reflexivity]. }
    destruct (String.eqb body "nan") eqn:E3.
    { apply String.eqb_eq in E3. subst. split; [discriminate | reflexivity]. }
    simpl. destruct (Float.pfinish _) as [[m e]|] eqn:Ef; [|discriminate].
    intros _. split.
    - intros ->. simpl in Ef. discriminate.
    - apply (prun_plain _ Float.PStart). congruence. }
  destruct s as [|c r]; simpl.
  - intros H. apply (body_ok false "") in H. tauto.
  - destruct (Ascii.eqb c "+") eqn:Ep.
    { apply Ascii.eqb_eq in Ep. subst. intros H. apply body_ok in H.
      split; [discriminate|]. simpl. tauto. }
    destruct (Ascii.eqb c "-") eqn:Em.
    { apply Ascii.eqb_eq in Em. subst. intros H. apply body_ok in H.
      split; [discriminate|]. simpl. tauto. }
    intros H. apply body_ok in H. tauto.
Qed.

(** [float] of a plain text reads the text as it is. *)
Lemma of_str_plain s :
  all_chars plain s = true -> Float.of_str s = Float.of_literal s.
Proof.
  intros H. unfold Float.of_str.
  assert (E : Str.strip_by Str.is_c_space s = s).
  { rewrite <- (append_empty_r s) at 1.
    apply (strip_plain Str.is_c_space "" s ""); try reflexivity.
    eapply all_chars_impl; [|exact H]. apply plain_not_c_space. }
  rewrite E, lower_fixed; [reflexivity|].
  eapply all_chars_impl; [|exact H]. apply plain_lower.
Qed.

(** A text that [float] reads is a literal between white space. *)
Lemma of_str_split s v :
  Float.of_str s = inr v ->
  exists a lit b,
    s = (a ++ lit ++ b)%string
    /\ all_chars Str.is_space a = true /\ all_chars Str.is_space b = true
    /\ Str.lower lit <> "" /\ all_chars plain (Str.lower lit) = true
    /\ Float.of_literal (Str.lower lit) = inr v.
Proof.
  unfold Float.of_str. intros H.
  destruct (strip_split Str.is_c_space s) as (a & b & E & Ha & Hb).
  exists a, (Str.strip_by Str.is_c_space s), b.
  destruct (of_literal_plain _ _ H) as [Hne Hp].
  repeat split; try assumption;
    eapply all_chars_impl; try eassumption; apply c_space_is_space.
Qed.

Lemma lower_spaces w : all_chars Str.is_space w = true -> Str.lower w = w.
Proof.
  intros H. apply lower_fixed. eapply all_chars_impl; [|exact H]. apply space_lower.
Qed.

End Alphabet.

(** ** Areas of well-formed sizes *)

Section Areas.

Local Open Scope string_scope.

(** A diameter between white space, a unit in any letter case, white space:
    the normalised text is the diameter in lower case. *)
Lemma normalize_round w1 lit w2 u w3 :
  all_chars Str.is_space w1 = true ->
  all_chars Str.is_space w2 = true ->
  all_chars Str.is_space w3 = true ->
  Str.lower u = "cm" ->
  all_chars plain (Str.lower lit) = true ->
  normalize (w1 ++ lit ++ w2 ++ u ++ w3) = Str.lower lit.
Proof.
  intros H1 H2 H3 Hu Hl. unfold normalize.
  rewrite !lower_app, Hu.
  rewrite (lower_spaces w1), (lower_spaces w2), (lower_spaces w3) by assumption.
  set (L := Str.lower lit) in *.
  replace (w1 ++ L ++ w2 ++ "cm" ++ w3)%string
    with ((w1 ++ L ++ w2) ++ String "c" (String "m" w3))%string
    by (rewrite !append_assoc'; reflexivity).
  rewrite replace_cm_app.
  - rewrite replace_cm_cm, replace_cm_none.
    + rewrite !append_assoc'. apply strip_plain; try assumption.
      * rewrite all_chars_app, H2, H3. reflexivity.
      * eapply all_chars_impl; [|exact Hl]. apply plain_not_space.
    + eapply all_chars_impl; [|exact H3]. apply space_not_c.
  - rewrite !all_chars_app.
    rewrite (all_chars_impl _ _ _ space_not_c H1).
    rewrite (all_chars_impl _ _ _ plain_not_c Hl).
    rewrite (all_chars_impl _ _ _ space_not_c H2). reflexivity.
Qed.

(** Two numbers around an "x", each between white space, and "cm". *)
Lemma normalize_rect a1 lw b1 a2 lh b2 :
  all_chars Str.is_space a1 = true -> all_chars Str.is_space b1 = true ->
  all_chars Str.is_space a2 = true -> all_chars Str.is_space b2 = true ->
  Str.lower lw <> "" -> all_chars plain (Str.lower lw) = true ->
  Str.lower lh <> "" -> all_chars plain (Str.lower lh) = true ->
  normalize ((a1 ++ lw ++ b1) ++ "x" ++ (a2 ++ lh ++ b2) ++ "cm")
  = ((Str.lower lw ++ b1) ++ String "x" (a2 ++ Str.lower lh))%string.
Proof.
  intros Ha1 Hb1 Ha2 Hb2 Nw Pw Nh Ph. unfold normalize.
  rewrite !lower_app.
  rewrite (lower_spaces a1), (lower_spaces b1) by assumption.
  rewrite (lower_spaces a2), (lower_spaces b2) by assumption.
  change (Str.lower "x") with "x". change (Str.lower "cm") with "cm".
  set (Lw := Str.lower lw) in *. set (Lh := Str.lower lh) in *.
  assert (Cx : not_c "x" = true) by reflexivity.
  replace ((a1 ++ Lw ++ b1) ++ "x" ++ (a2 ++ Lh ++ b2) ++ "cm")%string
    with (((a1 ++ Lw ++ b1) ++ "x" ++ (a2 ++ Lh ++ b2)) ++ String "c" (String "m" ""))%string
    by (rewrite !append_assoc'; reflexivity).
  rewrite replace_cm_app.
  - rewrite replace_cm_cm. change (Str.replace "cm" "" "") with "".
    rewrite append_empty_r.
    destruct Lw as [|c Lw']; [congruence|].
    simpl in Pw. apply andb_true_iff in Pw as [Pc Pw].
    replace ((a1 ++ String c Lw' ++ b1) ++ "x" ++ a2 ++ Lh ++ b2)%string
      with (a1 ++ (String c (Lw' ++ b1 ++ "x" ++ a2) ++ Lh) ++ b2)%string
      by (simpl; rewrite !append_assoc'; simpl; rewrite !append_assoc'; reflexivity).
    unfold Str.strip. rewrite strip_between; try assumption.
    + simpl. rewrite !append_assoc'. reflexivity.
    + apply negb_true_iff. apply plain_not_space. exact Pc.
    + eapply all_chars_impl; [|exact Ph]. apply plain_not_space.
  - rewrite !all_chars_app. cbn [all_chars]. rewrite Cx.
    rewrite (all_chars_impl _ _ _ space_not_c Ha1).
    rewrite (all_chars_impl _ _ _ plain_not_c Pw).
    rewrite (all_chars_impl _ _ _ space_not_c Hb1).
    rewrite (all_chars_impl _ _ _ space_not_c Ha2).
    rewrite (all_chars_impl _ _ _ plain_not_c Ph).
    rewrite (all_chars_impl _ _ _ space_not_c Hb2). reflexivity.
Qed.

Lemma contains_plain s : all_chars plain s = true -> Str.contains "x" s = false.
Proof.
  intros H. apply contains_all_chars. eapply all_chars_impl; [|exact H].
  apply plain_not_x.
Qed.

Lemma contains_spaces s : all_chars Str.is_space s = true -> Str.contains "x" s = false.
Proof.
  intros H. apply contains_all_chars. eapply all_chars_impl; [|exact H].
  apply space_not_x.
Qed.

End Areas.

(** C5: when [float] reads [sw] as [w] and [sh] as [h] (as it does for the
    texts Python writes for two floats [w] and [h]), the size
    [sw ++ "x" ++ sh ++ "cm"] has the area [w * h]. *)
Theorem C5_rectangle_area (sw sh : string) (w h : float) :
  Float.of_str sw = inr w ->
  Float.of_str sh = inr h ->
  _calculate_area (SizeStr (sw ++ "x" ++ sh ++ "cm")) = inr (PrimFloat.mul w h).
Proof.
  intros Hw Hh.
  destruct (of_str_split _ _ Hw) as (a1 & lw & b1 & -> & Ha1 & Hb1 & Nw & Pw & Lw).
  destruct (of_str_split _ _ Hh) as (a2 & lh & b2 & -> & Ha2 & Hb2 & Nh & Ph & Lh).
  unfold _calculate_area.
  fold (normalize ((a1 ++ lw ++ b1) ++ "x" ++ (a2 ++ lh ++ b2) ++ "cm")).
  rewrite normalize_rect by assumption.
  rewrite contains_app. cbn [Str.contains]. rewrite Ascii.eqb_refl, orb_true_r.
  rewrite split_app_sep
    by (rewrite contains_app, (contains_plain (Str.lower lw)),
          (contains_spaces b1) by assumption; reflexivity).
  rewrite split_no_sep
    by (rewrite contains_app, (contains_plain (Str.lower lh)),
          (contains_spaces a2) by assumption; reflexivity).
  cbn [Seq.item nth_error bind ret].
  assert (E0 : Str.strip (Str.lower lw ++ b1) = Str.lower lw).
  { apply (strip_plain Str.is_space "" (Str.lower lw) b1); try assumption;
      [reflexivity|]. eapply all_chars_impl; [|exact Pw]. apply plain_not_space. }
  assert (E1 : Str.strip (a2 ++ Str.lower lh) = Str.lower lh).
  { rewrite <- (append_empty_r (Str.lower lh)) at 1.
    apply (strip_plain Str.is_space a2 (Str.lower lh) ""); try assumption;
      [reflexivity|]. eapply all_chars_impl; [|exact Ph]. apply plain_not_space. }
  rewrite E0, E1, !of_str_plain by assumption.
  rewrite Lw, Lh. reflexivity.
Qed.

(** An instance of C5: the rectangle 46.0 by 33.0. *)
Lemma C5_rectangle_area_witness :
  _calculate_area (SizeStr ("46.0" ++ "x" ++ "33.0" ++ "cm"))
  = inr (PrimFloat.mul 46%float 33%float).
Proof.
  apply (C5_rectangle_area "46.0" "33.0" 46%float 33%float);
    vm_compute; reflexivity.
Defined.

(** ** The order of floats *)

Section FloatOrder.

Lemma SFltb_ord x y :
  x <> S754_nan -> y <> S754_nan ->
  (SFltb x y = true <-> lexlt (SFord x) (SFord y)).
Proof.
  intros Hx Hy.
  destruct x as [sx|sx| |sx mx ex]; try congruence;
    destruct y as [sy|sy| |sy my ey]; try congruence;
    destruct sx, sy; unfold SFltb, SFcompare, SFord, lexlt;
    try (split; [discriminate | lia]);
    try (split; [intros _; lia | reflexivity]).
  - destruct (Z.compare_spec ex ey);
      [change (Pos.compare_cont Eq mx my) with (Pos.compare mx my);
       destruct (Pos.compare_spec mx my)|..];
      cbn [CompOpp]; split; intros; try discriminate; try reflexivity; lia.
  - destruct (Z.compare_spec ex ey);
      [change (Pos.compare_cont Eq mx my) with (Pos.compare mx my);
       destruct (Pos.compare_spec mx my)|..];
      split; intros; try discriminate; try reflexivity; lia.
Qed.

Lemma SFltb_nan_l y : SFltb S754_nan y = false.
Proof. reflexivity. Qed.

Lemma SFltb_nan_r x : SFltb x S754_nan = false.
Proof. destruct x as [[]|[]| |[] m e]; reflexivity. Qed.

Lemma SFleb_ord x y :
  x <> S754_nan -> y <> S754_nan ->
  SFleb x y = negb (SFltb y x).
Proof.
  intros Hx Hy.
  destruct x as [sx|sx| |sx mx ex]; try congruence;
    destruct y as [sy|sy| |sy my ey]; try congruence;
    destruct sx, sy; unfold SFleb, SFltb, SFcompare; try reflexivity.
  - rewrite (Z.compare_antisym ex ey).
    change (Pos.compare_cont Eq mx my) with (Pos.compare mx my).
    change (Pos.compare_cont Eq my mx) with (Pos.compare my mx).
    rewrite (Pos.compare_antisym mx my).
    destruct (ex ?= ey); try reflexivity. destruct (mx ?= my)%positive; reflexivity.
  - rewrite (Z.compare_antisym ex ey).
    change (Pos.compare_cont Eq mx my) with (Pos.compare mx my).
    change (Pos.compare_cont Eq my mx) with (Pos.compare my mx).
    rewrite (Pos.compare_antisym mx my).
    destruct (ex ?= ey); try reflexivity. destruct (mx ?= my)%positive; reflexivity.
Qed.

Lemma SFeqb_ord x y :
  x <> S754_nan -> y <> S754_nan ->
  SFeqb x y = negb (SFltb x y) && negb (SFltb y x).
Proof.
  intros Hx Hy.
  destruct x as [sx|sx| |sx mx ex]; try congruence;
    destruct y as [sy|sy| |sy my ey]; try congruence;
    destruct sx, sy; unfold SFeqb, SFltb, SFcompare; try reflexivity.
  - rewrite (Z.compare_antisym ex ey).
    change (Pos.compare_cont Eq mx my) with (Pos.compare mx my).
    change (Pos.compare_cont Eq my mx) with (Pos.compare my mx).
    rewrite (Pos.compare_antisym mx my).
    destruct (ex ?= ey); try reflexivity. destruct (mx ?= my)%positive; reflexivity.
  - rewrite (Z.compare_antisym ex ey).
    change (Pos.compare_cont Eq mx my) with (Pos.compare mx my).
    change (Pos.compare_cont Eq my mx) with (Pos.compare my mx).
    rewrite (Pos.compare_antisym mx my).
    destruct (ex ?= ey); try reflexivity. destruct (mx ?= my)%positive; reflexivity.
Qed.

(** [is_nan] tells the NaN of the specification. *)
Lemma is_nan_spec x : PrimFloat.is_nan x = true <-> Prim2SF x = S754_nan.
Proof.
  unfold PrimFloat.is_nan. rewrite eqb_spec.
  destruct (Prim2SF x) as [s|s| |s m e]; unfold SFeqb, SFcompare.
  - split; discriminate.
  - destruct s; split; discriminate.
  - split; reflexivity.
  - rewrite Z.compare_refl.
    change (Pos.compare_cont Eq m m) with (Pos.compare m m).
    rewrite Pos.compare_refl. destruct s; split; discriminate.
Qed.

Lemma not_nan_spec x : PrimFloat.is_nan x = false <-> Prim2SF x <> S754_nan.
Proof.
  rewrite <- is_nan_spec. destruct (PrimFloat.is_nan x); split; congruence.
Qed.

Lemma ltb_ord x y :
  PrimFloat.is_nan x = false -> PrimFloat.is_nan y = false ->
  (PrimFloat.ltb x y = true <-> lexlt (ford x) (ford y)).
Proof.
  rewrite !not_nan_spec, ltb_spec. apply SFltb_ord.
Qed.

Lemma ltb_not_nan x y :
  PrimFloat.ltb x y = true ->
  PrimFloat.is_nan x = false /\ PrimFloat.is_nan y = false.
Proof.
  rewrite ltb_spec, !not_nan_spec. intros H.
  split; intros E; rewrite E in H;
    [rewrite SFltb_nan_l in H | rewrite SFltb_nan_r in H]; discriminate.
Qed.

Lemma ltb_irrefl x : PrimFloat.ltb x x = false.
Proof.
  destruct (PrimFloat.ltb x x) eqn:E; [|reflexivity].
  destruct (ltb_not_nan _ _ E) as [Hx _].
  apply (ltb_ord x x Hx Hx) in E. unfold lexlt in E.
  destruct (ford x) as [[a b] c]. lia.
Qed.

Lemma ltb_trans x y z :
  PrimFloat.ltb x y = true -> PrimFloat.ltb y z = true ->
  PrimFloat.ltb x z = true.
Proof.
  intros H1 H2.
  destruct (ltb_not_nan _ _ H1) as [Hx Hy].
  destruct (ltb_not_nan _ _ H2) as [_ Hz].
  apply (ltb_ord x y Hx Hy) in H1. apply (ltb_ord y z Hy Hz) in H2.
  apply (ltb_ord x z Hx Hz). unfold lexlt in *.
  destruct (ford x) as [[a1 b1] c1], (ford y) as [[a2 b2] c2],
    (ford z) as [[a3 b3] c3]. lia.
Qed.

(** Among floats that are not NaN, "not less than" is transitive. *)
Lemma ltb_negtrans x y z :
  PrimFloat.is_nan x = false -> PrimFloat.is_nan y = false ->
  PrimFloat.is_nan z = false ->
  PrimFloat.ltb x y = false -> PrimFloat.ltb y z = false ->
  PrimFloat.ltb x z = false.
Proof.
  intros Hx Hy Hz H1 H2.
  destruct (PrimFloat.ltb x z) eqn:E; [|reflexivity].
  apply (ltb_ord x z Hx Hz) in E.
  assert (N1 : ~ lexlt (ford x) (ford y))
    by (rewrite <- (ltb_ord x y Hx Hy); congruence).
  assert (N2 : ~ lexlt (ford y) (ford z))
    by (rewrite <- (ltb_ord y z Hy Hz); congruence).
  unfold lexlt in *.
  destruct (ford x) as [[a1 b1] c1], (ford y) as [[a2 b2] c2],
    (ford z) as [[a3 b3] c3]. lia.
Qed.

Lemma ltb_asym x y : PrimFloat.ltb x y = true -> PrimFloat.ltb y x = false.
Proof.
  intros H. destruct (PrimFloat.ltb y x) eqn:E; [|reflexivity].
  pose proof (ltb_trans _ _ _ H E) as C. rewrite ltb_irrefl in C. discriminate.
Qed.

Lemma leb_ltb x y :
  PrimFloat.is_nan x = false -> PrimFloat.is_nan y = false ->
  PrimFloat.leb x y = negb (PrimFloat.ltb y x).
Proof. rewrite !not_nan_spec, leb_spec, ltb_spec. apply SFleb_ord. Qed.

Lemma eqb_ltb x y :
  PrimFloat.is_nan x = false -> PrimFloat.is_nan y = false ->
  PrimFloat.eqb x y = negb (PrimFloat.ltb x y) && negb (PrimFloat.ltb y x).
Proof. rewrite !not_nan_spec, eqb_spec, !ltb_spec. apply SFeqb_ord. Qed.

End FloatOrder.

(** Order facts in the form the proofs about lists use them. *)

Lemma ltb_true_ord x y :
  PrimFloat.is_nan x = false -> PrimFloat.is_nan y = false ->
  PrimFloat.ltb x y = true -> lexlt (ford x) (ford y).
Proof. intros Hx Hy. apply ltb_ord; assumption. Qed.

Lemma ltb_false_ord x y :
  PrimFloat.is_nan x = false -> PrimFloat.is_nan y = false ->
  PrimFloat.ltb x y = false -> ~ lexlt (ford x) (ford y).
Proof. intros Hx Hy H C. apply ltb_ord in C; congruence. Qed.

Lemma ord_ltb_true x y :
  PrimFloat.is_nan x = false -> PrimFloat.is_nan y = false ->
  lexlt (ford x) (ford y) -> PrimFloat.ltb x y = true.
Proof. intros Hx Hy. apply ltb_ord; assumption. Qed.

Lemma ord_ltb_false x y :
  PrimFloat.is_nan x = false -> PrimFloat.is_nan y = false ->
  ~ lexlt (ford x) (ford y) -> PrimFloat.ltb x y = false.
Proof.
  intros Hx Hy H. destruct (PrimFloat.ltb x y) eqn:E; [|reflexivity].
  exfalso. apply H. apply ltb_ord; assumption.
Qed.

Ltac ford_lia :=
  unfold lexlt in *;
  repeat match goal with
    | |- context [ford ?x] => destruct (ford x) as [[? ?] ?]
    | H : context [ford ?x] |- _ => destruct (ford x) as [[? ?] ?]
    end;
  lia.

(** Decides a comparison of floats from comparisons in the context, for
    floats that are known not to be NaN. *)
Ltac float_order :=
  repeat match goal with
    | H : PrimFloat.ltb ?x ?y = true |- _ =>
        apply ltb_true_ord in H; [|assumption|assumption]
    | H : PrimFloat.ltb ?x ?y = false |- _ =>
        apply ltb_false_ord in H; [|assumption|assumption]
    end;
  match goal with
  | |- PrimFloat.ltb ?x ?y = true => apply ord_ltb_true; [assumption|assumption|]
  | |- PrimFloat.ltb ?x ?y = false => apply ord_ltb_false; [assumption|assumption|]
  | |- False => idtac
  end;
  ford_lia.

(** ** Facts about [max] and [sorted] *)

Section Ranking.

Context {A : Type} (key : A -> float).

Lemma insert_perm x l : Permutation (Seq.insert key x l) (x :: l).
Proof.
  induction l as [|y l IH]; simpl; [reflexivity|].
  destruct (PrimFloat.ltb (key x) (key y)); [reflexivity|].
  rewrite IH. apply perm_swap.
Qed.

Lemma sort_snoc l x :
  Seq.sort key (l ++ [x]) = Seq.insert key x (Seq.sort key l).
Proof. unfold Seq.sort. rewrite fold_left_app. reflexivity. Qed.

Lemma sort_perm l : Permutation (Seq.sort key l) l.
Proof.
  induction l as [|x l IH] using rev_ind; [reflexivity|].
  rewrite sort_snoc, insert_perm, IH. apply Permutation_cons_append.
Qed.

Lemma Forall_insert (P : A -> Prop) x l :
  P x -> Forall P l -> Forall P (Seq.insert key x l).
Proof.
  intros Hx Hl. eapply Permutation_Forall.
  - symmetry. apply insert_perm.
  - constructor; assumption.
Qed.

Lemma insert_ascending x l :
  numeric key x -> Forall (numeric key) l -> ascending key l ->
  ascending key (Seq.insert key x l).
Proof.
  unfold numeric. intros Hx Hl Hs. induction Hs as [|y l Hs IH Hy]; simpl.
  - repeat constructor.
  - inversion Hl as [|? ? Ny Nl]; subst.
    destruct (PrimFloat.ltb (key x) (key y)) eqn:E.
    + constructor; [constructor; assumption|].
      constructor; [apply ltb_asym; exact E|].
      rewrite Forall_forall in *. intros b Hb.
      pose proof (Hy b Hb) as Hby. pose proof (Nl b Hb) as Nb.
      float_order.
    + constructor; [apply IH; assumption|].
      apply Forall_insert; assumption.
Qed.

Lemma sort_ascending l : Forall (numeric key) l -> ascending key (Seq.sort key l).
Proof.
  induction l as [|x l IH] using rev_ind; intros H; [constructor|].
  apply Forall_app in H as [Hl Hx]. inversion Hx; subst.
  rewrite sort_snoc. apply insert_ascending; auto.
  eapply Permutation_Forall; [symmetry; apply sort_perm | exact Hl].
Qed.

(** [insert] puts an item behind the items with the same key. *)
Lemma insert_with_key r x l :
  PrimFloat.is_nan r = false ->
  numeric key x -> Forall (numeric key) l -> ascending key l ->
  with_key key r (Seq.insert key x l)
  = with_key key r l ++ (if PrimFloat.eqb (key x) r then [x] else []).
Proof.
  unfold numeric, with_key. intros Hr Hx Hl Hs.
  induction Hs as [|y l Hs IH Hy]; simpl.
  - destruct (PrimFloat.eqb (key x) r); reflexivity.
  - inversion Hl as [|? ? Ny Nl]; subst.
    destruct (PrimFloat.ltb (key x) (key y)) eqn:E.
    + simpl. destruct (PrimFloat.eqb (key x) r) eqn:Ex;
        [|rewrite app_nil_r; reflexivity].
      assert (None : forall b, In b (y :: l) -> PrimFloat.eqb (key b) r = false).
      { intros b Hb.
        assert (Nb : PrimFloat.is_nan (key b) = false)
          by (rewrite Forall_forall in Hl; auto).
        assert (Hby : PrimFloat.ltb (key b) (key y) = false).
        { destruct Hb as [<-|Hb]; [apply ltb_irrefl|].
          rewrite Forall_forall in Hy. auto. }
        rewrite eqb_ltb in Ex |- * by assumption.
        apply andb_true_iff in Ex as [E1 E2].
        apply negb_true_iff in E1, E2.
        apply andb_false_iff. right. apply negb_false_iff.
        float_order. }
      assert (Enil : filter (fun a => PrimFloat.eqb (key a) r) (y :: l) = []).
      { clear -None. induction (y :: l) as [|b t IHt]; [reflexivity|].
        simpl. rewrite None by (left; reflexivity).
        apply IHt. intros; apply None; right; assumption. }
      simpl in Enil. rewrite Enil. reflexivity.
    + simpl. rewrite IH by assumption.
      destruct (PrimFloat.eqb (key y) r); reflexivity.
Qed.

(** [sort] keeps the order of the items with the same key. *)
Lemma sort_with_key r l :
  PrimFloat.is_nan r = false -> Forall (numeric key) l ->
  with_key key r (Seq.sort key l) = with_key key r l.
Proof.
  intros Hr. induction l as [|x l IH] using rev_ind; intros H; [reflexivity|].
  apply Forall_app in H as [Hl Hx]. inversion Hx; subst.
  rewrite sort_snoc, insert_with_key; auto.
  - rewrite IH by assumption. unfold with_key. rewrite filter_app. reflexivity.
  - eapply Permutation_Forall; [symmetry; apply sort_perm | exact Hl].
  - apply sort_ascending, Hl.
Qed.

Lemma strongly_sorted_snoc (R : A -> A -> Prop) l x :
  StronglySorted R l -> Forall (fun a => R a x) l ->
  StronglySorted R (l ++ [x]).
Proof.
  induction 1 as [|y l Hs IH Hy]; intros Hx; simpl.
  - repeat constructor.
  - inversion Hx; subst. constructor; [apply IH; assumption|].
    apply Forall_app. split; [assumption | repeat constructor; assumption].
Qed.

Lemma strongly_sorted_rev (R : A -> A -> Prop) l :
  StronglySorted R l -> StronglySorted (fun a b => R b a) (rev l).
Proof.
  induction 1 as [|y l Hs IH Hy]; simpl; [constructor|].
  apply strongly_sorted_snoc; [exact IH|].
  apply Forall_rev. exact Hy.
Qed.

Lemma sorted_perm reverse l : Permutation (Seq.sorted key reverse l) l.
Proof.
  unfold Seq.sorted. destruct reverse; [|apply sort_perm].
  rewrite <- Permutation_rev, sort_perm. symmetry. apply Permutation_rev.
Qed.

Lemma sorted_descending l :
  Forall (numeric key) l -> descending key (Seq.sorted key true l).
Proof.
  intros H. unfold Seq.sorted, descending.
  apply (strongly_sorted_rev (fun a b => PrimFloat.ltb (key b) (key a) = false)).
  apply sort_ascending. apply Forall_rev. exact H.
Qed.

Lemma with_key_nan r l : PrimFloat.is_nan r = true -> with_key key r l = [].
Proof.
  intros Hr. unfold with_key. induction l as [|a l IH]; simpl; [reflexivity|].
  rewrite IH. rewrite eqb_spec.
  apply is_nan_spec in Hr. rewrite Hr.
  unfold SFeqb. destruct (Prim2SF (key a)) as [[]|[]| |[] m e]; reflexivity.
Qed.

(** Sorting in reverse keeps the order of the items with the same key. *)
Lemma sorted_with_key r l :
  Forall (numeric key) l ->
  with_key key r (Seq.sorted key true l) = with_key key r l.
Proof.
  intros H. destruct (PrimFloat.is_nan r) eqn:Hr.
  - rewrite !with_key_nan by exact Hr. reflexivity.
  - unfold Seq.sorted, with_key. rewrite filter_rev.
    fold (with_key key r (Seq.sort key (rev l))).
    rewrite sort_with_key by (try apply Forall_rev; assumption).
    unfold with_key. rewrite filter_rev. apply rev_involutive.
Qed.

(** [max] returns the first item with the greatest key. *)
Lemma max_from_first_max l : forall done b,
  Forall (numeric key) done -> Forall (numeric key) l ->
  first_max key done b -> first_max key (done ++ l) (Seq.max_from key b l).
Proof.
  unfold numeric.
  induction l as [|x l IH]; intros done b Hd Hl Hb; simpl.
  - rewrite app_nil_r. exact Hb.
  - inversion Hl as [|? ? Nx Nl]; subst.
    replace (done ++ x :: l) with ((done ++ [x]) ++ l)
      by (rewrite <- app_assoc; reflexivity).
    apply IH; [apply Forall_app; split; [assumption | repeat constructor; assumption]
              | assumption |].
    destruct Hb as (l1 & l2 & -> & H1 & H2).
    assert (Nb : PrimFloat.is_nan (key b) = false).
    { apply Forall_app in Hd as [_ Hd]. inversion Hd; assumption. }
    destruct (PrimFloat.ltb (key b) (key x)) eqn:E.
    + exists (l1 ++ b :: l2), []. split; [reflexivity|]. split; [|constructor].
      rewrite Forall_forall in *. intros a Ha.
      assert (Na : PrimFloat.is_nan (key a) = false) by auto.
      apply in_app_or in Ha as [Ha|[<-|Ha]].
      * pose proof (H1 a Ha). float_order.
      * exact E.
      * pose proof (H2 a Ha). float_order.
    + exists l1, (l2 ++ [x]). split; [rewrite <- app_assoc; reflexivity|].
      split; [assumption|]. apply Forall_app. split; [assumption|].
      repeat constructor. exact E.
Qed.

Lemma max_by_first_max l :
  l <> [] -> Forall (numeric key) l ->
  exists m, Seq.max_by key l = inr m /\ first_max key l m.
Proof.
  intros Hne H. destruct l as [|x l]; [congruence|].
  inversion H; subst. exists (Seq.max_from key x l). split; [reflexivity|].
  apply (max_from_first_max l [x] x); auto.
  exists [], []. repeat split; constructor.
Qed.

(** There is one first maximum. *)
Lemma first_max_unique l m m' : first_max key l m -> first_max key l m' -> m = m'.
Proof.
  assert (one_way : forall l1 l2 l1' l2' t c (m m' : A),
    l1 = l1' ++ c :: t -> m' :: l2' = (c :: t) ++ m :: l2 ->
    Forall (fun a => PrimFloat.ltb (key a) (key m) = true) l1 ->
    Forall (fun a => PrimFloat.ltb (key m') (key a) = false) l2' ->
    False).
  { intros l1 l2 l1' l2' t c n n' E1 E2 H1 H2'.
    simpl in E2. injection E2 as Ec El. subst c l2' l1.
    rewrite Forall_forall in H1, H2'.
    assert (T : PrimFloat.ltb (key n') (key n) = true)
      by (apply H1, in_or_app; right; left; reflexivity).
    assert (F : PrimFloat.ltb (key n') (key n) = false)
      by (apply H2', in_or_app; right; left; reflexivity).
    congruence. }
  intros (l1 & l2 & E & H1 & H2) (l1' & l2' & E' & H1' & H2').
  rewrite E in E'. apply app_eq_app in E' as [t [[Ea Eb]|[Ea Eb]]].
  - destruct t as [|c t].
    + simpl in Eb. congruence.
    + exfalso. exact (one_way _ _ _ _ _ _ _ _ Ea Eb H1 H2').
  - destruct t as [|c t].
    + simpl in Eb. congruence.
    + exfalso. exact (one_way _ _ _ _ _ _ _ _ Ea Eb H1' H2).
Qed.

Lemma filter_cons_split (f : A -> bool) l h r :
  filter f l = h :: r ->
  exists l1 l2, l = l1 ++ h :: l2 /\ Forall (fun a => f a = false) l1.
Proof.
  induction l as [|a l IH]; simpl; [discriminate|].
  destruct (f a) eqn:Ea.
  - intros E. inversion E; subst. exists [], l. split; [reflexivity | constructor].
  - intros E. destruct (IH E) as (l1 & l2 & -> & H1).
    exists (a :: l1), l2. split; [reflexivity | constructor; assumption].
Qed.

(** The head of the ranking is the first maximum of the list. *)
Lemma sorted_head_first_max l h t :
  Forall (numeric key) l -> Seq.sorted key true l = h :: t -> first_max key l h.
Proof.
  intros Hl E.
  pose proof (sorted_perm true l) as P. rewrite E in P.
  pose proof (sorted_descending l Hl) as D. rewrite E in D.
  pose proof (sorted_with_key (key h) l Hl) as S. rewrite E in S.
  assert (Nh : PrimFloat.is_nan (key h) = false).
  { rewrite Forall_forall in Hl. apply Hl.
    eapply Permutation_in; [exact P | left; reflexivity]. }
  assert (Ge : forall a, In a l -> PrimFloat.ltb (key h) (key a) = false).
  { intros a Ha. apply Permutation_sym in P.
    apply (Permutation_in _ P) in Ha as [<-|Ha]; [apply ltb_irrefl|].
    inversion D as [|? ? _ Hh]; subst. rewrite Forall_forall in Hh. auto. }
  unfold with_key in S. simpl in S.
  rewrite (eqb_ltb _ _ Nh Nh), ltb_irrefl in S. simpl in S. symmetry in S.
  destruct (filter_cons_split _ _ _ _ S) as (l1 & l2 & -> & H1).
  exists l1, l2. split; [reflexivity|].
  unfold numeric in Hl. rewrite Forall_forall in *. split.
  - intros a Ha.
    assert (Ia : In a (l1 ++ h :: l2)) by (apply in_or_app; auto).
    pose proof (Hl a Ia) as Na. pose proof (Ge a Ia) as Ga.
    pose proof (H1 a Ha) as Ne. rewrite eqb_ltb in Ne by assumption.
    rewrite Ga in Ne. simpl in Ne. rewrite andb_true_r in Ne.
    apply negb_false_iff in Ne. exact Ne.
  - apply Forall_forall. intros a Ha. apply Ge. apply in_or_app.
    right. right. exact Ha.
Qed.

End Ranking.

(** ** The ranking of pizzas *)

Lemma descending_non_increasing items :
  ratios_numeric items -> descending value_ratio items -> non_increasing items.
Proof.
  unfold ratios_numeric, descending, non_increasing.
  induction 2 as [|a l Hs IH Ha]; [constructor|].
  inversion H as [|? ? Na Nl]; subst.
  constructor; [apply IH; assumption|].
  rewrite Forall_forall in *. intros b Hb.
  rewrite leb_ltb by auto. rewrite (Ha b Hb). reflexivity.
Qed.

Lemma sorted_pizzas_numeric items :
  ratios_numeric items -> ratios_numeric (sorted_pizzas items).
Proof.
  unfold ratios_numeric. intros H.
  eapply Permutation_Forall; [|exact H].
  symmetry. apply sorted_perm.
Qed.

(** C8, as the code has it: for a non-empty list of pizzas whose ratios
    are numbers (none is a NaN), the
    ranking is a permutation of the list, its ratios do not increase, and
    the best pizza is the first of the ranking. *)
Theorem C8_ranking_sorted_permutation (items : list Pizza) :
  items <> [] ->
  ratios_numeric items ->
  Permutation (sorted_pizzas items) items
  /\ non_increasing (sorted_pizzas items)
  /\ exists best,
      find_best_pizza items = inr best
      /\ Seq.item (sorted_pizzas items) 0 = inr best.
Proof.
  intros Hne Hn. split; [apply sorted_perm|].
  split.
  { apply descending_non_increasing; [apply sorted_pizzas_numeric, Hn|].
    apply sorted_descending. exact Hn. }
  destruct (max_by_first_max value_ratio items Hne Hn) as (best & Eb & Fb).
  exists best. split; [exact Eb|].
  destruct (sorted_pizzas items) as [|h t] eqn:E.
  - exfalso. pose proof (sorted_perm value_ratio true items) as P.
    unfold sorted_pizzas in E. rewrite E in P.
    apply Permutation_nil in P. contradiction.
  - cbn [Seq.item nth_error]. unfold ret. f_equal.
    eapply (first_max_unique value_ratio); [|exact Fb].
    eapply sorted_head_first_max; eassumption.
Qed.

(** An instance of C8. *)
Lemma C8_ranking_sorted_permutation_witness :
  Permutation (sorted_pizzas sample_items) sample_items
  /\ non_increasing (sorted_pizzas sample_items)
  /\ exists best,
      find_best_pizza sample_items = inr best
      /\ Seq.item (sorted_pizzas sample_items) 0 = inr best.
Proof.
  apply (C8_ranking_sorted_permutation sample_items).
  - discriminate.
  - unfold ratios_numeric, sample_items.
    repeat (apply Forall_cons; [vm_compute; reflexivity|]). apply Forall_nil.
Defined.

(** C8, against the claim: four pizzas as the constructor builds them from
    the sizes "1x1cm", "nan", "2x1cm" and "3x1cm" at the price 1, with the
    ratios 1, NaN, 2 and 3.  The size "nan" is read by [float] and makes
    the area and the ratio NaN.  The ranking starts with the NaN pizza,
    the best pizza is the one with the ratio 3, so the best pizza is not
    the first of the ranking; and the first ratio of the ranking is not
    greater than or equal to the second. *)
Lemma C8_nan_ratio_heads_ranking :
  exists a n c d : Pizza,
    __init__ "A" (SizeStr "1x1cm") 1%float = inr a
    /\ __init__ "N" (SizeStr "nan") 1%float = inr n
    /\ __init__ "C" (SizeStr "2x1cm") 1%float = inr c
    /\ __init__ "D" (SizeStr "3x1cm") 1%float = inr d
    /\ map value_ratio [a; n; c; d] = [1%float; nan; 2%float; 3%float]
    /\ sorted_pizzas [a; n; c; d] = [n; d; c; a]
    /\ find_best_pizza [a; n; c; d] = inr d
    /\ Seq.item (sorted_pizzas [a; n; c; d]) 0 = inr n
    /\ n <> d
    /\ ~ non_increasing (sorted_pizzas [a; n; c; d]).
Proof.
  exists (mkPizza "A" 1%float 1%float 1%float), (mkPizza "N" 1%float nan nan),
    (mkPizza "C" 1%float 2%float 2%float), (mkPizza "D" 1%float 3%float 3%float).
  do 8 (split; [vm_compute; reflexivity|]).
  split; [discriminate|].
  intros H.
  assert (E : sorted_pizzas
                [mkPizza "A" 1%float 1%float 1%float; mkPizza "N" 1%float nan nan;
                 mkPizza "C" 1%float 2%float 2%float; mkPizza "D" 1%float 3%float 3%float]
              = [mkPizza "N" 1%float nan nan; mkPizza "D" 1%float 3%float 3%float;
                 mkPizza "C" 1%float 2%float 2%float; mkPizza "A" 1%float 1%float 1%float])
    by (vm_compute; reflexivity).
  rewrite E in H. unfold non_increasing in H.
  apply StronglySorted_inv in H as [_ H].
  apply Forall_inv in H. vm_compute in H. discriminate H.
Qed.

(** C9, as the code has it: for a non-empty list of pizzas whose ratios
    are numbers (none is a NaN), the best
    pizza is the first one with the greatest ratio, and the ranking is the
    list sorted by ratio, greatest first, in which the pizzas of any one
    ratio stand in the order they have in the list. *)
Theorem C9_stable_best_and_ranking (items : list Pizza) :
  items <> [] ->
  ratios_numeric items ->
  (exists best,
      find_best_pizza items = inr best
      /\ first_max value_ratio items best)
  /\ Permutation (sorted_pizzas items) items
  /\ non_increasing (sorted_pizzas items)
  /\ forall r : float,
      with_key value_ratio r (sorted_pizzas items)
      = with_key value_ratio r items.
Proof.
  intros Hne Hn.
  split; [exact (max_by_first_max value_ratio items Hne Hn)|].
  split; [apply sorted_perm|].
  split.
  - apply descending_non_increasing; [apply sorted_pizzas_numeric, Hn|].
    apply sorted_descending. exact Hn.
  - intros r. apply sorted_with_key. exact Hn.
Qed.

(** An instance of C9. *)
Lemma C9_stable_best_and_ranking_witness :
  (exists best,
      find_best_pizza sample_items = inr best
      /\ first_max value_ratio sample_items best)
  /\ Permutation (sorted_pizzas sample_items) sample_items
  /\ non_increasing (sorted_pizzas sample_items)
  /\ forall r : float,
      with_key value_ratio r (sorted_pizzas sample_items)
      = with_key value_ratio r sample_items.
Proof.
  apply (C9_stable_best_and_ranking sample_items).
  - discriminate.
  - unfold ratios_numeric, sample_items.
    repeat (apply Forall_cons; [vm_compute; reflexivity|]). apply Forall_nil.
Defined.

(** C9, against the claim: a pizza of the size "nan", whose ratio is a
    NaN, in front of a pizza with the ratio 2.  [max] keeps the first
    pizza, because 2 is not greater than a NaN: the best pizza is not one
    with the greatest ratio (its ratio is neither equal to 2 nor above
    it), and the ranking, which leaves the two as they are, is not in
    descending order. *)
Lemma C9_nan_ratio_is_best :
  exists n c : Pizza,
    __init__ "N" (SizeStr "nan") 1%float = inr n
    /\ __init__ "C" (SizeStr "2x1cm") 1%float = inr c
    /\ map value_ratio [n; c] = [nan; 2%float]
    /\ find_best_pizza [n; c] = inr n
    /\ PrimFloat.leb (value_ratio c) (value_ratio n) = false
    /\ sorted_pizzas [n; c] = [n; c]
    /\ ~ non_increasing (sorted_pizzas [n; c]).
Proof.
  exists (mkPizza "N" 1%float nan nan), (mkPizza "C" 1%float 2%float 2%float).
  do 6 (split; [vm_compute; reflexivity|]).
  intros H.
  assert (E : sorted_pizzas
                [mkPizza "N" 1%float nan nan; mkPizza "C" 1%float 2%float 2%float]
              = [mkPizza "N" 1%float nan nan; mkPizza "C" 1%float 2%float 2%float])
    by (vm_compute; reflexivity).
  rewrite E in H. unfold non_increasing in H.
  apply StronglySorted_inv in H as [_ H].
  apply Forall_inv in H. vm_compute in H. discriminate H.
Qed.

(** On the sample the tie between "B" and "C" goes to "B", in both. *)
Lemma sample_ranking :
  find_best_pizza sample_items
  = inr (mkPizza "B" 1%float 3%float 3%float)
  /\ map name (sorted_pizzas sample_items) = ["B"; "C"; "A"]%string.
Proof. split; vm_compute; reflexivity. Qed.

(** C10: on an empty list [find_best_pizza] raises [ValueError], and
    [display_results] prints its heading and raises [IndexError] where it
    takes the first pizza of the ranking. *)
Theorem C10_empty_list_raises :
  find_best_pizza [] = inl ValueError
  /\ forall out : list string,
      display_results [] out
      = (inl IndexError,
         out ++ [Str.repeat "=" 70; "PIZZA VALUE ANALYSIS"%string;
                 Str.repeat "=" 70; ""%string]).
Proof.
  split; [reflexivity|].
  intros out. unfold display_results, io_bind, print, lift. simpl.
  rewrite <- !app_assoc. reflexivity.
Qed.

(** ** Signs of floats *)

Section FloatSigns.

Lemma SFplus_nonneg f : SFplus f = true -> SFnonneg f = true.
Proof. destruct f as [[]|[]| |[] m e]; simpl; congruence. Qed.

Lemma SFpos_nonneg f : SFpos f = true -> SFnonneg f = true.
Proof. destruct f as [[]|[]| |[] m e]; simpl; congruence. Qed.

Lemma Prim2SF_zero : Prim2SF PrimFloat.zero = S754_zero false.
Proof. reflexivity. Qed.

Lemma leb_zero_spec x : PrimFloat.leb PrimFloat.zero x = SFnonneg (Prim2SF x).
Proof.
  rewrite leb_spec, Prim2SF_zero.
  destruct (Prim2SF x) as [[]|[]| |[] m e]; reflexivity.
Qed.

Lemma ltb_zero_spec x : PrimFloat.ltb PrimFloat.zero x = SFpos (Prim2SF x).
Proof.
  rewrite ltb_spec, Prim2SF_zero.
  destruct (Prim2SF x) as [[]|[]| |[] m e]; reflexivity.
Qed.

Lemma eqb_zero_spec x : PrimFloat.eqb x PrimFloat.zero = SFis_zero (Prim2SF x).
Proof.
  rewrite eqb_spec, Prim2SF_zero.
  destruct (Prim2SF x) as [[]|[]| |[] m e]; reflexivity.
Qed.

Lemma is_infinity_spec x : PrimFloat.is_infinity x = SFis_inf (Prim2SF x).
Proof.
  unfold PrimFloat.is_infinity. rewrite eqb_spec, abs_spec.
  change (Prim2SF infinity) with (S754_infinity false).
  destruct (Prim2SF x) as [[]|[]| |[] m e]; reflexivity.
Qed.

(** *** Rounding keeps the sign *)

Lemma shr_1_nonneg mrs : 0 <= shr_m mrs -> 0 <= shr_m (shr_1 mrs).
Proof.
  destruct mrs as [m r s]. simpl.
  destruct m as [|[p|p|]|[p|p|]]; simpl; lia.
Qed.

Lemma iter_pos_inv {T : Type} (P : T -> Prop) (f : T -> T) :
  (forall x, P x -> P (f x)) ->
  forall p x, P x -> P (iter_pos f p x).
Proof.
  intros Hf. induction p as [p IH|p IH|]; intros x Hx; simpl; auto.
Qed.

Lemma shr_nonneg mrs e n : 0 <= shr_m mrs -> 0 <= shr_m (fst (shr mrs e n)).
Proof.
  intros H. unfold shr. destruct n as [|p|p]; simpl; try assumption.
  apply (iter_pos_inv (fun r => 0 <= shr_m r)); [apply shr_1_nonneg | exact H].
Qed.

Lemma shr_fexp_nonneg m e l :
  0 <= m -> 0 <= shr_m (fst (shr_fexp prec emax m e l)).
Proof.
  intros H. unfold shr_fexp. apply shr_nonneg.
  destruct l as [|[]]; simpl; exact H.
Qed.

Lemma round_nearest_even_nonneg m l : 0 <= m -> 0 <= round_nearest_even m l.
Proof.
  intros H. unfold round_nearest_even.
  destruct l as [|[]]; try destruct (Z.even m); lia.
Qed.

(** The result of rounding a magnitude [0 <= m] has the sign it was given
    and is not a NaN. *)
Lemma binary_round_aux_sign s m e l :
  0 <= m ->
  match binary_round_aux prec emax s m e l with
  | S754_zero s' | S754_infinity s' | S754_finite s' _ _ => s' = s
  | S754_nan => False
  end.
Proof.
  intros H. unfold binary_round_aux.
  pose proof (shr_fexp_nonneg m e l H) as H1.
  destruct (shr_fexp prec emax m e l) as [mrs' e']. simpl in H1.
  pose proof (shr_fexp_nonneg
                (round_nearest_even (shr_m mrs') (loc_of_shr_record mrs'))
                e' loc_Exact (round_nearest_even_nonneg _ _ H1)) as H2.
  destruct (shr_fexp prec emax _ e' loc_Exact) as [mrs'' e'']. simpl in H2.
  destruct (shr_m mrs'') as [|p|p]; [reflexivity| |lia].
  destruct (e'' <=? emax - prec); reflexivity.
Qed.

Lemma binary_round_aux_plus m e l :
  0 <= m -> SFplus (binary_round_aux prec emax false m e l) = true.
Proof.
  intros H. pose proof (binary_round_aux_sign false m e l H) as S.
  destruct (binary_round_aux prec emax false m e l) as [s'|s'| |s' m' e'];
    simpl; try subst s'; try reflexivity; contradiction.
Qed.

Lemma binary_round_plus m e : SFplus (binary_round prec emax false m e) = true.
Proof.
  unfold binary_round. destruct (shl_align m e _) as [mz ez].
  apply binary_round_aux_plus. lia.
Qed.

Lemma binary_normalize_plus z e :
  0 <= z -> SFplus (binary_normalize prec emax z e false) = true.
Proof.
  intros H. destruct z as [|p|p]; simpl; [reflexivity | | lia].
  apply binary_round_plus.
Qed.

Lemma SFdiv_core_nonneg m1 e1 m2 e2 :
  0 <= fst (fst (SFdiv_core_binary prec emax (Zpos m1) e1 (Zpos m2) e2)).
Proof.
  unfold SFdiv_core_binary.
  set (s := _ - _ - _).
  set (m' := match s with Z0 => Z.pos m1 | Z.pos _ => Z.shiftl (Z.pos m1) s
                     | Z.neg _ => 0 end).
  assert (Hm : 0 <= m').
  { subst m'. destruct s; try lia. apply Z.shiftl_nonneg. lia. }
  pose proof (Z.div_pos m' (Zpos m2) Hm ltac:(lia)) as Hq.
  unfold Z.div in Hq. destruct (Z.div_eucl m' (Z.pos m2)) as [q r].
  simpl in *. exact Hq.
Qed.

(** *** Products and quotients of floats that are zero or more *)

Lemma SFdiv_plus x y :
  SFplus x = true -> SFpos y = true ->
  SFis_inf x && SFis_inf y = false ->
  SFplus (SF64div x y) = true.
Proof.
  destruct x as [[]|[]| |[] mx ex]; try discriminate;
    destruct y as [[]|[]| |[] my ey]; try discriminate;
    intros _ _ H; try reflexivity; try discriminate.
  unfold SF64div, SFdiv.
  pose proof (SFdiv_core_nonneg mx ex my ey) as Hq.
  destruct (SFdiv_core_binary prec emax (Z.pos mx) ex (Z.pos my) ey) as [[q e] l].
  simpl in Hq. apply binary_round_aux_plus. exact Hq.
Qed.

Lemma SFmul_plus x y :
  SFplus x = true -> SFplus y = true ->
  SFis_zero x && SFis_inf y = false ->
  SFis_inf x && SFis_zero y = false ->
  SFplus (SF64mul x y) = true.
Proof.
  destruct x as [[]|[]| |[] mx ex]; try discriminate;
    destruct y as [[]|[]| |[] my ey]; try discriminate;
    intros _ _ H1 H2; try reflexivity; try discriminate.
  unfold SF64mul, SFmul. apply binary_round_aux_plus. lia.
Qed.

End FloatSigns.

(** ** Signs of areas and ratios *)

Section Invariants.

Lemma div_plus x y :
  SFplus (Prim2SF x) = true -> SFpos (Prim2SF y) = true ->
  PrimFloat.is_infinity x && PrimFloat.is_infinity y = false ->
  SFplus (Prim2SF (PrimFloat.div x y)) = true.
Proof. rewrite div_spec, !is_infinity_spec. apply SFdiv_plus. Qed.

Lemma mul_plus x y :
  SFplus (Prim2SF x) = true -> SFplus (Prim2SF y) = true ->
  SFis_zero (Prim2SF x) && SFis_inf (Prim2SF y) = false ->
  SFis_inf (Prim2SF x) && SFis_zero (Prim2SF y) = false ->
  SFplus (Prim2SF (PrimFloat.mul x y)) = true.
Proof. rewrite mul_spec. apply SFmul_plus. Qed.

Lemma SF2Prim_plus f : SFplus f = true -> SFplus (Prim2SF (SF2Prim f)) = true.
Proof.
  destruct f as [[]|[]| |[] m e]; try discriminate; intros _; try reflexivity.
  unfold SF2Prim. rewrite Z_ldexp_spec, of_uint63_spec.
  pose proof (binary_normalize_plus (Uint63.to_Z (Uint63.of_Z (Z.pos m))) 0) as H.
  destruct (Uint63.to_Z_bounded (Uint63.of_Z (Z.pos m))) as [Hb _].
  specialize (H Hb).
  destruct (binary_normalize prec emax _ 0 false) as [[]|[]| |[] m' e'];
    try discriminate; try reflexivity.
  unfold SFldexp. apply binary_round_plus.
Qed.

Lemma SF64of_ratio_plus n d : SFplus (Float.SF64of_ratio false n d) = true.
Proof.
  unfold Float.SF64of_ratio.
  pose proof (SFdiv_core_nonneg n 0 d 0) as Hq.
  destruct (SFdiv_core_binary prec emax (Z.pos n) 0 (Z.pos d) 0) as [[q e] l].
  apply binary_round_aux_plus. exact Hq.
Qed.

Lemma int_truediv_plus n d r :
  0 < n -> Float.int_truediv n d = inr r -> SFplus (Prim2SF r) = true.
Proof.
  intros Hn. unfold Float.int_truediv. destruct n as [|p|p]; try lia.
  pose proof (SF64of_ratio_plus p d) as H.
  intros Hr.
  assert (Er : r = SF2Prim (Float.SF64of_ratio false p d)).
  { destruct (Float.SF64of_ratio false p d) as [s|s| |s m e];
      try discriminate; injection Hr as Hr; symmetry; exact Hr. }
  rewrite Er. apply SF2Prim_plus. exact H.
Qed.

Lemma pi_plus : Prim2SF Float.pi = S754_finite false 7074237752028440 (-51).
Proof. reflexivity. Qed.

Lemma two_pos : Prim2SF 2%float = S754_finite false 4503599627370496 (-51).
Proof. reflexivity. Qed.

(** The area of a circle whose radius is zero or more. *)
Lemma circle_plus r a :
  SFplus (Prim2SF r) = true ->
  (sq <- Float.pow2 r ;; ret (PrimFloat.mul Float.pi sq))%py = inr a ->
  SFplus (Prim2SF a) = true.
Proof.
  intros Hr. unfold Float.pow2. cbv zeta.
  destruct (_ && _); cbn [bind raise ret]; [discriminate|].
  intros [= <-].
  assert (Hsq : SFplus (Prim2SF (PrimFloat.mul r r)) = true).
  { apply mul_plus; try assumption;
      destruct (Prim2SF r) as [[]|[]| |[] m e]; reflexivity. }
  apply mul_plus; try assumption; rewrite pi_plus; reflexivity.
Qed.

Lemma half_plus d :
  SFpos (Prim2SF d) = true -> SFplus (Prim2SF (PrimFloat.div d 2%float)) = true.
Proof.
  intros H. rewrite div_spec, two_pos. apply SFdiv_plus.
  - destruct (Prim2SF d) as [[]|[]| |[] m e]; simpl in *; congruence.
  - reflexivity.
  - apply andb_false_r.
Qed.

End Invariants.

(** The area of a well-formed size is zero or more, and not a NaN. *)
Lemma area_plus size a :
  positive_size size = true ->
  _calculate_area size = inr a ->
  SFplus (Prim2SF a) = true.
Proof.
  destruct size as [n|x|s]; unfold positive_size, _calculate_area.
  - intros Hn. apply Z.ltb_lt in Hn.
    destruct (Float.int_truediv n 2) as [e|r] eqn:E; cbn [bind]; [discriminate|].
    apply circle_plus. eapply int_truediv_plus; eassumption.
  - intros Hx. rewrite ltb_zero_spec in Hx. rewrite truediv_2. cbn [bind].
    apply circle_plus. apply half_plus. exact Hx.
  - fold (normalize s). destruct (Str.contains "x" (normalize s)).
    + destruct (Str.split "x" (normalize s)) as [|p0 [|p1 rest]];
        try discriminate.
      cbn [Seq.item nth_error bind ret].
      destruct (Float.of_str (Str.strip p0)) as [e|w]; [discriminate|].
      destruct (Float.of_str (Str.strip p1)) as [e|h]; [discriminate|].
      cbn [bind]. rewrite andb_true_iff, !ltb_zero_spec.
      intros [Hw Hh] [= <-].
      apply mul_plus;
        destruct (Prim2SF w) as [[]|[]| |[] mw ew]; try discriminate;
        destruct (Prim2SF h) as [[]|[]| |[] mh eh]; try discriminate;
        reflexivity.
    + destruct (Float.of_str (normalize s)) as [e|d]; [discriminate|].
      cbn [bind]. intros Hd. rewrite ltb_zero_spec in Hd.
      rewrite truediv_2. cbn [bind].
      apply circle_plus. apply half_plus. exact Hd.
Qed.

(** ** The value ratio *)

Lemma pos_not_zero x :
  PrimFloat.ltb PrimFloat.zero x = true -> PrimFloat.eqb x PrimFloat.zero = false.
Proof.
  rewrite ltb_zero_spec, eqb_zero_spec.
  destruct (Prim2SF x) as [[]|[]| |[] m e]; simpl; congruence.
Qed.

Lemma zero_not_pos x :
  PrimFloat.eqb x PrimFloat.zero = true -> PrimFloat.ltb PrimFloat.zero x = false.
Proof.
  intros H. destruct (PrimFloat.ltb PrimFloat.zero x) eqn:E; [|reflexivity].
  rewrite (pos_not_zero _ E) in H. discriminate.
Qed.

(** The area calculator raises nothing but [ValueError] (a number that
    cannot be read) and [OverflowError] (a square out of range). *)
Lemma calculate_area_raises size e :
  _calculate_area size = inl e -> e = ValueError \/ e = OverflowError.
Proof.
  assert (circle : forall r,
    (sq <- Float.pow2 r ;; ret (PrimFloat.mul Float.pi sq))%py = inl e ->
    e = OverflowError).
  { intros r. unfold Float.pow2. cbv zeta.
    destruct (_ && _); cbn [bind raise]; intros H;
      [injection H as <-; reflexivity | discriminate H]. }
  destruct size as [n|x|s]; unfold _calculate_area.
  - destruct (Float.int_truediv n 2) as [e'|r] eqn:E; cbn [bind].
    + intros [= <-]. right. unfold Float.int_truediv in E.
      destruct n as [|p|p]; [discriminate| |];
        destruct (Float.SF64of_ratio _ p 2);
        first [discriminate E | injection E as <-; reflexivity].
    + intros H. right. eapply circle; eassumption.
  - rewrite truediv_2. cbn [bind]. intros H. right. eapply circle; eassumption.
  - fold (normalize s). destruct (Str.contains "x" (normalize s)) eqn:Hx.
    + destruct (split_contains _ _ Hx) as (p0 & p1 & rest & ->).
      cbn [Seq.item nth_error bind ret].
      destruct (Float.of_str (Str.strip p0)) as [e0|w] eqn:E0; cbn [bind].
      { intros [= <-]. left. eapply of_str_raises; eassumption. }
      destruct (Float.of_str (Str.strip p1)) as [e1|h] eqn:E1; cbn [bind].
      { intros [= <-]. left. eapply of_str_raises; eassumption. }
      discriminate.
    + destruct (Float.of_str (normalize s)) as [e0|d] eqn:E0; cbn [bind].
      { intros [= <-]. left. eapply of_str_raises; eassumption. }
      rewrite truediv_2. cbn [bind]. intros H. right. eapply circle; eassumption.
Qed.

(** C6: the construction of a pizza never raises [ZeroDivisionError]; the
    pizza it returns has the ratio [area / price] when the price is
    positive and the ratio 0 when the price is 0; and whenever the area
    can be computed it returns: with a positive price the pizza with the
    ratio [area / price], with the price 0 the pizza with the ratio 0. *)
Theorem C6_value_ratio (nm : string) (size : size_descriptor) (pr : float) :
  __init__ nm size pr <> inl ZeroDivisionError
  /\ (forall p : Pizza,
        __init__ nm size pr = inr p ->
        _calculate_area size = inr (area p)
        /\ (PrimFloat.ltb PrimFloat.zero pr = true ->
            value_ratio p = PrimFloat.div (area p) pr)
        /\ (PrimFloat.eqb pr PrimFloat.zero = true ->
            value_ratio p = PrimFloat.zero))
  /\ (forall a : float,
        PrimFloat.ltb PrimFloat.zero pr = true ->
        _calculate_area size = inr a ->
        __init__ nm size pr = inr (mkPizza nm pr a (PrimFloat.div a pr)))
  /\ (forall a : float,
        PrimFloat.eqb pr PrimFloat.zero = true ->
        _calculate_area size = inr a ->
        __init__ nm size pr = inr (mkPizza nm pr a PrimFloat.zero)).
Proof.
  unfold __init__.
  destruct (_calculate_area size) as [e|a] eqn:Ea; cbn [bind].
  - split; [|split; [|split]; intros; discriminate].
    intros [= ->]. destruct (calculate_area_raises _ _ Ea); discriminate.
  - destruct (PrimFloat.ltb PrimFloat.zero pr) eqn:Hp.
    + unfold Float.truediv. rewrite (pos_not_zero _ Hp). cbn [bind ret].
      split; [discriminate|]. split; [|split].
      * intros p [= <-]. cbn [area value_ratio]. repeat split.
        intros Hz. discriminate Hz.
      * intros a' _ [= <-]. reflexivity.
      * intros a' Hz. discriminate Hz.
    + cbn [bind ret]. split; [discriminate|]. split; [|split].
      * intros p [= <-]. cbn [area value_ratio]. repeat split.
        discriminate.
      * intros a' Hz. discriminate Hz.
      * intros a' _ [= <-]. reflexivity.
Qed.

(** The free pizza: a price of 0 gives the ratio 0. *)
Lemma free_pizza :
  exists a,
    __init__ "Free" (SizeStr "26cm") 0%float
    = inr (mkPizza "Free" 0%float a 0%float).
Proof. eexists. vm_compute. reflexivity. Qed.

(** For every well-formed size and every finite price that is zero or
    more, the area and the ratio of the pizza are zero or more (and so
    are not NaN), and the ratio is 0 when the price is 0. *)
Lemma item_signs (nm : string) (size : size_descriptor)
    (pr : float) (p : Pizza) :
  positive_size size = true ->
  PrimFloat.leb PrimFloat.zero pr = true ->
  PrimFloat.is_infinity pr = false ->
  __init__ nm size pr = inr p ->
  PrimFloat.leb PrimFloat.zero (area p) = true
  /\ PrimFloat.leb PrimFloat.zero (value_ratio p) = true
  /\ (PrimFloat.eqb pr PrimFloat.zero = true ->
      PrimFloat.eqb (value_ratio p) PrimFloat.zero = true).
Proof.
  intros Hs Hpr Hfin. unfold __init__.
  destruct (_calculate_area size) as [e|a] eqn:Ea; cbn [bind]; [discriminate|].
  pose proof (area_plus _ _ Hs Ea) as Ha.
  destruct (PrimFloat.ltb PrimFloat.zero pr) eqn:Hp.
  - unfold Float.truediv. rewrite (pos_not_zero _ Hp). cbn [bind ret].
    intros [= <-]. cbn [area value_ratio].
    rewrite !leb_zero_spec. split; [apply SFplus_nonneg, Ha|]. split.
    + apply SFplus_nonneg, div_plus; try assumption.
      * rewrite <- ltb_zero_spec. exact Hp.
      * rewrite Hfin. apply andb_false_r.
    + intros Hz. discriminate Hz.
  - cbn [bind ret]. intros [= <-]. cbn [area value_ratio].
    rewrite !leb_zero_spec. split; [apply SFplus_nonneg, Ha|].
    split; reflexivity.
Qed.

(** C7, against the claim: a positive diameter whose square underflows has
    the area 0, and with it the ratio 0 at the price 1. *)
Lemma C7_tiny_diameter_zero_area :
  positive_size (SizeFloat 1e-200%float) = true
  /\ positive_size (SizeStr "1e-200cm") = true
  /\ __init__ "Tiny" (SizeFloat 1e-200%float) 1%float
     = inr (mkPizza "Tiny" 1%float 0%float 0%float)
  /\ __init__ "Tiny" (SizeStr "1e-200cm") 1%float
     = inr (mkPizza "Tiny" 1%float 0%float 0%float)
  /\ PrimFloat.ltb 0%float 0%float = false
  /\ PrimFloat.eqb 1%float 0%float = false.
Proof. repeat split; vm_compute; reflexivity. Qed.

(** ** Mantissas and exponents *)

Section Mantissas.

(** The number of binary digits of [m]. *)
Lemma digits2_bounds m :
  2 ^ (Zpos (digits2_pos m) - 1) <= Zpos m < 2 ^ Zpos (digits2_pos m).
Proof.
  induction m as [m IH|m IH|]; cbn [digits2_pos].
  - rewrite Pos2Z.inj_succ.
    replace (Z.succ (Z.pos (digits2_pos m)) - 1) with (Z.pos (digits2_pos m)) by lia.
    rewrite Z.pow_succ_r by lia.
    replace (Z.pos (digits2_pos m)) with (Z.succ (Z.pos (digits2_pos m) - 1)) at 1 by lia.
    rewrite Z.pow_succ_r by lia. lia.
  - rewrite Pos2Z.inj_succ.
    replace (Z.succ (Z.pos (digits2_pos m)) - 1) with (Z.pos (digits2_pos m)) by lia.
    rewrite Z.pow_succ_r by lia.
    replace (Z.pos (digits2_pos m)) with (Z.succ (Z.pos (digits2_pos m) - 1)) at 1 by lia.
    rewrite Z.pow_succ_r by lia. lia.
  - simpl. lia.
Qed.

(** A float of the format has at most 53 digits, and exactly 53 above the
    least exponent. *)
Lemma bounded_digits m e :
  bounded prec emax m e = true ->
  Zpos (digits2_pos m) <= 53
  /\ (-1074 < e -> Zpos (digits2_pos m) = 53)
  /\ -1074 <= e <= 971.
Proof.
  unfold bounded, canonical_mantissa, fexp, SpecFloat.emin, prec, emax.
  rewrite andb_true_iff, Z.eqb_eq, Z.leb_le. lia.
Qed.

Lemma shl_align_value m e ez :
  ez <= e -> Zpos (fst (shl_align m e ez)) = Zpos m * 2 ^ (e - ez).
Proof.
  intros H. unfold shl_align. destruct (ez - e) as [|d|d] eqn:E.
  - replace (e - ez) with 0 by lia. simpl. lia.
  - lia.
  - cbn [fst]. replace (e - ez) with (Zpos d) by lia.
    change (Pos.iter xO m d) with (shift_pos d m).
    rewrite shift_pos_correct, Zpower_pos_nat, Zpower_nat_Z.
    rewrite positive_nat_Z. lia.
Qed.

End Mantissas.

(** ** The difference of two floats *)

Section Differences.

Lemma SFsub_nonneg b y :
  valid_binary b = true -> valid_binary y = true ->
  SFnonneg b = true -> SFis_inf b = false ->
  SFleb y b = true ->
  SFnonneg (SF64sub b y) = true.
Proof.
  intros Vb Vy Hb Fb Hle.
  destruct b as [sb|[]| |[] mb eb]; try discriminate;
    destruct y as [sy|[]| |[] my ey]; try discriminate;
    try (destruct sb); try (destruct sy); try reflexivity.
  - (* two negative..., never: b is positive *)
    unfold SF64sub, SFsub.
    apply SFplus_nonneg, binary_normalize_plus. cbn [cond_Zopp]. lia.
  - unfold SF64sub, SFsub.
    apply SFplus_nonneg, binary_normalize_plus. cbn [cond_Zopp].
    simpl in Vb, Vy.
    destruct (bounded_digits _ _ Vb) as (Db & Nb & Rb).
    destruct (bounded_digits _ _ Vy) as (Dy & Ny & Ry).
    rewrite !shl_align_value by lia.
    pose proof (digits2_bounds mb) as Bb. pose proof (digits2_bounds my) as By.
    revert Hle. unfold SFleb, SFcompare.
    change (Pos.compare_cont Eq my mb) with (Pos.compare my mb).
    destruct (Z.compare_spec ey eb) as [E|L|G]; intros Hle.
    + subst ey. rewrite Z.min_id, Z.sub_diag, Z.pow_0_r, !Z.mul_1_r.
      destruct (Pos.compare_spec my mb); try discriminate; lia.
    + rewrite Z.min_r by lia. rewrite Z.sub_diag.
      rewrite (Nb ltac:(lia)) in Bb.
      assert (P : 2 ^ 1 <= 2 ^ (eb - ey))
        by (apply Z.pow_le_mono_r; lia).
      assert (T : Z.pos my < 2 ^ 53).
      { eapply Z.lt_le_trans; [apply By|]. apply Z.pow_le_mono_r; lia. }
      change (2 ^ (53 - 1)) with 4503599627370496 in Bb.
      change (2 ^ 53) with 9007199254740992 in T.
      change (2 ^ 1) with 2 in P. change (2 ^ 0) with 1. nia.
    + discriminate.
Qed.

Lemma sub_nonneg b y :
  PrimFloat.leb PrimFloat.zero b = true ->
  PrimFloat.is_infinity b = false ->
  PrimFloat.leb y b = true ->
  PrimFloat.leb PrimFloat.zero (PrimFloat.sub b y) = true.
Proof.
  rewrite !leb_zero_spec, is_infinity_spec, leb_spec, sub_spec.
  apply SFsub_nonneg; apply Prim2SF_valid.
Qed.

End Differences.

(** ** From a float to an integer and back *)

Section Truncation.

Lemma iter_pos_iter {T : Type} (f : T -> T) p : forall x,
  iter_pos f p x = Pos.iter f x p.
Proof.
  induction p as [p IH|p IH|]; intros x; simpl.
  - rewrite !IH, !Pos.iter_swap. reflexivity.
  - rewrite !IH. reflexivity.
  - reflexivity.
Qed.

Lemma digits2_shift k m :
  Zpos (digits2_pos (Pos.iter xO m k)) = Zpos (digits2_pos m) + Zpos k.
Proof.
  induction k as [|k IH] using Pos.peano_ind.
  - simpl. lia.
  - rewrite Pos.iter_succ. cbn [digits2_pos]. lia.
Qed.

Lemma digits2_le p q :
  Zpos p <= Zpos q -> Zpos (digits2_pos p) <= Zpos (digits2_pos q).
Proof.
  intros H. pose proof (digits2_bounds p) as [Lp _].
  pose proof (digits2_bounds q) as [_ Uq].
  destruct (Z_le_gt_dec (Zpos (digits2_pos p)) (Zpos (digits2_pos q)));
    [assumption|].
  assert (P : 2 ^ Zpos (digits2_pos q) <= 2 ^ (Zpos (digits2_pos p) - 1))
    by (apply Z.pow_le_mono_r; lia).
  lia.
Qed.

(** Shifting out [k] zero bits is exact. *)
Lemma shr_exact k m :
  iter_pos shr_1 k (Build_shr_record (Zpos (Pos.iter xO m k)) false false)
  = Build_shr_record (Zpos m) false false.
Proof.
  rewrite iter_pos_iter. induction k as [|k IH] using Pos.peano_ind.
  - reflexivity.
  - rewrite Pos.iter_succ_r, (Pos.iter_succ k _ xO). exact IH.
Qed.

(** Rounding a mantissa of 53 digits changes nothing. *)
Lemma binary_round_aux_exact s m e :
  Zpos (digits2_pos m) = 53 -> -1074 <= e <= 971 ->
  binary_round_aux prec emax s (Zpos m) e loc_Exact = S754_finite s m e.
Proof.
  intros Hd He. unfold binary_round_aux, shr_fexp.
  cbn [Zdigits2 shr_record_of_loc]. rewrite Hd.
  assert (E : fexp prec emax (53 + e) - e = 0)
    by (unfold fexp, SpecFloat.emin, prec, emax; lia).
  rewrite E. cbn [shr shr_m loc_of_shr_record round_nearest_even Zdigits2
                    shr_record_of_loc].
  rewrite Hd, E. cbn [shr shr_m].
  assert (L : (e <=? emax - prec) = true) by (apply Z.leb_le; unfold emax, prec; lia).
  rewrite L. reflexivity.
Qed.

(** An integer of at most 53 digits is a float. *)
Lemma binary_round_small s p :
  Zpos (digits2_pos p) <= 53 ->
  exists m e, binary_round prec emax s p 0 = S754_finite s m e.
Proof.
  intros Hd. unfold binary_round.
  assert (E : fexp prec emax (Zpos (digits2_pos p) + 0)
              = Zpos (digits2_pos p) - 53)
    by (unfold fexp, SpecFloat.emin, prec, emax; lia).
  rewrite E. unfold shl_align.
  destruct (Zpos (digits2_pos p) - 53 - 0) as [|k|k] eqn:Ek; try lia.
  - exists p, 0. apply binary_round_aux_exact; lia.
  - exists (Pos.iter xO p k), (Zpos (digits2_pos p) - 53).
    apply binary_round_aux_exact; [rewrite digits2_shift|]; lia.
Qed.

(** So is a mantissa of 53 digits followed by zeros. *)
Lemma binary_round_exact s m k :
  Zpos (digits2_pos m) = 53 -> Zpos k <= 971 ->
  binary_round prec emax s (Pos.iter xO m k) 0 = S754_finite s m (Zpos k).
Proof.
  intros Hd Hk. unfold binary_round. rewrite digits2_shift, Hd.
  assert (E : fexp prec emax (53 + Zpos k + 0) = Zpos k)
    by (unfold fexp, SpecFloat.emin, prec, emax; lia).
  rewrite E. unfold shl_align. cbn [Z.sub Z.opp Z.add].
  unfold binary_round_aux, shr_fexp.
  cbn [Zdigits2 shr_record_of_loc]. rewrite digits2_shift, Hd, E.
  cbn [Z.sub Z.opp Z.add shr]. rewrite shr_exact.
  cbn [shr_m loc_of_shr_record round_nearest_even Zdigits2 shr_record_of_loc].
  rewrite Hd.
  assert (E2 : fexp prec emax (53 + Zpos k) - Zpos k = 0)
    by (unfold fexp, SpecFloat.emin, prec, emax; lia).
  rewrite E2. cbn [shr shr_m].
  assert (L : (Zpos k <=? emax - prec) = true)
    by (apply Z.leb_le; unfold emax, prec; lia).
  rewrite L. reflexivity.
Qed.

(** [int(x)] is an integer that [float] takes back: the product
    [num_pizzas * best.area] never raises. *)
Lemma of_int_to_int x z :
  Float.to_int x = inr z -> exists n, Float.of_int z = inr n.
Proof.
  unfold Float.to_int. pose proof (Prim2SF_valid x) as V.
  destruct (Prim2SF x) as [s|s| |s m e]; try discriminate.
  - intros [= <-]. eexists. reflexivity.
  - simpl in V. destruct (bounded_digits _ _ V) as (Dm & Nm & Re).
    assert (small : forall s' p, Zpos (digits2_pos p) <= 53 ->
              exists n, Float.of_int (cond_Zopp s' (Zpos p)) = inr n).
    { intros s' p Hp. unfold Float.of_int.
      destruct (binary_round_small s' p Hp) as (m' & e' & E).
      destruct s'; cbn [cond_Zopp Z.opp binary_normalize]; rewrite E;
        eexists; reflexivity. }
    intros H.
    assert (Hz : z = cond_Zopp s (if 0 <=? e then Zpos m * 2 ^ e
                                  else Zpos m / 2 ^ (- e)))
      by (injection H as H'; symmetry; exact H').
    clear H. subst z.
    destruct (Z.leb_spec 0 e) as [He|He].
    + destruct e as [|k|k]; try lia.
      * rewrite Z.pow_0_r, Z.mul_1_r. apply small. exact Dm.
      * replace (Zpos m * 2 ^ Zpos k) with (Zpos (Pos.iter xO m k)).
        2:{ change (Pos.iter xO m k) with (shift_pos k m).
            rewrite shift_pos_correct, Zpower_pos_nat, Zpower_nat_Z.
            rewrite positive_nat_Z. lia. }
        unfold Float.of_int.
        assert (E : binary_normalize prec emax
                      (cond_Zopp s (Zpos (Pos.iter xO m k))) 0 false
                    = S754_finite s m (Zpos k)).
        { destruct s; cbn [cond_Zopp Z.opp binary_normalize];
            apply binary_round_exact; lia. }
        rewrite E. eexists. reflexivity.
    + assert (Hq : 0 <= Zpos m / 2 ^ (- e) <= Zpos m).
      { assert (P : 0 < 2 ^ (- e)) by (apply Z.pow_pos_nonneg; lia).
        split; [apply Z.div_pos; lia|].
        apply Z.div_le_upper_bound; [lia | nia]. }
      destruct (Zpos m / 2 ^ (- e)) as [|q|q] eqn:Eq; try lia.
      * destruct s; eexists; reflexivity.
      * apply small. apply Z.le_trans with (Zpos (digits2_pos m));
          [apply digits2_le; lia | exact Dm].
Qed.

End Truncation.

(** ** The budget recommendation *)

Section Budget.

Lemma is_finite_spec x : PrimFloat.is_finite x = SFis_finite (Prim2SF x).
Proof.
  unfold PrimFloat.is_finite. rewrite is_infinity_spec.
  destruct (PrimFloat.is_nan x) eqn:E.
  - apply is_nan_spec in E. rewrite E. reflexivity.
  - apply not_nan_spec in E.
    destruct (Prim2SF x) as [s|s| |s m e]; try reflexivity. congruence.
Qed.

(** The quotient of a budget that is zero or more by a positive price is
    zero or more, when it is a number. *)
Lemma SFdiv_nonneg b p :
  SFnonneg b = true -> SFpos p = true ->
  SFis_finite (SF64div b p) = true ->
  SFnonneg (SF64div b p) = true /\ SFis_inf b = false.
Proof.
  destruct b as [sb|[]| |[] mb eb]; try discriminate;
    destruct p as [sp|[]| |[] mp ep]; try discriminate;
    intros _ _ H; try discriminate; try (split; reflexivity).
  split; [|reflexivity]. apply SFplus_nonneg.
  unfold SF64div, SFdiv.
  pose proof (SFdiv_core_nonneg mb eb mp ep) as Hq.
  destruct (SFdiv_core_binary prec emax (Z.pos mb) eb (Z.pos mp) ep) as [[q e] l].
  simpl in Hq. apply binary_round_aux_plus. exact Hq.
Qed.

(** [int] of a finite float that is zero or more is the floor of its
    exact value. *)
Lemma to_int_floor x :
  SFnonneg (Prim2SF x) = true -> PrimFloat.is_finite x = true ->
  exists z q,
    Float.to_int x = inr z /\ Float.to_Q x = Some q
    /\ z = Qfloor q /\ 0 <= z.
Proof.
  rewrite is_finite_spec. unfold Float.to_int, Float.to_Q.
  destruct (Prim2SF x) as [s|[]| |[] m e]; try discriminate; intros _ _.
  - exists 0, 0%Q. repeat split; reflexivity || lia.
  - destruct (Z.leb_spec 0 e) as [He|He]; cbn [cond_Zopp].
    + exists (Zpos m * 2 ^ e), (inject_Z (Zpos m * 2 ^ e)).
      repeat split; [symmetry; apply Qfloor_Z|].
      assert (0 < 2 ^ e) by (apply Z.pow_pos_nonneg; lia). nia.
    + assert (P : 0 < 2 ^ (- e)) by (apply Z.pow_pos_nonneg; lia).
      exists (Zpos m / 2 ^ (- e)), (Qmake (Zpos m) (Z.to_pos (2 ^ (- e)))).
      repeat split.
      * unfold Qfloor. rewrite Z2Pos.id by exact P. reflexivity.
      * apply Z.div_pos; lia.
Qed.

(** The float of an integer that is zero or more is zero or more. *)
Lemma of_int_plus z n :
  0 <= z -> Float.of_int z = inr n -> SFplus (Prim2SF n) = true.
Proof.
  intros Hz. unfold Float.of_int.
  pose proof (binary_normalize_plus z 0 Hz) as H. intros Hr.
  assert (Er : n = SF2Prim (binary_normalize prec emax z 0 false)).
  { destruct (binary_normalize prec emax z 0 false) as [s|s| |s m e];
      try discriminate; injection Hr as Hr; symmetry; exact Hr. }
  rewrite Er. apply SF2Prim_plus. exact H.
Qed.

End Budget.

(** ** A quotient below one *)

Section BelowOne.

Lemma shr_1_div mrs : 0 <= shr_m mrs -> shr_m (shr_1 mrs) = shr_m mrs / 2.
Proof.
  destruct mrs as [m r s]. cbn [shr_m]. intros H.
  destruct m as [|[p|p|]|p]; try lia; cbn [shr_1 shr_m].
  - reflexivity.
  - rewrite Pos2Z.inj_xI. apply Z.div_unique with 1; lia.
  - rewrite Pos2Z.inj_xO. apply Z.div_unique with 0; lia.
  - reflexivity.
Qed.

Lemma shr_m_iter p : forall mrs,
  0 <= shr_m mrs ->
  shr_m (iter_pos shr_1 p mrs) = shr_m mrs / 2 ^ Zpos p.
Proof.
  intros mrs H. rewrite iter_pos_iter.
  induction p as [|p IH] using Pos.peano_ind.
  - cbn [Pos.iter]. rewrite shr_1_div by exact H. reflexivity.
  - rewrite Pos.iter_succ, shr_1_div.
    + rewrite IH, Pos2Z.inj_succ, Z.pow_succ_r by lia.
      rewrite Z.div_div by (try apply Z.pow_pos_nonneg; lia).
      f_equal. lia.
    + rewrite IH. apply Z.div_pos; [exact H | apply Z.pow_pos_nonneg; lia].
Qed.

(** What [shr] does to the mantissa and to the exponent. *)
Lemma shr_value mrs e n :
  0 <= shr_m mrs ->
  snd (shr mrs e n) = e + Z.max n 0
  /\ shr_m (fst (shr mrs e n)) = shr_m mrs / 2 ^ Z.max n 0.
Proof.
  intros H. unfold shr. destruct n as [|p|p]; cbn [fst snd].
  - rewrite Z.max_r by lia. rewrite Z.pow_0_r, Z.div_1_r. lia.
  - rewrite Z.max_l by lia. split; [reflexivity | apply shr_m_iter, H].
  - rewrite Z.max_r by lia. rewrite Z.pow_0_r, Z.div_1_r. lia.
Qed.

(** Shifting out bits that are all zero leaves no remainder. *)
Lemma shr_iter_exact p : forall m,
  0 <= m -> m mod 2 ^ Zpos p = 0 ->
  iter_pos shr_1 p (Build_shr_record m false false)
  = Build_shr_record (m / 2 ^ Zpos p) false false.
Proof.
  intros m. rewrite iter_pos_iter. revert m.
  induction p as [|p IH] using Pos.peano_ind; intros m Hm Hd.
  - cbn [Pos.iter]. change (2 ^ 1) with 2 in *.
    destruct m as [|[q|q|]|q]; try lia; cbn [shr_1 orb].
    + reflexivity.
    + exfalso. rewrite Pos2Z.inj_xI in Hd. Z.div_mod_to_equations. lia.
    + f_equal. rewrite Pos2Z.inj_xO. apply Z.div_unique with 0; lia.
    + exfalso. cbn in Hd. lia.
  - rewrite Pos.iter_succ_r.
    rewrite Pos2Z.inj_succ, Z.pow_succ_r in * by lia.
    assert (P : 0 < 2 ^ Zpos p) by (apply Z.pow_pos_nonneg; lia).
    assert (E2 : m mod 2 = 0).
    { apply Z.mod_divide; [lia|]. apply Z.mod_divide in Hd; [|lia].
      destruct Hd as [c Hc]. exists (c * 2 ^ Zpos p). lia. }
    assert (S1 : shr_1 (Build_shr_record m false false)
                 = Build_shr_record (m / 2) false false).
    { destruct m as [|[q|q|]|q]; try lia; cbn [shr_1 orb].
      - reflexivity.
      - exfalso. rewrite Pos2Z.inj_xI in E2. Z.div_mod_to_equations. lia.
      - f_equal. rewrite Pos2Z.inj_xO. apply Z.div_unique with 0; lia.
      - exfalso. cbn in E2. lia. }
    rewrite S1, IH.
    + f_equal. rewrite Z.div_div by lia. reflexivity.
    + apply Z.div_pos; lia.
    + apply Z.mod_divide in Hd; [|lia]. destruct Hd as [c Hc].
      apply Z.mod_divide; [lia|]. exists c.
      rewrite Hc. replace (c * (2 * 2 ^ Zpos p)) with (c * 2 ^ Zpos p * 2) by lia.
      apply Z.div_mul. lia.
Qed.

Lemma round_nearest_even_bounds m l :
  m <= round_nearest_even m l <= m + inexact l.
Proof.
  destruct l as [|[]]; cbn [round_nearest_even inexact];
    try destruct (Z.even m); lia.
Qed.

Lemma Zdigits2_le m k : 0 <= k -> 0 <= m < 2 ^ k -> Zdigits2 m <= k.
Proof.
  intros Hk [H0 H1]. destruct m as [|p|p]; cbn [Zdigits2]; try lia.
  pose proof (digits2_bounds p) as [L _].
  destruct (Z_le_gt_dec (Zpos (digits2_pos p)) k); [assumption|].
  assert (2 ^ k <= 2 ^ (Zpos (digits2_pos p) - 1))
    by (apply Z.pow_le_mono_r; lia).
  lia.
Qed.

Lemma shr_m_of_loc m l : shr_m (shr_record_of_loc m l) = m.
Proof. destruct l as [|[]]; reflexivity. Qed.

Lemma fexp_small d : d <= 0 -> fexp prec emax d <= -53.
Proof. unfold fexp, SpecFloat.emin, prec, emax. lia. Qed.

(** Rounding a number that is at most [1 - 2^-53] gives less than one. *)
Lemma binary_round_aux_lt_one M E l :
  0 <= M -> E <= -53 ->
  M + inexact l <= 2 ^ (- E) - 2 ^ (-53 - E) ->
  match binary_round_aux prec emax false M E l with
  | S754_zero _ => True
  | S754_finite _ m e => e < 0 /\ Zpos m < 2 ^ (- e)
  | _ => False
  end.
Proof.
  intros HM HE Hb.
  assert (Hi : 0 <= inexact l) by (destruct l; simpl; lia).
  assert (P0 : 0 < 2 ^ (-53 - E)) by (apply Z.pow_pos_nonneg; lia).
  assert (HD : Zdigits2 M + E <= 0).
  { assert (Zdigits2 M <= - E) by (apply Zdigits2_le; lia). lia. }
  unfold binary_round_aux, shr_fexp.
  set (n1 := fexp prec emax (Zdigits2 M + E) - E).
  pose proof (fexp_small _ HD) as Hf1.
  pose proof (shr_value (shr_record_of_loc M l) E n1) as S1.
  rewrite shr_m_of_loc in S1. specialize (S1 HM).
  pose proof (shr_nonneg (shr_record_of_loc M l) E n1) as N1.
  rewrite shr_m_of_loc in N1. specialize (N1 HM).
  destruct (shr (shr_record_of_loc M l) E n1) as [mrs1 e1] eqn:Es1.
  cbn [fst snd] in S1, N1. destruct S1 as [Se1 Sm1].
  set (k := Z.max n1 0) in *.
  assert (Hk : 0 <= k) by (unfold k; lia).
  assert (He1 : e1 <= -53) by (unfold k, n1 in *; lia).
  (* the powers in play *)
  assert (PK : 0 < 2 ^ k) by (apply Z.pow_pos_nonneg; lia).
  assert (PB : 0 < 2 ^ (-53 - e1)) by (apply Z.pow_pos_nonneg; lia).
  assert (EA : 2 ^ (- E) = 2 ^ k * 2 ^ (- e1))
    by (rewrite <- Z.pow_add_r by lia; f_equal; lia).
  assert (EB : 2 ^ (-53 - E) = 2 ^ k * 2 ^ (-53 - e1))
    by (rewrite <- Z.pow_add_r by lia; f_equal; lia).
  assert (EC : 2 ^ (- e1) = 2 ^ 53 * 2 ^ (-53 - e1))
    by (rewrite <- Z.pow_add_r by lia; f_equal; lia).
  assert (Hm1 : shr_m mrs1 <= 2 ^ (- e1) - 2 ^ (-53 - e1)).
  { rewrite Sm1. apply Z.div_le_upper_bound; [exact PK|]. nia. }
  (* the rounded mantissa stays below 2 ^ (- e1) *)
  set (mr := round_nearest_even (shr_m mrs1) (loc_of_shr_record mrs1)).
  assert (Hmr : 0 <= mr < 2 ^ (- e1)).
  { pose proof (round_nearest_even_bounds (shr_m mrs1) (loc_of_shr_record mrs1))
      as [Lr Ur]. fold mr in Lr, Ur.
    assert (Hi1 : inexact (loc_of_shr_record mrs1) <= 1)
      by (destruct (loc_of_shr_record mrs1); simpl; lia).
    split; [lia|].
    destruct (Z_lt_le_dec (shr_m mrs1 + 1) (2 ^ (- e1))) as [Hlt|Hge]; [lia|].
    (* the mantissa is all ones: then nothing was lost *)
    assert (B1 : 2 ^ (-53 - e1) = 1) by lia.
    assert (Hm : shr_m mrs1 = 2 ^ (- e1) - 1) by lia.
    assert (HMk : 2 ^ k * shr_m mrs1 <= M).
    { rewrite Sm1. apply Z.mul_div_le. exact PK. }
    assert (HMe : M = 2 ^ k * (2 ^ (- e1) - 1)) by nia.
    assert (Hl : l = loc_Exact) by (destruct l; [reflexivity | simpl in *; nia]).
    assert (Hex : loc_of_shr_record mrs1 = loc_Exact).
    { subst l. cbn [shr_record_of_loc] in Es1. unfold shr in Es1.
      destruct n1 as [|p|p] eqn:En1.
      - injection Es1 as <- _. reflexivity.
      - rewrite shr_iter_exact in Es1.
        + injection Es1 as <- _. reflexivity.
        + exact HM.
        + unfold k in HMe. rewrite Z.max_l in HMe by lia.
          rewrite HMe, Z.mul_comm. apply Z.mod_mul. lia.
      - injection Es1 as <- _. reflexivity. }
    unfold mr. rewrite Hex. cbn [round_nearest_even]. lia. }
  clearbody mr.
  (* the second normalisation *)
  assert (HD2 : Zdigits2 mr + e1 <= 0).
  { assert (Zdigits2 mr <= - e1) by (apply Zdigits2_le; lia). lia. }
  set (n2 := fexp prec emax (Zdigits2 mr + e1) - e1).
  pose proof (fexp_small _ HD2) as Hf2.
  pose proof (shr_value (shr_record_of_loc mr loc_Exact) e1 n2) as S2.
  pose proof (shr_nonneg (shr_record_of_loc mr loc_Exact) e1 n2) as N2.
  cbn [shr_record_of_loc shr_m] in S2, N2.
  specialize (S2 (proj1 Hmr)). specialize (N2 (proj1 Hmr)).
  cbn [shr_record_of_loc].
  destruct (shr (Build_shr_record mr false false) e1 n2) as [mrs2 e2].
  cbn [fst snd] in S2, N2. destruct S2 as [Se2 Sm2].
  set (j := Z.max n2 0) in *.
  assert (Hj : 0 <= j) by (unfold j; lia).
  assert (He2 : e2 <= -53) by (unfold j, n2 in *; lia).
  assert (PJ : 0 < 2 ^ j) by (apply Z.pow_pos_nonneg; lia).
  assert (EJ : 2 ^ (- e1) = 2 ^ j * 2 ^ (- e2))
    by (rewrite <- Z.pow_add_r by lia; f_equal; lia).
  assert (Hm2 : shr_m mrs2 < 2 ^ (- e2)).
  { rewrite Sm2. apply Z.div_lt_upper_bound; [exact PJ|]. lia. }
  destruct (shr_m mrs2) as [|p|p]; [exact I| |lia].
  assert (L : (e2 <=? emax - prec) = true)
    by (apply Z.leb_le; unfold emax, prec; lia).
  rewrite L. split; [lia | exact Hm2].
Qed.

Lemma new_location_inexact nb r :
  inexact (new_location nb r) = if r =? 0 then 0 else 1.
Proof.
  unfold new_location, new_location_even, new_location_odd.
  destruct (Z.even nb); destruct (r =? 0); reflexivity.
Qed.

(** The quotient of a positive float by a greater one is less than one. *)
Lemma SFdiv_lt_one mb eb mp ep :
  bounded prec emax mb eb = true -> bounded prec emax mp ep = true ->
  SFltb (S754_finite false mb eb) (S754_finite false mp ep) = true ->
  match SF64div (S754_finite false mb eb) (S754_finite false mp ep) with
  | S754_zero _ => True
  | S754_finite _ m e => e < 0 /\ Zpos m < 2 ^ (- e)
  | _ => False
  end.
Proof.
  intros Vb Vp Hlt.
  destruct (bounded_digits _ _ Vb) as (Db & Nb & Rb).
  destruct (bounded_digits _ _ Vp) as (Dp & Np & Rp).
  pose proof (digits2_bounds mb) as Bb. pose proof (digits2_bounds mp) as Bp.
  (* the order of the two floats, on exponents and mantissas *)
  assert (Hord : eb < ep \/ (eb = ep /\ Zpos mb < Zpos mp)).
  { revert Hlt. unfold SFltb, SFcompare.
    change (Pos.compare_cont Eq mb mp) with (Pos.compare mb mp).
    destruct (Z.compare_spec eb ep); [destruct (Pos.compare_spec mb mp)|..];
      intros; try discriminate; lia. }
  assert (Hmb : Zpos mb < 2 ^ 53).
  { eapply Z.lt_le_trans; [apply Bb|]. apply Z.pow_le_mono_r; lia. }
  assert (Hmp : Zpos mp < 2 ^ 53).
  { eapply Z.lt_le_trans; [apply Bp|]. apply Z.pow_le_mono_r; lia. }
  unfold SF64div, SFdiv, SFdiv_core_binary. cbn [Zdigits2 xorb].
  set (delta := Zpos (digits2_pos mb) + eb - (Zpos (digits2_pos mp) + ep)).
  assert (Hdelta : delta <= 0).
  { unfold delta. destruct Hord as [Hlt'|[-> Hm]].
    - rewrite (Np ltac:(lia)). lia.
    - assert (Zpos (digits2_pos mb) <= Zpos (digits2_pos mp))
        by (apply digits2_le; lia). lia. }
  pose proof (fexp_small _ Hdelta) as Hf.
  set (E := Z.min (fexp prec emax delta) (eb - ep)) in *.
  assert (HE : E <= -53) by (unfold E; lia).
  set (s := eb - ep - E).
  assert (Hs : 0 <= s) by (unfold s, E; lia).
  set (m' := match s with
             | 0 => Z.pos mb
             | Z.pos _ => Z.shiftl (Z.pos mb) s
             | Z.neg _ => 0
             end).
  assert (Em' : m' = Zpos mb * 2 ^ s).
  { unfold m'. destruct s as [|k|k] eqn:Es; try lia.
    - rewrite Z.shiftl_mul_pow2 by lia. reflexivity. }
  clearbody m'.
  pose proof (Z_div_mod m' (Zpos mp) ltac:(lia)) as Hdm.
  destruct (Z.div_eucl m' (Z.pos mp)) as [q r]. destruct Hdm as [Eqr Hr].
  (* the quotient is at most 1 - 2^-53 *)
  set (t := -53 - E). set (g := ep - eb).
  assert (Ht : 0 <= t) by (unfold t; lia).
  assert (Hg : 0 <= g) by (unfold g; lia).
  assert (Pt : 0 < 2 ^ t) by (apply Z.pow_pos_nonneg; lia).
  assert (Pg : 0 < 2 ^ g) by (apply Z.pow_pos_nonneg; lia).
  assert (E1 : 2 ^ s * 2 ^ g = 2 ^ 53 * 2 ^ t)
    by (rewrite <- !Z.pow_add_r by lia; f_equal; unfold s, g, t; lia).
  assert (E2 : 2 ^ (- E) = 2 ^ 53 * 2 ^ t)
    by (rewrite <- Z.pow_add_r by lia; f_equal; unfold t; lia).
  fold t in E2.
  assert (Key : Zpos mb * 2 ^ 53 <= (2 ^ 53 - 1) * Zpos mp * 2 ^ g).
  { destruct Hord as [Hlt'|[Ee Hm]].
    - rewrite (Np ltac:(lia)) in Bp.
      assert (2 ^ 1 <= 2 ^ g) by (apply Z.pow_le_mono_r; unfold g; lia).
      change (2 ^ (53 - 1)) with 4503599627370496 in Bp.
      change (2 ^ 53) with 9007199254740992 in *.
      change (2 ^ 1) with 2 in *. nia.
    - replace g with 0 by (unfold g; lia).
      change (2 ^ 53) with 9007199254740992 in *. rewrite Z.pow_0_r. nia. }
  assert (Hq0 : 0 <= q).
  { assert (0 <= m') by (rewrite Em'; apply Z.mul_nonneg_nonneg;
                          [lia | apply Z.pow_nonneg; lia]).
    nia. }
  apply binary_round_aux_lt_one; [exact Hq0 | exact HE|].
  rewrite new_location_inexact. fold t. rewrite E2.
  assert (Hm'R : m' * 2 ^ g <= (2 ^ 53 - 1) * 2 ^ t * Zpos mp * 2 ^ g).
  { rewrite Em'.
    replace (Z.pos mb * 2 ^ s * 2 ^ g) with (Z.pos mb * (2 ^ s * 2 ^ g)) by ring.
    rewrite E1. nia. }
  assert (Hm'R' : m' <= (2 ^ 53 - 1) * 2 ^ t * Zpos mp) by nia.
  destruct (Z.eqb_spec r 0) as [->|Hr0]; nia.
Qed.

(** [int(b / p)] is 0 when the budget [b] is zero or more and less than
    the price [p]. *)
Lemma to_int_div_lt b p :
  PrimFloat.leb PrimFloat.zero b = true ->
  PrimFloat.ltb b p = true ->
  Float.to_int (PrimFloat.div b p) = inr 0.
Proof.
  rewrite leb_zero_spec, ltb_spec. unfold Float.to_int. rewrite div_spec.
  pose proof (Prim2SF_valid b) as Vb. pose proof (Prim2SF_valid p) as Vp.
  destruct (Prim2SF b) as [sb|[]| |[] mb eb]; try discriminate;
    destruct (Prim2SF p) as [sp|[]| |[] mp ep]; try discriminate;
    intros _ Hlt; try reflexivity; try discriminate.
  pose proof (SFdiv_lt_one mb eb mp ep Vb Vp Hlt) as H.
  destruct (SF64div _ _) as [s|s| |s m e]; try contradiction; [reflexivity|].
  destruct H as [He Hm].
  destruct (Z.leb_spec 0 e); [lia|].
  rewrite Z.div_small by lia. destruct s; reflexivity.
Qed.

End BelowOne.

(** C3, as the code has it: for a budget that is zero or more and a
    positive price whose quotient is finite, the recommendation returns;
    the count is the floor of the binary64 quotient [budget / price], it
    is zero or more, and it is 0 when the price exceeds the budget; the
    total area and the leftover are [count * area] and
    [budget - count * price] computed in binary64, with the count
    converted to a float [n]; and the leftover is zero or more whenever
    the rounded product [n * price] does not exceed the budget. *)
Theorem C3_budget_recommendation (budget : float) (best : Pizza) :
  PrimFloat.leb PrimFloat.zero budget = true ->
  PrimFloat.ltb PrimFloat.zero (price best) = true ->
  PrimFloat.is_finite (PrimFloat.div budget (price best)) = true ->
  exists (count : Z) (n : float) (q : Q),
    budget_recommendation budget best
    = inr (count,
           PrimFloat.mul n (area best),
           PrimFloat.sub budget (PrimFloat.mul n (price best)))
    /\ Float.to_Q (PrimFloat.div budget (price best)) = Some q
    /\ count = Qfloor q
    /\ 0 <= count
    /\ Float.of_int count = inr n
    /\ PrimFloat.leb PrimFloat.zero n = true
    /\ (PrimFloat.ltb budget (price best) = true -> count = 0)
    /\ (PrimFloat.leb (PrimFloat.mul n (price best)) budget = true ->
        PrimFloat.leb PrimFloat.zero
          (PrimFloat.sub budget (PrimFloat.mul n (price best))) = true).
Proof.
  intros Hb Hp Hfin.
  assert (Hq : SFnonneg (Prim2SF (PrimFloat.div budget (price best))) = true
               /\ PrimFloat.is_infinity budget = false).
  { rewrite is_infinity_spec, div_spec. apply SFdiv_nonneg.
    - rewrite <- leb_zero_spec. exact Hb.
    - rewrite <- ltb_zero_spec. exact Hp.
    - rewrite <- div_spec, <- is_finite_spec. exact Hfin. }
  destruct Hq as [Hq Hbf].
  destruct (to_int_floor _ Hq Hfin) as (count & q & Ec & Eq & Ef & Hc).
  destruct (of_int_to_int _ _ Ec) as (n & En).
  exists count, n, q.
  split.
  { unfold budget_recommendation, Float.truediv.
    rewrite (pos_not_zero _ Hp). cbn [bind ret]. rewrite Ec. cbn [bind].
    rewrite En. reflexivity. }
  repeat split; try assumption.
  - rewrite leb_zero_spec. apply SFplus_nonneg. eapply of_int_plus; eassumption.
  - intros Hlt. rewrite (to_int_div_lt _ _ Hb Hlt) in Ec.
    injection Ec as <-. reflexivity.
  - intros Hle. apply sub_nonneg; assumption.
Qed.

(** An instance of C3: the budget 20.00 and the price 5.50 of [main]. *)
Lemma C3_budget_recommendation_witness :
  exists (count : Z) (n : float) (q : Q),
    budget_recommendation 20.00%float (mkPizza "Large Pizza" 5.50%float 1%float 1%float)
    = inr (count,
           PrimFloat.mul n 1%float,
           PrimFloat.sub 20.00%float (PrimFloat.mul n 5.50%float))
    /\ Float.to_Q (PrimFloat.div 20.00%float 5.50%float) = Some q
    /\ count = Qfloor q
    /\ 0 <= count
    /\ Float.of_int count = inr n
    /\ PrimFloat.leb PrimFloat.zero n = true
    /\ (PrimFloat.ltb 20.00%float 5.50%float = true -> count = 0)
    /\ (PrimFloat.leb (PrimFloat.mul n 5.50%float) 20.00%float = true ->
        PrimFloat.leb PrimFloat.zero
          (PrimFloat.sub 20.00%float (PrimFloat.mul n 5.50%float)) = true).
Proof.
  apply (C3_budget_recommendation 20.00%float
           (mkPizza "Large Pizza" 5.50%float 1%float 1%float));
    vm_compute; reflexivity.
Defined.

(** A quotient out of range: [int] raises [OverflowError]. *)
Lemma budget_quotient_overflow :
  budget_recommendation 1e308%float (mkPizza "Crumb" 1e-308%float 1%float 1%float)
  = inl OverflowError.
Proof. vm_compute. reflexivity. Qed.

(** C3, against the claim: with the budget 0.63 and the price 0.07 the
    quotient rounds up to 9.000000000000002, nine pizzas cost
    0.6300000000000001 in binary64, and the leftover is negative. *)
Lemma C3_negative_leftover :
  exists total leftover,
    PrimFloat.leb 0%float 0.63%float = true
    /\ PrimFloat.ltb 0%float 0.07%float = true
    /\ budget_recommendation 0.63%float (mkPizza "Slice" 0.07%float 1%float 1%float)
       = inr (9, total, leftover)
    /\ PrimFloat.ltb leftover 0%float = true.
Proof.
  do 2 eexists. split; [reflexivity|]. split; [reflexivity|].
  split; vm_compute; reflexivity.
Qed.

(** * Further properties of the script *)

(** ** Sizes written as text *)

Section SizeTexts.

Local Open Scope string_scope.

(** The area of a text whose normal form splits into the pieces [p0], [p1]
    and more. *)
Lemma rect_pieces s p0 p1 rest w h :
  Str.contains "x" (normalize s) = true ->
  Str.split "x" (normalize s) = p0 :: p1 :: rest ->
  Float.of_str (Str.strip p0) = inr w ->
  Float.of_str (Str.strip p1) = inr h ->
  _calculate_area (SizeStr s) = inr (PrimFloat.mul w h).
Proof.
  intros Hc Hs Hw Hh. unfold _calculate_area. fold (normalize s).
  rewrite Hc, Hs. cbn [Seq.item nth_error bind ret]. rewrite Hw. cbn [bind].
  rewrite Hh. reflexivity.
Qed.

Lemma strip_literal a L b :
  all_chars Str.is_space a = true -> all_chars Str.is_space b = true ->
  all_chars plain L = true ->
  Str.strip (a ++ L ++ b) = L.
Proof.
  intros Ha Hb Hp. apply strip_plain; try assumption.
  eapply all_chars_impl; [|exact Hp]. apply plain_not_space.
Qed.

Lemma rstrip_cons sp c r :
  sp c = false -> exists r', Str.rstrip_by sp (String c r) = String c r'.
Proof.
  intros Hc. cbn [Str.rstrip_by]. rewrite Hc.
  destruct (Str.rstrip_by sp r); eexists; reflexivity.
Qed.

Lemma not_c_parts a1 Lw b1 a2 Lh b2 :
  all_chars Str.is_space a1 = true -> all_chars Str.is_space b1 = true ->
  all_chars Str.is_space a2 = true -> all_chars Str.is_space b2 = true ->
  all_chars plain Lw = true -> all_chars plain Lh = true ->
  all_chars not_c ((a1 ++ Lw ++ b1) ++ "x" ++ (a2 ++ Lh ++ b2)) = true.
Proof.
  intros Ha1 Hb1 Ha2 Hb2 Pw Ph.
  rewrite !all_chars_app. cbn [all_chars].
  rewrite (all_chars_impl _ _ _ space_not_c Ha1).
  rewrite (all_chars_impl _ _ _ plain_not_c Pw).
  rewrite (all_chars_impl _ _ _ space_not_c Hb1).
  rewrite (all_chars_impl _ _ _ space_not_c Ha2).
  rewrite (all_chars_impl _ _ _ plain_not_c Ph).
  rewrite (all_chars_impl _ _ _ space_not_c Hb2). reflexivity.
Qed.

(** Two numbers around a separator in either letter case, then an optional
    unit in any letter case and white space. *)
Lemma normalize_rect_unit a1 lw b1 sep a2 lh b2 u w3 :
  all_chars Str.is_space a1 = true -> all_chars Str.is_space b1 = true ->
  all_chars Str.is_space a2 = true -> all_chars Str.is_space b2 = true ->
  all_chars Str.is_space w3 = true ->
  Str.lower sep = "x" -> Str.lower u = "cm" \/ u = "" ->
  Str.lower lw <> "" -> all_chars plain (Str.lower lw) = true ->
  Str.lower lh <> "" -> all_chars plain (Str.lower lh) = true ->
  normalize ((a1 ++ lw ++ b1) ++ sep ++ (a2 ++ lh ++ b2) ++ u ++ w3)
  = ((Str.lower lw ++ b1) ++ String "x" (a2 ++ Str.lower lh)).
Proof.
  intros Ha1 Hb1 Ha2 Hb2 H3 Hsep Hu Nw Pw Nh Ph. unfold normalize.
  rewrite !lower_app, Hsep.
  rewrite (lower_spaces a1), (lower_spaces b1) by assumption.
  rewrite (lower_spaces a2), (lower_spaces b2), (lower_spaces w3) by assumption.
  set (Lw := Str.lower lw) in *. set (Lh := Str.lower lh) in *.
  assert (E : Str.replace "cm" ""
                ((a1 ++ Lw ++ b1) ++ "x" ++ (a2 ++ Lh ++ b2) ++ Str.lower u ++ w3)
              = ((a1 ++ Lw ++ b1) ++ "x" ++ (a2 ++ Lh ++ b2)) ++ w3).
  { replace ((a1 ++ Lw ++ b1) ++ "x" ++ (a2 ++ Lh ++ b2) ++ Str.lower u ++ w3)
      with (((a1 ++ Lw ++ b1) ++ "x" ++ (a2 ++ Lh ++ b2)) ++ Str.lower u ++ w3)
      by (rewrite !append_assoc'; reflexivity).
    rewrite replace_cm_app by (apply not_c_parts; assumption).
    f_equal. destruct Hu as [-> | ->].
    - change ("cm" ++ w3) with (String "c" (String "m" w3)).
      rewrite replace_cm_cm. apply replace_cm_none.
      eapply all_chars_impl; [|exact H3]. apply space_not_c.
    - cbn [Str.lower append]. apply replace_cm_none.
      eapply all_chars_impl; [|exact H3]. apply space_not_c. }
  rewrite E.
  destruct Lw as [|c Lw']; [congruence|].
  simpl in Pw. apply andb_true_iff in Pw as [Pc Pw].
  replace (((a1 ++ String c Lw' ++ b1) ++ "x" ++ a2 ++ Lh ++ b2) ++ w3)
    with (a1 ++ (String c (Lw' ++ b1 ++ "x" ++ a2) ++ Lh) ++ (b2 ++ w3))
    by (simpl; rewrite !append_assoc'; simpl; rewrite !append_assoc'; reflexivity).
  unfold Str.strip. rewrite strip_between; try assumption.
  - simpl. rewrite !append_assoc'. reflexivity.
  - rewrite all_chars_app, Hb2, H3. reflexivity.
  - apply negb_true_iff. apply plain_not_space. exact Pc.
  - eapply all_chars_impl; [|exact Ph]. apply plain_not_space.
Qed.

(** Two numbers around a separator, a second separator and any text. *)
Lemma normalize_rect_more a1 lw b1 sep a2 lh b2 sep' more :
  all_chars Str.is_space a1 = true -> all_chars Str.is_space b1 = true ->
  all_chars Str.is_space a2 = true -> all_chars Str.is_space b2 = true ->
  Str.lower sep = "x" -> Str.lower sep' = "x" ->
  Str.lower lw <> "" -> all_chars plain (Str.lower lw) = true ->
  Str.lower lh <> "" -> all_chars plain (Str.lower lh) = true ->
  exists r,
    normalize ((a1 ++ lw ++ b1) ++ sep ++ (a2 ++ lh ++ b2) ++ sep' ++ more)
    = ((Str.lower lw ++ b1) ++ String "x" ((a2 ++ Str.lower lh ++ b2) ++ String "x" r)).
Proof.
  intros Ha1 Hb1 Ha2 Hb2 Hsep Hsep' Nw Pw Nh Ph. unfold normalize.
  rewrite !lower_app, Hsep, Hsep'.
  rewrite (lower_spaces a1), (lower_spaces b1) by assumption.
  rewrite (lower_spaces a2), (lower_spaces b2) by assumption.
  set (Lw := Str.lower lw) in *. set (Lh := Str.lower lh) in *.
  set (R := Str.replace "cm" "" (Str.lower more)).
  assert (E : Str.replace "cm" ""
                ((a1 ++ Lw ++ b1) ++ "x" ++ (a2 ++ Lh ++ b2) ++ "x" ++ Str.lower more)
              = ((a1 ++ Lw ++ b1) ++ "x" ++ (a2 ++ Lh ++ b2)) ++ String "x" R).
  { replace ((a1 ++ Lw ++ b1) ++ "x" ++ (a2 ++ Lh ++ b2) ++ "x" ++ Str.lower more)
      with (((a1 ++ Lw ++ b1) ++ "x" ++ (a2 ++ Lh ++ b2)) ++ String "x" (Str.lower more))
      by (rewrite !append_assoc'; reflexivity).
    rewrite replace_cm_app by (apply not_c_parts; assumption).
    rewrite replace_cm_cons by discriminate. reflexivity. }
  rewrite E.
  destruct (rstrip_cons Str.is_space "x" R eq_refl) as (r & Er).
  exists r. unfold Str.strip, Str.strip_by.
  destruct Lw as [|c Lw']; [congruence|].
  simpl in Pw. apply andb_true_iff in Pw as [Pc Pw].
  apply plain_not_space, negb_true_iff in Pc.
  replace (((a1 ++ String c Lw' ++ b1) ++ "x" ++ a2 ++ Lh ++ b2) ++ String "x" R)
    with (a1 ++ String c ((Lw' ++ b1 ++ "x" ++ a2 ++ Lh ++ b2) ++ String "x" R))
    by (simpl; rewrite !append_assoc'; simpl; rewrite !append_assoc'; reflexivity).
  rewrite lstrip_app by exact Ha1. cbn [Str.lstrip_by]. rewrite Pc.
  change (String c ((Lw' ++ b1 ++ "x" ++ a2 ++ Lh ++ b2) ++ String "x" R))
    with ((String c (Lw' ++ b1 ++ "x" ++ a2 ++ Lh ++ b2)) ++ String "x" R).
  rewrite rstrip_keep by (rewrite Er; discriminate).
  rewrite Er. simpl. rewrite !append_assoc'. simpl. rewrite !append_assoc'.
  reflexivity.
Qed.

(** The area of a rectangle written in any of these ways. *)
Lemma rect_area_unit sw sh sep u w3 w h :
  Float.of_str sw = inr w -> Float.of_str sh = inr h ->
  Str.lower sep = "x" -> Str.lower u = "cm" \/ u = "" ->
  all_chars Str.is_space w3 = true ->
  _calculate_area (SizeStr (sw ++ sep ++ sh ++ u ++ w3)) = inr (PrimFloat.mul w h).
Proof.
  intros Hw Hh Hsep Hu H3.
  destruct (of_str_split _ _ Hw) as (a1 & lw & b1 & -> & Ha1 & Hb1 & Nw & Pw & Lw).
  destruct (of_str_split _ _ Hh) as (a2 & lh & b2 & -> & Ha2 & Hb2 & Nh & Ph & Lh).
  pose proof (normalize_rect_unit a1 lw b1 sep a2 lh b2 u w3
                Ha1 Hb1 Ha2 Hb2 H3 Hsep Hu Nw Pw Nh Ph) as E.
  apply (rect_pieces _ (Str.lower lw ++ b1) (a2 ++ Str.lower lh) []).
  - rewrite E, contains_app. cbn [Str.contains].
    rewrite Ascii.eqb_refl, orb_true_r. reflexivity.
  - rewrite E. rewrite split_app_sep
      by (rewrite contains_app, (contains_plain (Str.lower lw)),
            (contains_spaces b1) by assumption; reflexivity).
    rewrite split_no_sep
      by (rewrite contains_app, (contains_plain (Str.lower lh)),
            (contains_spaces a2) by assumption; reflexivity).
    reflexivity.
  - pose proof (strip_literal "" (Str.lower lw) b1 eq_refl Hb1 Pw) as E0.
    cbn [append] in E0. rewrite E0.
    rewrite of_str_plain by assumption. exact Lw.
  - pose proof (strip_literal a2 (Str.lower lh) "" Ha2 eq_refl Ph) as E1.
    rewrite append_empty_r in E1. rewrite E1.
    rewrite of_str_plain by assumption. exact Lh.
Qed.

Lemma rect_area_more sw sh sep sep' more w h :
  Float.of_str sw = inr w -> Float.of_str sh = inr h ->
  Str.lower sep = "x" -> Str.lower sep' = "x" ->
  _calculate_area (SizeStr (sw ++ sep ++ sh ++ sep' ++ more))
  = inr (PrimFloat.mul w h).
Proof.
  intros Hw Hh Hsep Hsep'.
  destruct (of_str_split _ _ Hw) as (a1 & lw & b1 & -> & Ha1 & Hb1 & Nw & Pw & Lw).
  destruct (of_str_split _ _ Hh) as (a2 & lh & b2 & -> & Ha2 & Hb2 & Nh & Ph & Lh).
  destruct (normalize_rect_more a1 lw b1 sep a2 lh b2 sep' more
              Ha1 Hb1 Ha2 Hb2 Hsep Hsep' Nw Pw Nh Ph) as (r & E).
  assert (C2 : Str.contains "x" (a2 ++ Str.lower lh ++ b2) = false).
  { rewrite !contains_app, (contains_plain (Str.lower lh)),
      (contains_spaces a2), (contains_spaces b2) by assumption. reflexivity. }
  apply (rect_pieces _ (Str.lower lw ++ b1) (a2 ++ Str.lower lh ++ b2)
           (Str.split "x" r)).
  - rewrite E, contains_app. cbn [Str.contains].
    rewrite Ascii.eqb_refl, orb_true_r. reflexivity.
  - rewrite E. rewrite split_app_sep
      by (rewrite contains_app, (contains_plain (Str.lower lw)),
            (contains_spaces b1) by assumption; reflexivity).
    rewrite split_app_sep by exact C2. reflexivity.
  - pose proof (strip_literal "" (Str.lower lw) b1 eq_refl Hb1 Pw) as E0.
    cbn [append] in E0. rewrite E0.
    rewrite of_str_plain by assumption. exact Lw.
  - rewrite strip_literal by assumption.
    rewrite of_str_plain by assumption. exact Lh.
Qed.

(** A diameter between white space, an optional unit, white space. *)
Lemma normalize_round_unit w1 lit w2 u w3 :
  all_chars Str.is_space w1 = true ->
  all_chars Str.is_space w2 = true ->
  all_chars Str.is_space w3 = true ->
  Str.lower u = "cm" \/ u = "" ->
  all_chars plain (Str.lower lit) = true ->
  normalize (w1 ++ lit ++ w2 ++ u ++ w3) = Str.lower lit.
Proof.
  intros H1 H2 H3 [Hu | ->] Hl; [apply normalize_round; assumption|].
  unfold normalize. cbn [append].
  rewrite !lower_app.
  rewrite (lower_spaces w1), (lower_spaces w2), (lower_spaces w3) by assumption.
  rewrite replace_cm_none.
  - apply strip_plain; try assumption.
    + rewrite all_chars_app, H2, H3. reflexivity.
    + eapply all_chars_impl; [|exact Hl]. apply plain_not_space.
  - rewrite !all_chars_app.
    rewrite (all_chars_impl _ _ _ space_not_c H1).
    rewrite (all_chars_impl _ _ _ plain_not_c Hl).
    rewrite (all_chars_impl _ _ _ space_not_c H2).
    rewrite (all_chars_impl _ _ _ space_not_c H3). reflexivity.
Qed.

(** A diameter written as text is the diameter. *)
Lemma circle_text sd d w1 w2 u w3 :
  Float.of_str sd = inr d ->
  all_chars Str.is_space w1 = true ->
  all_chars Str.is_space w2 = true ->
  all_chars Str.is_space w3 = true ->
  Str.lower u = "cm" \/ u = "" ->
  _calculate_area (SizeStr (w1 ++ sd ++ w2 ++ u ++ w3))
  = _calculate_area (SizeFloat d).
Proof.
  intros Hsd H1 H2 H3 Hu.
  destruct (of_str_split _ _ Hsd) as (a & lit & b & -> & Ha & Hb & Hne & Hp & Hl).
  unfold _calculate_area. fold (normalize (w1 ++ (a ++ lit ++ b) ++ w2 ++ u ++ w3)).
  replace (w1 ++ (a ++ lit ++ b) ++ w2 ++ u ++ w3)
    with ((w1 ++ a) ++ lit ++ (b ++ w2) ++ u ++ w3)
    by (rewrite !append_assoc'; reflexivity).
  rewrite normalize_round_unit; try assumption;
    try (rewrite all_chars_app; rewrite ?H1, ?H2, ?Ha, ?Hb; reflexivity).
  rewrite contains_plain by exact Hp.
  rewrite of_str_plain by exact Hp. rewrite Hl. reflexivity.
Qed.

End SizeTexts.

(** X1: a text made of white space, a text that [float] reads as [d], white
    space, the unit "cm" in any letter case or no unit, and white space has
    the result of the number [d]: the same area, or the same
    [OverflowError] when the square of the radius is out of range. *)
Theorem X1_text_diameter_is_number (sd w1 w2 u w3 : string) (d : float) :
  Float.of_str sd = inr d ->
  all_chars Str.is_space w1 = true ->
  all_chars Str.is_space w2 = true ->
  all_chars Str.is_space w3 = true ->
  Str.lower u = "cm"%string \/ u = ""%string ->
  _calculate_area (SizeStr (w1 ++ sd ++ w2 ++ u ++ w3))
  = _calculate_area (SizeFloat d).
Proof. apply circle_text. Qed.

(** An instance of X1. *)
Lemma X1_text_diameter_is_number_witness :
  _calculate_area (SizeStr (" " ++ "1E200" ++ " " ++ "" ++ ""))
  = _calculate_area (SizeFloat 1e200%float).
Proof.
  apply (X1_text_diameter_is_number "1E200" " " " " "" "" 1e200%float);
    try (vm_compute; reflexivity).
  right. reflexivity.
Defined.

(** X2: "cm" is taken out wherever it stands, not only at the end: a text
    with the unit, in any letter case, after a part that holds no "c" has
    the result of the text without it ("2cm6" is read as "26"). *)
Theorem X2_unit_removed_anywhere (a u b : string) :
  all_chars not_c (Str.lower a) = true ->
  Str.lower u = "cm"%string ->
  _calculate_area (SizeStr (a ++ u ++ b)) = _calculate_area (SizeStr (a ++ b)).
Proof.
  intros Ha Hu.
  assert (E : normalize (a ++ u ++ b) = normalize (a ++ b)).
  { unfold normalize. rewrite !lower_app, Hu.
    rewrite (replace_cm_app (Str.lower a) ("cm" ++ Str.lower b)) by exact Ha.
    rewrite (replace_cm_app (Str.lower a) (Str.lower b)) by exact Ha.
    change ("cm" ++ Str.lower b)%string with (String "c" (String "m" (Str.lower b))).
    rewrite replace_cm_cm. reflexivity. }
  unfold _calculate_area. fold (normalize (a ++ u ++ b)) (normalize (a ++ b)).
  rewrite E. reflexivity.
Qed.

(** An instance of X2. *)
Lemma X2_unit_removed_anywhere_witness :
  _calculate_area (SizeStr ("2" ++ "CM" ++ "6")) = _calculate_area (SizeStr ("2" ++ "6")).
Proof.
  apply (X2_unit_removed_anywhere "2" "CM" "6"); vm_compute; reflexivity.
Defined.

(** X3: two texts that [float] reads as [w] and [h], around a separator "x"
    or "X", followed by the unit in any letter case or by no unit and by
    white space, have the area [w * h]. *)
Theorem X3_rectangle_any_case (sw sh sep u w3 : string) (w h : float) :
  Float.of_str sw = inr w ->
  Float.of_str sh = inr h ->
  Str.lower sep = "x"%string ->
  Str.lower u = "cm"%string \/ u = ""%string ->
  all_chars Str.is_space w3 = true ->
  _calculate_area (SizeStr (sw ++ sep ++ sh ++ u ++ w3))
  = inr (PrimFloat.mul w h).
Proof. apply rect_area_unit. Qed.

(** An instance of X3. *)
Lemma X3_rectangle_any_case_witness :
  _calculate_area (SizeStr (" 46 " ++ "X" ++ " 3.3E1" ++ "Cm" ++ " "))
  = inr (PrimFloat.mul 46%float 33%float).
Proof.
  apply (X3_rectangle_any_case " 46 " " 3.3E1" "X" "Cm" " " 46%float 33%float);
    try (vm_compute; reflexivity).
  left. reflexivity.
Defined.

Lemma SFmul_comm x y : SF64mul x y = SF64mul y x.
Proof.
  unfold SF64mul, SFmul.
  destruct x as [sx|sx| |sx mx ex], y as [sy|sy| |sy my ey];
    try reflexivity; try (rewrite xorb_comm; reflexivity).
  rewrite xorb_comm, Pos.mul_comm, Z.add_comm. reflexivity.
Qed.

Lemma mul_comm x y : PrimFloat.mul x y = PrimFloat.mul y x.
Proof. apply Prim2SF_inj. rewrite !mul_spec. apply SFmul_comm. Qed.

(** X4: a rectangle has the same area when its two sides are written in
    the other order. *)
Theorem X4_rectangle_sides_swap (sw sh : string) (w h : float) :
  Float.of_str sw = inr w ->
  Float.of_str sh = inr h ->
  _calculate_area (SizeStr (sw ++ "x" ++ sh ++ "cm"))
  = _calculate_area (SizeStr (sh ++ "x" ++ sw ++ "cm")).
Proof.
  intros Hw Hh.
  pose proof (rect_area_unit sw sh "x" "cm" "" w h Hw Hh eq_refl
                (or_introl eq_refl) eq_refl) as E1.
  pose proof (rect_area_unit sh sw "x" "cm" "" h w Hh Hw eq_refl
                (or_introl eq_refl) eq_refl) as E2.
  cbn [append] in E1, E2. cbn [append].
  rewrite E1, E2, mul_comm. reflexivity.
Qed.

(** An instance of X4. *)
Lemma X4_rectangle_sides_swap_witness :
  _calculate_area (SizeStr ("46" ++ "x" ++ "33" ++ "cm"))
  = _calculate_area (SizeStr ("33" ++ "x" ++ "46" ++ "cm")).
Proof.
  apply (X4_rectangle_sides_swap "46" "33" 46%float 33%float);
    vm_compute; reflexivity.
Defined.

(** X5: what follows a second separator is not read: whatever text it is,
    the area is the product of the first two numbers. *)
Theorem X5_further_dimensions_ignored (sw sh more : string) (w h : float) :
  Float.of_str sw = inr w ->
  Float.of_str sh = inr h ->
  _calculate_area (SizeStr (sw ++ "x" ++ sh ++ "x" ++ more))
  = inr (PrimFloat.mul w h).
Proof.
  intros Hw Hh. apply rect_area_more; try assumption; reflexivity.
Qed.

(** An instance of X5. *)
Lemma X5_further_dimensions_ignored_witness :
  _calculate_area (SizeStr ("46" ++ "x" ++ "33" ++ "x" ++ "deep pan"))
  = inr (PrimFloat.mul 46%float 33%float).
Proof.
  apply (X5_further_dimensions_ignored "46" "33" "deep pan" 46%float 33%float);
    vm_compute; reflexivity.
Defined.

(** X6: the area calculator raises nothing but [ValueError] and
    [OverflowError]; a number raises nothing but [OverflowError]; a text
    with a separator raises nothing but [ValueError] (a product out of
    range is an infinite area, not an error), and taking the second piece
    of the split never raises [IndexError]. *)
Theorem X6_area_exceptions :
  (forall size e, _calculate_area size = inl e ->
     e = ValueError \/ e = OverflowError)
  /\ (forall n e, _calculate_area (SizeInt n) = inl e -> e = OverflowError)
  /\ (forall x e, _calculate_area (SizeFloat x) = inl e -> e = OverflowError)
  /\ (forall s e, Str.contains "x" (normalize s) = true ->
        _calculate_area (SizeStr s) = inl e -> e = ValueError).
Proof.
  assert (circle : forall r e,
    (sq <- Float.pow2 r ;; ret (PrimFloat.mul Float.pi sq))%py = inl e ->
    e = OverflowError).
  { intros r e. unfold Float.pow2. cbv zeta.
    destruct (_ && _); cbn [bind raise]; intros H;
      [injection H as <-; reflexivity | discriminate H]. }
  split; [exact calculate_area_raises|]. split; [|split].
  - intros n e. unfold _calculate_area.
    destruct (Float.int_truediv n 2) as [e'|r] eqn:E; cbn [bind].
    + intros [= <-]. unfold Float.int_truediv in E.
      destruct n as [|p|p]; [discriminate| |];
        destruct (Float.SF64of_ratio _ p 2);
        first [discriminate E | injection E as <-; reflexivity].
    + apply circle.
  - intros x e. unfold _calculate_area. rewrite truediv_2. cbn [bind]. apply circle.
  - intros s e Hx. unfold _calculate_area. fold (normalize s). rewrite Hx.
    destruct (split_contains _ _ Hx) as (p0 & p1 & rest & ->).
    cbn [Seq.item nth_error bind ret].
    destruct (Float.of_str (Str.strip p0)) as [e0|w] eqn:E0; cbn [bind].
    { intros [= <-]. eapply of_str_raises; eassumption. }
    destruct (Float.of_str (Str.strip p1)) as [e1|h] eqn:E1; cbn [bind].
    { intros [= <-]. eapply of_str_raises; eassumption. }
    discriminate.
Qed.

(** ** Opposite diameters and integer diameters *)

Section Opposites.

Lemma binary_round_aux_opp s m e l :
  binary_round_aux prec emax (negb s) m e l
  = SFopp (binary_round_aux prec emax s m e l).
Proof.
  unfold binary_round_aux.
  destruct (shr_fexp prec emax m e l) as [mrs' e'].
  destruct (shr_fexp prec emax _ e' loc_Exact) as [mrs'' e''].
  destruct (shr_m mrs''); [reflexivity| |reflexivity].
  destruct (e'' <=? emax - prec); reflexivity.
Qed.

Lemma SFdiv_opp x y : SF64div (SFopp x) y = SFopp (SF64div x y).
Proof.
  unfold SF64div, SFdiv.
  destruct x as [sx|sx| |sx mx ex], y as [sy|sy| |sy my ey]; cbn [SFopp];
    rewrite ?negb_xorb_l; try reflexivity.
  destruct (SFdiv_core_binary prec emax (Zpos mx) ex (Zpos my) ey) as [[mz ez] lz].
  rewrite <- negb_xorb_l. apply binary_round_aux_opp.
Qed.

Lemma SFmul_opp_opp x : SF64mul (SFopp x) (SFopp x) = SF64mul x x.
Proof.
  unfold SF64mul, SFmul.
  destruct x as [sx|sx| |sx mx ex]; cbn [SFopp]; try reflexivity;
    destruct sx; reflexivity.
Qed.

Lemma div_opp x y : PrimFloat.div (PrimFloat.opp x) y = PrimFloat.opp (PrimFloat.div x y).
Proof. apply Prim2SF_inj. rewrite opp_spec, !div_spec, opp_spec. apply SFdiv_opp. Qed.

Lemma mul_opp_opp x :
  PrimFloat.mul (PrimFloat.opp x) (PrimFloat.opp x) = PrimFloat.mul x x.
Proof. apply Prim2SF_inj. rewrite !mul_spec, opp_spec. apply SFmul_opp_opp. Qed.

Lemma is_infinity_opp x : PrimFloat.is_infinity (PrimFloat.opp x) = PrimFloat.is_infinity x.
Proof.
  rewrite !is_infinity_spec, opp_spec. destruct (Prim2SF x); reflexivity.
Qed.

Lemma pow2_opp x : Float.pow2 (PrimFloat.opp x) = Float.pow2 x.
Proof.
  unfold Float.pow2. cbv zeta. rewrite mul_opp_opp, is_infinity_opp. reflexivity.
Qed.

End Opposites.

Lemma circle_opp d :
  _calculate_area (SizeFloat (PrimFloat.opp d)) = _calculate_area (SizeFloat d).
Proof.
  unfold _calculate_area. rewrite !truediv_2. cbn [bind].
  rewrite div_opp, pow2_opp. reflexivity.
Qed.

(** X7: the sign of a diameter does not matter: a number and its opposite,
    and two texts that [float] reads as a number and its opposite, have
    the same result. *)
Theorem X7_circle_ignores_sign (d : float) (sd sn : string) :
  Float.of_str sd = inr d ->
  Float.of_str sn = inr (PrimFloat.opp d) ->
  _calculate_area (SizeFloat (PrimFloat.opp d)) = _calculate_area (SizeFloat d)
  /\ _calculate_area (SizeStr (sn ++ "cm")) = _calculate_area (SizeStr (sd ++ "cm")).
Proof.
  intros Hd Hn. split; [apply circle_opp|].
  pose proof (circle_text sd d "" "" "cm" "" Hd eq_refl eq_refl eq_refl
                (or_introl eq_refl)) as E1.
  pose proof (circle_text sn (PrimFloat.opp d) "" "" "cm" "" Hn eq_refl eq_refl eq_refl
                (or_introl eq_refl)) as E2.
  cbn [append] in E1, E2. rewrite E1, E2. apply circle_opp.
Qed.

(** An instance of X7. *)
Lemma X7_circle_ignores_sign_witness :
  _calculate_area (SizeFloat (PrimFloat.opp 30%float))
  = _calculate_area (SizeFloat 30%float)
  /\ _calculate_area (SizeStr ("-30" ++ "cm")) = _calculate_area (SizeStr ("30" ++ "cm")).
Proof.
  apply (X7_circle_ignores_sign 30%float "30" "-30"); vm_compute; reflexivity.
Defined.

Section Halves.

(** A mantissa of 53 digits with one more zero bit is rounded by taking
    the bit off. *)
Lemma binary_round_aux_even s m e :
  Zpos (digits2_pos m) = 53 -> -1075 <= e <= 970 ->
  binary_round_aux prec emax s (Zpos m~0) e loc_Exact = S754_finite s m (e + 1).
Proof.
  intros Hd He. unfold binary_round_aux, shr_fexp.
  cbn [Zdigits2 shr_record_of_loc digits2_pos]. rewrite Pos2Z.inj_succ, Hd.
  assert (E : fexp prec emax (Z.succ 53 + e) - e = 1)
    by (unfold fexp, SpecFloat.emin, prec, emax; lia).
  rewrite E. cbn [shr iter_pos shr_1 orb shr_m loc_of_shr_record round_nearest_even
                   Zdigits2 shr_record_of_loc].
  rewrite Hd.
  assert (E2 : fexp prec emax (53 + (e + 1)) - (e + 1) = 0)
    by (unfold fexp, SpecFloat.emin, prec, emax; lia).
  rewrite E2. cbn [shr shr_m].
  assert (L : (e + 1 <=? emax - prec) = true)
    by (apply Z.leb_le; unfold emax, prec; lia).
  rewrite L. reflexivity.
Qed.

(** An integer of at most 53 digits as a float: the digits, shifted to the
    left end of the mantissa. *)
Lemma binary_round_int s p :
  Zpos (digits2_pos p) <= 53 ->
  exists m,
    binary_round prec emax s p 0 = S754_finite s m (Zpos (digits2_pos p) - 53)
    /\ Zpos (digits2_pos m) = 53
    /\ Zpos m = Zpos p * 2 ^ (53 - Zpos (digits2_pos p)).
Proof.
  intros Hd. unfold binary_round.
  assert (E : fexp prec emax (Zpos (digits2_pos p) + 0)
              = Zpos (digits2_pos p) - 53)
    by (unfold fexp, SpecFloat.emin, prec, emax; lia).
  rewrite E.
  pose proof (shl_align_value p 0 (Zpos (digits2_pos p) - 53) ltac:(lia)) as V.
  unfold shl_align in *.
  destruct (Zpos (digits2_pos p) - 53 - 0) as [|k|k] eqn:Ek; try lia.
  - exists p. cbn [fst] in V.
    replace (Zpos (digits2_pos p) - 53) with 0 by lia.
    split; [apply binary_round_aux_exact; lia|]. split; [lia|].
    replace (53 - Zpos (digits2_pos p)) with 0 by lia. lia.
  - exists (Pos.iter xO p k). cbn [fst] in V.
    split; [apply binary_round_aux_exact; [rewrite digits2_shift|]; lia|].
    split; [rewrite digits2_shift; lia|].
    rewrite V. f_equal. f_equal. lia.
Qed.

Lemma div_eucl_exact a b q :
  0 < b -> a = b * q -> Z.div_eucl a b = (q, 0).
Proof.
  intros Hb ->. pose proof (Z_div_mod (b * q) b ltac:(lia)) as H.
  destruct (Z.div_eucl (b * q) b) as [q' r]. destruct H as [H1 H2].
  assert (q' = q) by nia. subst q'. f_equal. lia.
Qed.

(** The quotient of the integer [p] by 2, rounded. *)
Lemma SF64of_ratio_half s p m :
  Zpos (digits2_pos p) <= 53 ->
  Zpos (digits2_pos m) = 53 ->
  Zpos m = Zpos p * 2 ^ (53 - Zpos (digits2_pos p)) ->
  Float.SF64of_ratio s p 2 = S754_finite s m (Zpos (digits2_pos p) - 54).
Proof.
  intros Hp Hd Hm. unfold Float.SF64of_ratio, SFdiv_core_binary.
  cbn [Zdigits2 digits2_pos]. set (d := Zpos (digits2_pos p)) in *.
  assert (E : Z.min (fexp prec emax (d + 0 - (Z.pos (Pos.succ 1) + 0))) (0 - 0)
              = d - 55).
  { assert (0 < d) by (unfold d; lia).
    unfold fexp, SpecFloat.emin, prec, emax. lia. }
  rewrite E.
  destruct (0 - 0 - (d - 55)) as [|k|k] eqn:Ek; try lia.
  rewrite Z.shiftl_mul_pow2 by lia.
  rewrite (div_eucl_exact _ 2 (Zpos m~0)).
  - change (new_location 2 0) with loc_Exact.
    rewrite binary_round_aux_even by (try assumption; lia).
    f_equal. lia.
  - lia.
  - rewrite (Pos2Z.inj_xO m), Hm.
    replace (Zpos k) with (53 - d + 2) by lia.
    rewrite Z.pow_add_r by lia. change (2 ^ 2) with 4. lia.
Qed.

(** The quotient of a float of full mantissa by 2.0. *)
Lemma SFdiv_half s m e :
  Zpos (digits2_pos m) = 53 -> -1072 <= e <= 971 ->
  SF64div (S754_finite s m e) (S754_finite false 4503599627370496 (-51))
  = S754_finite s m (e - 1).
Proof.
  intros Hd He. unfold SF64div, SFdiv, SFdiv_core_binary.
  cbn [Zdigits2]. rewrite Hd.
  change (Zpos (digits2_pos 4503599627370496)) with 53.
  assert (E : Z.min (fexp prec emax (53 + e - (53 + -51))) (e - -51) = e - 2)
    by (unfold fexp, SpecFloat.emin, prec, emax; lia).
  rewrite E.
  replace (e - -51 - (e - 2)) with 53 by lia.
  rewrite Z.shiftl_mul_pow2 by lia.
  rewrite (div_eucl_exact _ 4503599627370496 (Zpos m~0)).
  - change (new_location 4503599627370496 0) with loc_Exact.
    rewrite xorb_false_r.
    rewrite binary_round_aux_even by (try assumption; lia).
    f_equal. lia.
  - lia.
  - rewrite (Pos2Z.inj_xO m). change (2 ^ 53) with 9007199254740992. lia.
Qed.

Lemma int_truediv_half n f :
  Z.abs n < 2 ^ 53 ->
  Float.of_int n = inr f ->
  Float.int_truediv n 2 = inr (PrimFloat.div f 2%float).
Proof.
  intros Hn Hf.
  assert (small : forall p, Zpos p < 2 ^ 53 -> Zpos (digits2_pos p) <= 53).
  { intros p Hp. pose proof (digits2_bounds p) as [L _].
    destruct (Z_le_gt_dec (Zpos (digits2_pos p)) 53); [assumption|].
    assert (2 ^ 53 <= 2 ^ (Zpos (digits2_pos p) - 1))
      by (apply Z.pow_le_mono_r; lia).
    lia. }
  assert (half : forall s p,
    Zpos p < 2 ^ 53 ->
    SF2Prim (binary_round prec emax s p 0) = f ->
    match Float.SF64of_ratio s p 2 with
    | S754_infinity _ => raise OverflowError
    | g => ret (SF2Prim g)
    end = inr (PrimFloat.div f 2%float)).
  { intros s p Hp E. pose proof (small p Hp) as Hd.
    destruct (binary_round_int s p Hd) as (m & Em & Dm & Vm).
    rewrite (SF64of_ratio_half s p m Hd Dm Vm). unfold ret. f_equal.
    apply Prim2SF_inj. rewrite div_spec, <- E, Em.
    assert (0 < Zpos (digits2_pos p)) by lia.
    rewrite !Prim2SF_SF2Prim.
    - rewrite two_pos, SFdiv_half by (try assumption; lia). f_equal. lia.
    - unfold valid_binary, bounded, canonical_mantissa. rewrite Dm.
      unfold fexp, SpecFloat.emin, prec, emax.
      apply andb_true_iff. split; [apply Z.eqb_eq | apply Z.leb_le]; lia.
    - unfold valid_binary, bounded, canonical_mantissa. rewrite Dm.
      unfold fexp, SpecFloat.emin, prec, emax.
      apply andb_true_iff. split; [apply Z.eqb_eq | apply Z.leb_le]; lia. }
  unfold Float.of_int in Hf. unfold Float.int_truediv.
  destruct n as [|p|p]; cbn [binary_normalize] in Hf.
  - injection Hf as <-. reflexivity.
  - apply half; [lia|].
    destruct (binary_round prec emax false p 0);
      first [discriminate Hf | injection Hf as <-; reflexivity].
  - apply half; [lia|].
    destruct (binary_round prec emax true p 0);
      first [discriminate Hf | injection Hf as <-; reflexivity].
Qed.

End Halves.

(** X8: an integer diameter below 2^53 in absolute value has the result
    of the float of the same value: [n / 2] on integers and on floats is
    the same number. *)
Theorem X8_int_diameter_is_float (n : Z) (f : float) :
  Z.abs n < 2 ^ 53 ->
  Float.of_int n = inr f ->
  _calculate_area (SizeInt n) = _calculate_area (SizeFloat f).
Proof.
  intros Hn Hf. unfold _calculate_area.
  rewrite (int_truediv_half n f Hn Hf), truediv_2. reflexivity.
Qed.

(** An instance of X8. *)
Lemma X8_int_diameter_is_float_witness :
  _calculate_area (SizeInt 26) = _calculate_area (SizeFloat 26%float).
Proof.
  apply (X8_int_diameter_is_float 26 26%float); [vm_compute; reflexivity | reflexivity].
Defined.

(** ** Areas and ratios that are not rounded to zero *)

Section AboveZero.

Lemma Zdigits2_bounds M : 0 < M -> 2 ^ (Zdigits2 M - 1) <= M /\ 0 < Zdigits2 M.
Proof.
  destruct M as [|p|p]; try lia. intros _. cbn [Zdigits2].
  pose proof (digits2_bounds p). lia.
Qed.

Lemma shifted_positive M k :
  0 < M -> 0 <= k <= Zdigits2 M - 1 -> 0 < M / 2 ^ k.
Proof.
  intros HM Hk. destruct (Zdigits2_bounds M HM) as [L _].
  assert (P : 2 ^ k <= 2 ^ (Zdigits2 M - 1)) by (apply Z.pow_le_mono_r; lia).
  assert (PK : 0 < 2 ^ k) by (apply Z.pow_pos_nonneg; lia).
  apply Z.div_str_pos. lia.
Qed.

(** Rounding a number that is at least [2^-1074] does not give zero. *)
Lemma binary_round_aux_nonzero s M E l :
  0 < M -> -1073 <= Zdigits2 M + E ->
  match binary_round_aux prec emax s M E l with
  | S754_finite s' _ _ | S754_infinity s' => s' = s
  | _ => False
  end.
Proof.
  intros HM HD.
  destruct (Zdigits2_bounds M HM) as [_ D0].
  unfold binary_round_aux, shr_fexp.
  set (n1 := fexp prec emax (Zdigits2 M + E) - E).
  pose proof (shr_value (shr_record_of_loc M l) E n1) as S1.
  rewrite shr_m_of_loc in S1. specialize (S1 ltac:(lia)).
  destruct (shr (shr_record_of_loc M l) E n1) as [mrs1 e1] eqn:Es1.
  cbn [fst snd] in S1. destruct S1 as [Se1 Sm1].
  assert (Hk : 0 <= Z.max n1 0 <= Zdigits2 M - 1)
    by (unfold n1, fexp, SpecFloat.emin, prec, emax; lia).
  assert (He1 : -1074 <= e1)
    by (unfold n1, fexp, SpecFloat.emin, prec, emax in *; lia).
  pose proof (shifted_positive M _ HM Hk) as Hm1. rewrite <- Sm1 in Hm1.
  set (mr := round_nearest_even (shr_m mrs1) (loc_of_shr_record mrs1)).
  assert (Hmr : 0 < mr).
  { pose proof (round_nearest_even_bounds (shr_m mrs1) (loc_of_shr_record mrs1))
      as [Lr _]. fold mr in Lr. lia. }
  clearbody mr.
  destruct (Zdigits2_bounds mr Hmr) as [_ D1].
  set (n2 := fexp prec emax (Zdigits2 mr + e1) - e1).
  pose proof (shr_value (shr_record_of_loc mr loc_Exact) e1 n2) as S2.
  cbn [shr_record_of_loc shr_m] in S2. specialize (S2 ltac:(lia)).
  cbn [shr_record_of_loc].
  destruct (shr (Build_shr_record mr false false) e1 n2) as [mrs2 e2].
  cbn [fst snd] in S2. destruct S2 as [Se2 Sm2].
  assert (Hj : 0 <= Z.max n2 0 <= Zdigits2 mr - 1)
    by (unfold n2, fexp, SpecFloat.emin, prec, emax; lia).
  pose proof (shifted_positive mr _ Hmr Hj) as Hm2. rewrite <- Sm2 in Hm2.
  destruct (shr_m mrs2) as [|p|p]; try lia.
  destruct (e2 <=? emax - prec); reflexivity.
Qed.

(** The product of pi and a float is zero only when the float is. *)
Lemma SFmul_pi x :
  valid_binary x = true ->
  SFis_zero (SF64mul (Prim2SF Float.pi) x) = SFis_zero x
  /\ SFpos (SF64mul (Prim2SF Float.pi) x) = SFpos x.
Proof.
  intros V. rewrite pi_plus. unfold SF64mul, SFmul.
  destruct x as [[]|[]| |s m e]; try (split; reflexivity).
  cbn [xorb SFis_zero SFpos].
  simpl in V. destruct (bounded_digits _ _ V) as (_ & _ & Re).
  pose proof (binary_round_aux_nonzero s
                (Zpos (7074237752028440 * m)) (-51 + e) loc_Exact
                ltac:(lia)) as H.
  assert (D : 53 <= Zdigits2 (Zpos (7074237752028440 * m))).
  { cbn [Zdigits2].
    pose proof (digits2_bounds (7074237752028440 * m)) as [_ U].
    destruct (Z_le_gt_dec 53 (Zpos (digits2_pos (7074237752028440 * m))));
      [assumption|].
    assert (2 ^ Zpos (digits2_pos (7074237752028440 * m)) <= 2 ^ 52)
      by (apply Z.pow_le_mono_r; lia).
    change (2 ^ 52) with 4503599627370496 in *. lia. }
  specialize (H ltac:(lia)).
  destruct (binary_round_aux prec emax s (Zpos (7074237752028440 * m)) (-51 + e)
              loc_Exact) as [s'|s'| |s' m' e']; try contradiction;
    subst s'; destruct s; split; reflexivity.
Qed.

End AboveZero.

(** The area of a circle is zero, or positive, when the square of its
    radius is. *)
Lemma circle_zero_by_square (d a : float) :
  _calculate_area (SizeFloat d) = inr a ->
  PrimFloat.eqb a PrimFloat.zero
  = PrimFloat.eqb (PrimFloat.mul (PrimFloat.div d 2%float) (PrimFloat.div d 2%float))
      PrimFloat.zero
  /\ PrimFloat.ltb PrimFloat.zero a
     = PrimFloat.ltb PrimFloat.zero
         (PrimFloat.mul (PrimFloat.div d 2%float) (PrimFloat.div d 2%float)).
Proof.
  unfold _calculate_area. rewrite truediv_2. cbn [bind]. unfold Float.pow2.
  cbv zeta. set (sq := PrimFloat.mul (PrimFloat.div d 2%float) (PrimFloat.div d 2%float)).
  destruct (PrimFloat.is_infinity sq
            && negb (PrimFloat.is_infinity (PrimFloat.div d 2%float)));
    cbn [bind raise ret]; [discriminate|].
  intros [= <-].
  rewrite !eqb_zero_spec, !ltb_zero_spec, mul_spec.
  apply SFmul_pi, Prim2SF_valid.
Qed.

(** X9: the area of a circle is zero exactly when the square of its radius
    is zero, and positive exactly when that square is positive: the
    product with pi is never rounded to zero. *)
Theorem X9_circle_area_zero_only_by_square (d a : float) :
  _calculate_area (SizeFloat d) = inr a ->
  PrimFloat.eqb a PrimFloat.zero
  = PrimFloat.eqb (PrimFloat.mul (PrimFloat.div d 2%float) (PrimFloat.div d 2%float))
      PrimFloat.zero
  /\ PrimFloat.ltb PrimFloat.zero a
     = PrimFloat.ltb PrimFloat.zero
         (PrimFloat.mul (PrimFloat.div d 2%float) (PrimFloat.div d 2%float)).
Proof. apply circle_zero_by_square. Qed.

(** An instance of X9. *)
Lemma X9_circle_area_zero_only_by_square_witness :
  PrimFloat.eqb 0%float PrimFloat.zero
  = PrimFloat.eqb
      (PrimFloat.mul (PrimFloat.div 1e-200%float 2%float)
         (PrimFloat.div 1e-200%float 2%float))
      PrimFloat.zero
  /\ PrimFloat.ltb PrimFloat.zero 0%float
     = PrimFloat.ltb PrimFloat.zero
         (PrimFloat.mul (PrimFloat.div 1e-200%float 2%float)
            (PrimFloat.div 1e-200%float 2%float)).
Proof.
  apply (X9_circle_area_zero_only_by_square 1e-200%float 0%float).
  vm_compute. reflexivity.
Defined.

Section Magnitudes.

(** A float that is not below a positive float is [+inf] or has an
    exponent that is not smaller. *)
Lemma SFleb_exponent cm ce x :
  SFleb (S754_finite false cm ce) x = true ->
  x = S754_infinity false
  \/ exists m e, x = S754_finite false m e /\ ce <= e.
Proof.
  unfold SFleb, SFcompare.
  destruct x as [[]|[]| |[] m e]; try discriminate; [left; reflexivity|].
  intros H. right. exists m, e. split; [reflexivity|].
  destruct (Z.compare_spec ce e); try discriminate; lia.
Qed.

(** A positive float that is not above a float has an exponent that is not
    greater. *)
Lemma SFleb_exponent_below cm ce x :
  SFpos x = true ->
  SFleb x (S754_finite false cm ce) = true ->
  exists m e, x = S754_finite false m e /\ e <= ce.
Proof.
  unfold SFleb, SFcompare.
  destruct x as [[]|[]| |[] m e]; try discriminate.
  intros _ H. exists m, e. split; [reflexivity|].
  destruct (Z.compare_spec e ce); try discriminate; lia.
Qed.

Lemma digits2_ge p k : 2 ^ k <= Zpos p -> k < Zpos (digits2_pos p).
Proof.
  intros H. pose proof (digits2_bounds p) as [_ U].
  destruct (Z_lt_le_dec k (Zpos (digits2_pos p))); [assumption|].
  assert (2 ^ Zpos (digits2_pos p) <= 2 ^ k) by (apply Z.pow_le_mono_r; lia).
  lia.
Qed.

(** The product of two floats with full mantissas is positive when their
    exponents add up to [-1178] or more. *)
Lemma SFmul_pos_range m1 e1 m2 e2 :
  bounded prec emax m1 e1 = true -> bounded prec emax m2 e2 = true ->
  -1074 < e1 -> -1074 < e2 -> -1178 <= e1 + e2 ->
  SFpos (SF64mul (S754_finite false m1 e1) (S754_finite false m2 e2)) = true.
Proof.
  intros V1 V2 H1 H2 H12. unfold SF64mul, SFmul. cbn [xorb].
  destruct (bounded_digits _ _ V1) as (_ & N1 & _).
  destruct (bounded_digits _ _ V2) as (_ & N2 & _).
  pose proof (digits2_bounds m1) as [L1 _]. rewrite N1 in L1 by lia.
  pose proof (digits2_bounds m2) as [L2 _]. rewrite N2 in L2 by lia.
  change (2 ^ (53 - 1)) with 4503599627370496 in L1, L2.
  assert (D : 104 < Zpos (digits2_pos (m1 * m2))).
  { apply digits2_ge. rewrite Pos2Z.inj_mul.
    change (2 ^ 104) with (4503599627370496 * 4503599627370496). nia. }
  pose proof (binary_round_aux_nonzero false (Zpos (m1 * m2)) (e1 + e2) loc_Exact
                ltac:(lia) ltac:(cbn [Zdigits2]; lia)) as H.
  destruct (binary_round_aux prec emax false (Zpos (m1 * m2)) (e1 + e2) loc_Exact)
    as [s|s| |s m e]; try contradiction; subst s; reflexivity.
Qed.

(** Half of a float with exponent [-588] or more. *)
Lemma SFhalf_range m e :
  bounded prec emax m e = true -> -588 <= e ->
  SF64div (S754_finite false m e) (Prim2SF 2%float) = S754_finite false m (e - 1)
  /\ bounded prec emax m (e - 1) = true.
Proof.
  intros V H. destruct (bounded_digits _ _ V) as (_ & N & R).
  rewrite two_pos. split; [apply SFdiv_half; lia|].
  unfold bounded, canonical_mantissa. rewrite N by lia.
  unfold fexp, SpecFloat.emin, prec, emax.
  apply andb_true_iff. split; [apply Z.eqb_eq | apply Z.leb_le]; lia.
Qed.

(** The quotient of a float with exponent [-552] or more by a positive
    float with exponent [448] or less is positive. *)
Lemma SFdiv_pos_range ma ea mp ep :
  bounded prec emax ma ea = true -> bounded prec emax mp ep = true ->
  -552 <= ea -> ep <= 448 ->
  SFpos (SF64div (S754_finite false ma ea) (S754_finite false mp ep)) = true.
Proof.
  intros Va Vp Ha Hp. unfold SF64div, SFdiv, SFdiv_core_binary. cbn [xorb Zdigits2].
  destruct (bounded_digits _ _ Va) as (_ & Na & Ra).
  destruct (bounded_digits _ _ Vp) as (Dp & _ & Rp).
  rewrite Na by lia.
  pose proof (digits2_bounds ma) as [La _]. rewrite Na in La by lia.
  pose proof (digits2_bounds mp) as [_ Up].
  set (dp := Zpos (digits2_pos mp)) in *.
  assert (P0 : 0 < dp) by (unfold dp; lia).
  assert (E : Z.min (fexp prec emax (53 + ea - (dp + ep))) (ea - ep)
              = ea - ep - dp)
    by (unfold fexp, SpecFloat.emin, prec, emax; lia).
  rewrite E. replace (ea - ep - (ea - ep - dp)) with dp by lia.
  unfold dp at 1. fold dp. rewrite Z.shiftl_mul_pow2 by lia.
  pose proof (Z_div_mod (Zpos ma * 2 ^ dp) (Zpos mp) ltac:(lia)) as DM.
  destruct (Z.div_eucl (Zpos ma * 2 ^ dp) (Zpos mp)) as [q r].
  destruct DM as [Eq Rr].
  assert (Hq : 2 ^ 52 <= q).
  { change (2 ^ (53 - 1)) with (2 ^ 52) in La.
    assert (P52 : 0 < 2 ^ 52) by reflexivity.
    assert (Pd : 0 < 2 ^ dp) by (apply Z.pow_pos_nonneg; lia).
    nia. }
  assert (Q0 : 0 < q) by (change (2 ^ 52) with 4503599627370496 in Hq; lia).
  assert (D : 52 < Zdigits2 q).
  { destruct q as [|pq|pq]; try lia. cbn [Zdigits2]. apply digits2_ge. exact Hq. }
  pose proof (binary_round_aux_nonzero false q (ea - ep - dp)
                (new_location (Zpos mp) r) Q0 ltac:(lia)) as H.
  destruct (binary_round_aux prec emax false q (ea - ep - dp)
              (new_location (Zpos mp) r)) as [s|s| |s m e];
    try contradiction; subst s; reflexivity.
Qed.

End Magnitudes.

Lemma least_size_spec :
  Prim2SF least_size = S754_finite false 4503599627370496 (-588).
Proof. reflexivity. Qed.

Lemma least_area_spec :
  Prim2SF least_area = S754_finite false 4503599627370496 (-552).
Proof. reflexivity. Qed.

Lemma greatest_price_spec :
  Prim2SF greatest_price = S754_finite false 4503599627370496 448.
Proof. reflexivity. Qed.

(** The product of two sizes in the range is positive. *)
Lemma mul_pos_range w h :
  PrimFloat.leb least_size w = true -> PrimFloat.leb least_size h = true ->
  PrimFloat.ltb PrimFloat.zero (PrimFloat.mul w h) = true.
Proof.
  rewrite !leb_spec, least_size_spec, ltb_zero_spec, mul_spec. intros Hw Hh.
  pose proof (Prim2SF_valid w) as Vw. pose proof (Prim2SF_valid h) as Vh.
  destruct (SFleb_exponent _ _ _ Hw) as [Ew|(mw & ew & Ew & Lw)];
    destruct (SFleb_exponent _ _ _ Hh) as [Eh|(mh & eh & Eh & Lh)];
    rewrite Ew, Eh in *; try reflexivity.
  apply SFmul_pos_range; try assumption; lia.
Qed.

(** X10: a diameter of at least 2^-536 whose area is computed has a
    positive area. *)
Theorem X10_circle_area_positive (d a : float) :
  PrimFloat.leb least_size d = true ->
  _calculate_area (SizeFloat d) = inr a ->
  PrimFloat.ltb PrimFloat.zero a = true.
Proof.
  intros Hd Ha.
  destruct (circle_zero_by_square d a Ha) as [_ ->].
  rewrite leb_spec, least_size_spec in Hd.
  rewrite ltb_zero_spec, mul_spec, div_spec.
  pose proof (Prim2SF_valid d) as V.
  destruct (SFleb_exponent _ _ _ Hd) as [E|(m & e & E & L)]; rewrite E in *.
  - reflexivity.
  - simpl in V. destruct (SFhalf_range m e V L) as [-> V'].
    apply SFmul_pos_range; try assumption; lia.
Qed.

(** An instance of X10. *)
Lemma X10_circle_area_positive_witness :
  PrimFloat.ltb PrimFloat.zero
    (PrimFloat.mul Float.pi (PrimFloat.mul 13%float 13%float)) = true.
Proof.
  apply (X10_circle_area_positive 26%float
           (PrimFloat.mul Float.pi (PrimFloat.mul 13%float 13%float)));
    vm_compute; reflexivity.
Defined.

(** X11: a rectangle whose sides are both at least 2^-536 has a positive
    area. *)
Theorem X11_rectangle_area_positive (sw sh : string) (w h : float) :
  Float.of_str sw = inr w ->
  Float.of_str sh = inr h ->
  PrimFloat.leb least_size w = true ->
  PrimFloat.leb least_size h = true ->
  exists a,
    _calculate_area (SizeStr (sw ++ "x" ++ sh ++ "cm")) = inr a
    /\ PrimFloat.ltb PrimFloat.zero a = true.
Proof.
  intros Hw Hh Lw Lh. exists (PrimFloat.mul w h). split.
  - exact (rect_area_unit sw sh "x" "cm" "" w h Hw Hh eq_refl
             (or_introl eq_refl) eq_refl).
  - apply mul_pos_range; assumption.
Qed.

(** An instance of X11. *)
Lemma X11_rectangle_area_positive_witness :
  exists a,
    _calculate_area (SizeStr ("46" ++ "x" ++ "33" ++ "cm")) = inr a
    /\ PrimFloat.ltb PrimFloat.zero a = true.
Proof.
  apply (X11_rectangle_area_positive "46" "33" 46%float 33%float);
    vm_compute; reflexivity.
Defined.

(** ** The construction and the texts of a pizza *)

(** X12: the construction of a pizza raises exactly what the area
    calculator raises, whatever the price is; when the area is computed
    the pizza holds the name, the price and the area, and its ratio is 0
    for every price that is not positive (zero, negative or NaN). *)
Theorem X12_init_outcome (nm : string) (size : size_descriptor) (pr : float) :
  (forall e, __init__ nm size pr = inl e <-> _calculate_area size = inl e)
  /\ (forall a, _calculate_area size = inr a ->
        exists r,
          __init__ nm size pr = inr (mkPizza nm pr a r)
          /\ (PrimFloat.ltb PrimFloat.zero pr = false -> r = PrimFloat.zero)).
Proof.
  unfold __init__. destruct (_calculate_area size) as [e'|a]; cbn [bind].
  - split; [intros e; split; intros H; injection H as ->; reflexivity
           | intros a H; discriminate H].
  - split.
    + intros e. split; [|intros H; discriminate H].
      destruct (PrimFloat.ltb PrimFloat.zero pr) eqn:Hp.
      * unfold Float.truediv. rewrite (pos_not_zero _ Hp). discriminate.
      * discriminate.
    + intros a' [= <-].
      destruct (PrimFloat.ltb PrimFloat.zero pr) eqn:Hp.
      * unfold Float.truediv. rewrite (pos_not_zero _ Hp). cbn [bind ret].
        eexists. split; [reflexivity | discriminate].
      * cbn [bind ret]. eexists. split; reflexivity.
Qed.

(** X13: a pizza with an area of at least 2^-500 and a positive price of
    at most 2^500 has a positive ratio: in that range the ratio is 0 only
    for a price that is not positive. *)
Theorem X13_value_ratio_positive
    (nm : string) (size : size_descriptor) (pr : float) (p : Pizza) :
  __init__ nm size pr = inr p ->
  PrimFloat.leb least_area (area p) = true ->
  PrimFloat.ltb PrimFloat.zero pr = true ->
  PrimFloat.leb pr greatest_price = true ->
  PrimFloat.ltb PrimFloat.zero (value_ratio p) = true
  /\ PrimFloat.eqb (value_ratio p) PrimFloat.zero = false.
Proof.
  intros Hi Ha Hp Hg.
  assert (G : PrimFloat.ltb PrimFloat.zero (value_ratio p) = true);
    [|split; [exact G | apply pos_not_zero; exact G]].
  unfold __init__ in Hi. destruct (_calculate_area size) as [e|a]; [discriminate Hi|].
  cbn [bind] in Hi. rewrite Hp in Hi. unfold Float.truediv in Hi.
  rewrite (pos_not_zero _ Hp) in Hi. cbn [bind ret] in Hi.
  injection Hi as <-. cbn [area value_ratio] in *.
  rewrite leb_spec, least_area_spec in Ha.
  rewrite leb_spec, greatest_price_spec in Hg.
  rewrite ltb_zero_spec in Hp.
  rewrite ltb_zero_spec, div_spec.
  pose proof (Prim2SF_valid a) as Va. pose proof (Prim2SF_valid pr) as Vp.
  destruct (SFleb_exponent_below _ _ _ Hp Hg) as (mp & ep & Ep & Lp).
  rewrite Ep in *.
  destruct (SFleb_exponent _ _ _ Ha) as [Ea|(ma & ea & Ea & La)]; rewrite Ea in *.
  - reflexivity.
  - apply SFdiv_pos_range; assumption.
Qed.

(** An instance of X13. *)
Lemma X13_value_ratio_positive_witness :
  PrimFloat.ltb PrimFloat.zero
    (value_ratio (mkPizza "Party Pizza" 13%float 1518%float
                    (PrimFloat.div 1518%float 13%float))) = true
  /\ PrimFloat.eqb
       (value_ratio (mkPizza "Party Pizza" 13%float 1518%float
                       (PrimFloat.div 1518%float 13%float)))
       PrimFloat.zero = false.
Proof.
  apply (X13_value_ratio_positive "Party Pizza" (SizeStr "46x33cm") 13%float
           (mkPizza "Party Pizza" 13%float 1518%float
              (PrimFloat.div 1518%float 13%float)));
    vm_compute; reflexivity.
Defined.

(** X14: [__str__] raises [ZeroDivisionError] exactly when the area is a
    zero and raises nothing else; a pizza of diameter 0.0 is constructed
    for every name and price, [__repr__] returns its text and [__str__]
    raises. *)
Theorem X14_str_raises_on_zero_area (self : Pizza) :
  (__str__ self = inl ZeroDivisionError <-> zero_area self = true)
  /\ (forall e, __str__ self = inl e -> e = ZeroDivisionError)
  /\ (forall nm pr, exists p,
        __init__ nm (SizeFloat 0%float) pr = inr p
        /\ __str__ p = inl ZeroDivisionError
        /\ __repr__ p
           = ("Pizza('" ++ nm ++ "', area=0.00, price="
                ++ Float.format_2f pr ++ ")")%string).
Proof.
  unfold __str__, Float.truediv, zero_area.
  split; [|split].
  - destruct (PrimFloat.eqb (area self) PrimFloat.zero); cbn [bind raise ret];
      split; intros H; first [reflexivity | discriminate H].
  - intros e. destruct (PrimFloat.eqb (area self) PrimFloat.zero);
      cbn [bind raise ret]; intros H; [injection H as <-; reflexivity | discriminate H].
  - intros nm pr. unfold __init__.
    change (_calculate_area (SizeFloat 0%float)) with (@inr exn float 0%float).
    cbn [bind]. unfold Float.truediv.
    destruct (PrimFloat.ltb PrimFloat.zero pr) eqn:Hp.
    + rewrite (pos_not_zero _ Hp). cbn [bind ret]. eexists.
      split; [reflexivity|]. split; reflexivity.
    + cbn [bind ret]. eexists. split; [reflexivity|]. split; reflexivity.
Qed.

(** ** More about [max] and [sorted] *)

Section Ranking2.

Context {A : Type} (key : A -> float).

Lemma insert_last x l :
  Forall (fun y => PrimFloat.ltb (key x) (key y) = false) l ->
  Seq.insert key x l = l ++ [x].
Proof.
  induction 1 as [|y l Hy Hl IH]; simpl; [reflexivity|].
  rewrite Hy, IH. reflexivity.
Qed.

Lemma strongly_sorted_snoc_inv (R : A -> A -> Prop) l x :
  StronglySorted R (l ++ [x]) ->
  StronglySorted R l /\ Forall (fun a => R a x) l.
Proof.
  induction l as [|a l IH]; simpl; intros H.
  - split; constructor.
  - inversion H as [|? ? Hs Hf]; subst.
    destruct (IH Hs) as [Hl Hx]. apply Forall_app in Hf as [Hf Hfx].
    split; constructor; try assumption. inversion Hfx; assumption.
Qed.

Lemma sort_ascending_id l : ascending key l -> Seq.sort key l = l.
Proof.
  induction l as [|x l IH] using rev_ind; intros H; [reflexivity|].
  apply strongly_sorted_snoc_inv in H as [Hl Hx].
  rewrite sort_snoc, IH by exact Hl. apply insert_last. exact Hx.
Qed.

(** A list that is in descending order already is its own ranking. *)
Lemma sorted_descending_id l : descending key l -> Seq.sorted key true l = l.
Proof.
  intros H. unfold Seq.sorted.
  rewrite sort_ascending_id; [apply rev_involutive|].
  apply (strongly_sorted_rev _ _ H).
Qed.

Lemma eqb_refl_numeric x : PrimFloat.is_nan x = false -> PrimFloat.eqb x x = true.
Proof. intros H. rewrite eqb_ltb, ltb_irrefl by assumption. reflexivity. Qed.

(** Two lists in descending order with the same items of each key, in the
    same order, are equal. *)
Lemma descending_classes_eq s : forall s',
  Forall (numeric key) s -> Forall (numeric key) s' ->
  descending key s -> descending key s' ->
  (forall r, with_key key r s = with_key key r s') ->
  s = s'.
Proof.
  unfold numeric.
  induction s as [|h t IH]; intros s' Ns Ns' Ds Ds' E.
  - destruct s' as [|h' t']; [reflexivity|].
    inversion Ns' as [|? ? Nh' _]; subst.
    specialize (E (key h')). unfold with_key in E. simpl in E.
    rewrite eqb_refl_numeric in E by assumption. discriminate E.
  - inversion Ns as [|? ? Nh Nt]; subst.
    inversion Ds as [|? ? Dt Dh]; subst.
    pose proof (E (key h)) as Eh. unfold with_key in Eh. simpl in Eh.
    rewrite eqb_refl_numeric in Eh by assumption.
    destruct s' as [|h' t']; [discriminate Eh|].
    inversion Ns' as [|? ? Nh' Nt']; subst.
    inversion Ds' as [|? ? Dt' Dh']; subst.
    assert (L1 : PrimFloat.ltb (key h') (key h) = false).
    { assert (I : In h (filter (fun a => PrimFloat.eqb (key a) (key h)) (h' :: t')))
        by (rewrite <- Eh; left; reflexivity).
      apply filter_In in I as [[<-|I] _]; [apply ltb_irrefl|].
      rewrite Forall_forall in Dh'. auto. }
    assert (L2 : PrimFloat.ltb (key h) (key h') = false).
    { pose proof (E (key h')) as Eh'. unfold with_key in Eh'.
      assert (I : In h' (filter (fun a => PrimFloat.eqb (key a) (key h')) (h :: t))).
      { rewrite Eh'. simpl. rewrite eqb_refl_numeric by assumption.
        left; reflexivity. }
      apply filter_In in I as [[<-|I] _]; [apply ltb_irrefl|].
      rewrite Forall_forall in Dh. auto. }
    simpl in Eh. rewrite (eqb_ltb _ _ Nh' Nh), L1, L2 in Eh. simpl in Eh.
    injection Eh as <- _. f_equal.
    apply IH; try assumption.
    intros r. specialize (E r). unfold with_key in E |- *. simpl in E.
    destruct (PrimFloat.eqb (key h) r); [injection E as E|]; exact E.
Qed.

Lemma sorted_numeric l :
  Forall (numeric key) l -> Forall (numeric key) (Seq.sorted key true l).
Proof.
  intros H. eapply Permutation_Forall; [|exact H].
  apply Permutation_sym, sorted_perm.
Qed.

(** The ranking depends on the order of the input only through the order
    of the items of each key. *)
Lemma sorted_classes l l' :
  Forall (numeric key) l -> Forall (numeric key) l' ->
  (forall r, with_key key r l = with_key key r l') ->
  Seq.sorted key true l = Seq.sorted key true l'.
Proof.
  intros N N' E. apply descending_classes_eq.
  - apply sorted_numeric, N.
  - apply sorted_numeric, N'.
  - apply sorted_descending, N.
  - apply sorted_descending, N'.
  - intros r. rewrite !sorted_with_key by assumption. apply E.
Qed.

Lemma filter_perm (f : A -> bool) l l' :
  Permutation l l' -> Permutation (filter f l) (filter f l').
Proof.
  induction 1 as [|x l l' _ IH|x y l|l l' l'' _ IH1 _ IH2]; simpl.
  - constructor.
  - destruct (f x); [constructor|]; exact IH.
  - destruct (f x), (f y); try apply Permutation_refl. constructor.
  - eapply Permutation_trans; eassumption.
Qed.

Lemma with_key_single r l :
  Forall (numeric key) l ->
  ForallOrdPairs (fun a b => PrimFloat.eqb (key a) (key b) = false) l ->
  (List.length (with_key key r l) <= 1)%nat.
Proof.
  unfold numeric. intros N D.
  destruct (PrimFloat.is_nan r) eqn:Nr.
  { rewrite with_key_nan by exact Nr. simpl. lia. }
  induction D as [|a l Ha _ IH]; simpl; [lia|].
  inversion N as [|? ? Na Nl]; subst. specialize (IH Nl).
  destruct (PrimFloat.eqb (key a) r) eqn:Ea; [|exact IH].
  assert (Z : with_key key r l = []).
  { unfold with_key. clear IH.
    induction l as [|b l IHl]; [reflexivity|].
    inversion Ha as [|? ? Hab Hal]; subst. inversion Nl as [|? ? Nb Nl']; subst.
    simpl. destruct (PrimFloat.eqb (key b) r) eqn:Eb; [|auto].
    exfalso. rewrite eqb_ltb in Ea, Eb, Hab by assumption.
    apply andb_true_iff in Ea as [Ea1 Ea2], Eb as [Eb1 Eb2].
    apply negb_true_iff in Ea1, Ea2, Eb1, Eb2.
    apply andb_false_iff in Hab as [Hab|Hab]; apply negb_false_iff in Hab;
      float_order. }
  simpl. fold (with_key key r l). rewrite Z. simpl. lia.
Qed.

Lemma with_key_perm r l l' :
  Forall (numeric key) l ->
  ForallOrdPairs (fun a b => PrimFloat.eqb (key a) (key b) = false) l ->
  Permutation l l' ->
  with_key key r l = with_key key r l'.
Proof.
  intros N D P.
  pose proof (with_key_single r l N D) as L.
  pose proof (filter_perm (fun a => PrimFloat.eqb (key a) r) l l' P) as Q.
  fold (with_key key r l) in Q. fold (with_key key r l') in Q.
  destruct (with_key key r l) as [|a [|b t]].
  - apply Permutation_nil in Q. congruence.
  - apply Permutation_length_1_inv in Q. congruence.
  - simpl in L. lia.
Qed.

Lemma max_from_app l1 l2 : forall b,
  Seq.max_from key b (l1 ++ l2) = Seq.max_from key (Seq.max_from key b l1) l2.
Proof. induction l1 as [|x l1 IH]; intros b; simpl; [reflexivity | apply IH]. Qed.

Lemma max_from_numeric l : forall b,
  numeric key b -> Forall (numeric key) l -> numeric key (Seq.max_from key b l).
Proof.
  induction l as [|x l IH]; intros b Nb Nl; simpl; [exact Nb|].
  inversion Nl; subst. apply IH; [|assumption].
  destruct (PrimFloat.ltb (key b) (key x)); assumption.
Qed.

Lemma max_from_in l : forall b, In (Seq.max_from key b l) (b :: l).
Proof.
  induction l as [|x l IH]; intros b; simpl; [left; reflexivity|].
  destruct (IH (if PrimFloat.ltb (key b) (key x) then x else b)) as [E|I].
  - rewrite <- E. destruct (PrimFloat.ltb (key b) (key x)); auto.
  - right. right. exact I.
Qed.

Lemma pick_assoc a b c :
  numeric key a -> numeric key b -> numeric key c ->
  (if PrimFloat.ltb
        (key (if PrimFloat.ltb (key a) (key b) then b else a)) (key c)
   then c else if PrimFloat.ltb (key a) (key b) then b else a)
  = (if PrimFloat.ltb (key a)
          (key (if PrimFloat.ltb (key b) (key c) then c else b))
     then (if PrimFloat.ltb (key b) (key c) then c else b) else a).
Proof.
  unfold numeric. intros Na Nb Nc.
  destruct (PrimFloat.ltb (key a) (key b)) eqn:Eab;
    destruct (PrimFloat.ltb (key b) (key c)) eqn:Ebc;
    rewrite ?Eab, ?Ebc;
    destruct (PrimFloat.ltb (key a) (key c)) eqn:Eac;
    try reflexivity; exfalso; float_order.
Qed.

(** The maximum from [m] over [y :: l] is the greater of [m] and the
    maximum of [y :: l], [m] when they are equal. *)
Lemma max_from_pick l : forall m y,
  numeric key m -> numeric key y -> Forall (numeric key) l ->
  Seq.max_from key m (y :: l)
  = Seq.max_from key m [Seq.max_from key y l].
Proof.
  induction l as [|x l IH]; intros m y Nm Ny Nl; [reflexivity|].
  inversion Nl as [|? ? Nx Nl']; subst.
  assert (Nyx : numeric key (if PrimFloat.ltb (key y) (key x) then x else y))
    by (destruct (PrimFloat.ltb (key y) (key x)); assumption).
  transitivity (Seq.max_from key m
                  ((if PrimFloat.ltb (key y) (key x) then x else y) :: l)).
  - cbn [Seq.max_from]. rewrite pick_assoc by assumption. reflexivity.
  - rewrite IH by assumption. reflexivity.
Qed.

End Ranking2.

Lemma best_is_head items :
  ratios_numeric items ->
  find_best_pizza items
  = match sorted_pizzas items with
    | [] => inl ValueError
    | h :: _ => inr h
    end.
Proof.
  intros N. destruct items as [|x items].
  - reflexivity.
  - destruct (max_by_first_max value_ratio (x :: items)) as (m & Em & Fm);
      [discriminate | exact N |].
    unfold find_best_pizza. rewrite Em.
    destruct (sorted_pizzas (x :: items)) as [|h t] eqn:E.
    + pose proof (sorted_perm value_ratio true (x :: items)) as P.
      unfold sorted_pizzas in E. rewrite E in P.
      apply Permutation_nil in P. discriminate P.
    + f_equal. eapply first_max_unique; [exact Fm|].
      eapply sorted_head_first_max; [exact N | exact E].
Qed.

(** X15: whatever the ratios are, NaN included, the ranking is a
    rearrangement of the list and the best pizza is one of the list; the
    only error of [find_best_pizza] is the [ValueError] of the empty
    list. *)
Theorem X15_ranking_selects (items : list Pizza) :
  Permutation (sorted_pizzas items) items
  /\ List.length (sorted_pizzas items) = List.length items
  /\ (forall best, find_best_pizza items = inr best -> In best items)
  /\ (forall e, find_best_pizza items = inl e -> e = ValueError /\ items = []).
Proof.
  pose proof (sorted_perm value_ratio true items) as P.
  split; [exact P|]. split; [apply Permutation_length; exact P|]. split.
  - intros best E. destruct items as [|x items]; [discriminate E|].
    injection E as <-. apply max_from_in.
  - intros e E. destruct items as [|x items]; [|discriminate E].
    injection E as <-. split; reflexivity.
Qed.

(** X16: the best pizza of two lists put together is the better of their
    two best pizzas, the one of the first list when the ratios are
    equal. *)
Theorem X16_best_of_concatenation (l1 l2 : list Pizza) (b1 b2 : Pizza) :
  ratios_numeric l1 -> ratios_numeric l2 ->
  find_best_pizza l1 = inr b1 ->
  find_best_pizza l2 = inr b2 ->
  find_best_pizza (l1 ++ l2) = find_best_pizza [b1; b2]
  /\ find_best_pizza (l1 ++ l2)
     = inr (if PrimFloat.ltb (value_ratio b1) (value_ratio b2) then b2 else b1).
Proof.
  intros N1 N2 E1 E2.
  assert (G : find_best_pizza (l1 ++ l2) = find_best_pizza [b1; b2]);
    [|split; [exact G | rewrite G; reflexivity]].
  destruct l1 as [|x l1]; [discriminate E1|].
  destruct l2 as [|y l2]; [discriminate E2|].
  unfold find_best_pizza, Seq.max_by in *.
  injection E1 as <-. injection E2 as <-.
  cbn [app]. rewrite max_from_app. unfold ret. f_equal.
  inversion N1 as [|? ? Nx Nl1]; subst. inversion N2 as [|? ? Ny Nl2]; subst.
  apply max_from_pick; try assumption.
  apply max_from_numeric; assumption.
Qed.

(** An instance of X16. *)
Lemma X16_best_of_concatenation_witness :
  find_best_pizza (sample_items ++ distinct_items)
  = find_best_pizza [mkPizza "B" 1%float 3%float 3%float;
                     mkPizza "C" 2%float 8%float 4%float]
  /\ find_best_pizza (sample_items ++ distinct_items)
     = inr (if PrimFloat.ltb 3%float 4%float
            then mkPizza "C" 2%float 8%float 4%float
            else mkPizza "B" 1%float 3%float 3%float).
Proof.
  apply (X16_best_of_concatenation sample_items distinct_items
           (mkPizza "B" 1%float 3%float 3%float)
           (mkPizza "C" 2%float 8%float 4%float)).
  - unfold ratios_numeric, sample_items.
    repeat (apply Forall_cons; [vm_compute; reflexivity|]). apply Forall_nil.
  - unfold ratios_numeric, distinct_items.
    repeat (apply Forall_cons; [vm_compute; reflexivity|]). apply Forall_nil.
  - vm_compute. reflexivity.
  - vm_compute. reflexivity.
Defined.

(** A ratio that is positive or a NaN is not a zero. *)
Lemma above_zero_not_zero x :
  PrimFloat.ltb PrimFloat.zero x = true \/ PrimFloat.is_nan x = true ->
  PrimFloat.eqb x PrimFloat.zero = false.
Proof.
  intros [H|H]; [apply pos_not_zero, H|].
  apply is_nan_spec in H. rewrite eqb_spec, H. reflexivity.
Qed.

(** A running maximum whose ratio is positive or a NaN stays so. *)
Lemma max_from_above_zero (l : list Pizza) : forall b,
  PrimFloat.ltb PrimFloat.zero (value_ratio b) = true
  \/ PrimFloat.is_nan (value_ratio b) = true ->
  PrimFloat.ltb PrimFloat.zero (value_ratio (Seq.max_from value_ratio b l)) = true
  \/ PrimFloat.is_nan (value_ratio (Seq.max_from value_ratio b l)) = true.
Proof.
  induction l as [|x l IH]; intros b Hb; cbn [Seq.max_from]; [exact Hb|].
  apply IH.
  destruct (PrimFloat.ltb (value_ratio b) (value_ratio x)) eqn:E; [|exact Hb].
  destruct (ltb_not_nan _ _ E) as [Nb _].
  destruct Hb as [Hb|Hb]; [|congruence].
  left. eapply ltb_trans; eassumption.
Qed.

(** The running maximum over a list that holds a pizza with a positive
    ratio has a ratio that is positive or a NaN. *)
Lemma max_from_reaches (l : list Pizza) (q : Pizza) : forall b,
  In q l ->
  PrimFloat.ltb PrimFloat.zero (value_ratio q) = true ->
  PrimFloat.ltb PrimFloat.zero (value_ratio (Seq.max_from value_ratio b l)) = true
  \/ PrimFloat.is_nan (value_ratio (Seq.max_from value_ratio b l)) = true.
Proof.
  intros b Hq Hr. revert b.
  induction l as [|x l IH]; intros b; [contradiction|].
  cbn [Seq.max_from]. destruct Hq as [->|Hq]; [|apply IH; exact Hq].
  apply max_from_above_zero.
  destruct (PrimFloat.ltb (value_ratio b) (value_ratio q)) eqn:E; [left; exact Hr|].
  destruct (PrimFloat.is_nan (value_ratio b)) eqn:Nb; [right; reflexivity|].
  left. destruct (ltb_not_nan _ _ Hr) as [N0 Nq]. float_order.
Qed.

(** X17: a pizza constructed with a price that is not positive (a free
    pizza) has the ratio 0 and is never the best of a list that holds a
    pizza with a positive ratio, whatever the other ratios are (NaN
    included): the ratio of the best pizza of such a list is not 0. *)
Theorem X17_free_pizza_not_best
    (items : list Pizza) (nm : string) (size : size_descriptor) (pr : float)
    (free q : Pizza) :
  PrimFloat.ltb PrimFloat.zero pr = false ->
  __init__ nm size pr = inr free ->
  In q items ->
  PrimFloat.ltb PrimFloat.zero (value_ratio q) = true ->
  value_ratio free = PrimFloat.zero
  /\ exists best,
      find_best_pizza items = inr best
      /\ PrimFloat.eqb (value_ratio best) PrimFloat.zero = false
      /\ best <> free.
Proof.
  intros Hp Hi Hq Hr.
  assert (Rf : value_ratio free = PrimFloat.zero).
  { unfold __init__ in Hi. destruct (_calculate_area size) as [e|a];
      [discriminate Hi|]. cbn [bind] in Hi. rewrite Hp in Hi.
    cbn [bind ret] in Hi. injection Hi as <-. reflexivity. }
  split; [exact Rf|].
  destruct items as [|x l]; [contradiction|].
  exists (Seq.max_from value_ratio x l). split; [reflexivity|].
  assert (Hb : PrimFloat.eqb (value_ratio (Seq.max_from value_ratio x l))
                 PrimFloat.zero = false).
  { apply above_zero_not_zero. destruct Hq as [->|Hq].
    - apply max_from_above_zero. left. exact Hr.
    - eapply max_from_reaches; eassumption. }
  split; [exact Hb|].
  intros E. rewrite E, Rf in Hb. discriminate Hb.
Qed.

(** An instance of X17: a free pizza in front of three pizzas and of one
    whose ratio is a NaN. *)
Lemma X17_free_pizza_not_best_witness :
  value_ratio (mkPizza "Free" 0%float 530%float 0%float) = PrimFloat.zero
  /\ exists best,
      find_best_pizza
        (mkPizza "Free" 0%float 530%float 0%float
           :: sample_items ++ [mkPizza "N" 1%float nan nan]) = inr best
      /\ PrimFloat.eqb (value_ratio best) PrimFloat.zero = false
      /\ best <> mkPizza "Free" 0%float 530%float 0%float.
Proof.
  apply (X17_free_pizza_not_best
           (mkPizza "Free" 0%float 530%float 0%float
              :: sample_items ++ [mkPizza "N" 1%float nan nan])
           "Free" (SizeStr "10x53cm") 0%float
           (mkPizza "Free" 0%float 530%float 0%float)
           (mkPizza "A" 1%float 2%float 2%float)).
  - reflexivity.
  - vm_compute. reflexivity.
  - right. left. reflexivity.
  - reflexivity.
Defined.

Lemma display_results_unfold pizzas :
  display_results pizzas =
  (print (Str.repeat "=" 70) ;;;
   print "PIZZA VALUE ANALYSIS" ;;;
   print (Str.repeat "=" 70) ;;;
   print "" ;;;
   Seq.for_each (Seq.enumerate 1 (sorted_pizzas pizzas)) display_entry ;;;
   best <- lift (Seq.item (sorted_pizzas pizzas) 0) ;;
   print (Str.repeat "=" 70) ;;;
   print ("🍕 BEST VALUE: " ++ name best)%string ;;;
   print ("   You get " ++ Float.format_2f (value_ratio best)
            ++ " cm² per euro!")%string ;;;
   print (Str.repeat "=" 70))%io.
Proof. reflexivity. Qed.

Lemma display_results_ranked items items' :
  sorted_pizzas items = sorted_pizzas items' ->
  display_results items = display_results items'.
Proof. intros E. rewrite !display_results_unfold, E. reflexivity. Qed.

(** X18: ranking a ranking changes nothing: the list, its best pizza and
    the report are the same. *)
Theorem X18_ranking_idempotent (items : list Pizza) :
  ratios_numeric items ->
  sorted_pizzas (sorted_pizzas items) = sorted_pizzas items
  /\ find_best_pizza (sorted_pizzas items) = find_best_pizza items
  /\ display_results (sorted_pizzas items) = display_results items.
Proof.
  intros N.
  assert (E : sorted_pizzas (sorted_pizzas items) = sorted_pizzas items).
  { apply sorted_descending_id. apply sorted_descending. exact N. }
  split; [exact E|]. split.
  - rewrite (best_is_head items N).
    rewrite (best_is_head _ (sorted_pizzas_numeric items N)), E. reflexivity.
  - apply display_results_ranked. exact E.
Qed.

(** An instance of X18. *)
Lemma X18_ranking_idempotent_witness :
  sorted_pizzas (sorted_pizzas sample_items) = sorted_pizzas sample_items
  /\ find_best_pizza (sorted_pizzas sample_items) = find_best_pizza sample_items
  /\ display_results (sorted_pizzas sample_items) = display_results sample_items.
Proof.
  apply (X18_ranking_idempotent sample_items).
  unfold ratios_numeric, sample_items.
  repeat (apply Forall_cons; [vm_compute; reflexivity|]). apply Forall_nil.
Defined.

(** X19: when no two ratios are equal, the ranking, the best pizza and the
    report do not depend on the order of the input list. *)
Theorem X19_ranking_order_independent (items items' : list Pizza) :
  ratios_numeric items ->
  distinct_ratios items ->
  Permutation items items' ->
  sorted_pizzas items' = sorted_pizzas items
  /\ find_best_pizza items' = find_best_pizza items
  /\ display_results items' = display_results items.
Proof.
  intros N D P.
  assert (N' : ratios_numeric items')
    by (eapply Permutation_Forall; [exact P | exact N]).
  assert (E : sorted_pizzas items' = sorted_pizzas items).
  { symmetry. apply sorted_classes; try assumption.
    intros r. apply with_key_perm; assumption. }
  split; [exact E|]. split.
  - rewrite (best_is_head items N), (best_is_head items' N'), E. reflexivity.
  - apply display_results_ranked. exact E.
Qed.

(** An instance of X19. *)
Lemma X19_ranking_order_independent_witness :
  sorted_pizzas (rev distinct_items) = sorted_pizzas distinct_items
  /\ find_best_pizza (rev distinct_items) = find_best_pizza distinct_items
  /\ display_results (rev distinct_items) = display_results distinct_items.
Proof.
  apply (X19_ranking_order_independent distinct_items (rev distinct_items)).
  - unfold ratios_numeric, distinct_items.
    repeat (apply Forall_cons; [vm_compute; reflexivity|]). apply Forall_nil.
  - unfold distinct_ratios, distinct_items.
    repeat (apply FOP_cons;
            [repeat (apply Forall_cons; [vm_compute; reflexivity|]);
             apply Forall_nil|]).
    apply FOP_nil.
  - apply Permutation_rev.
Defined.

(** ** The report *)

Lemma entry_ok i p out :
  zero_area p = false ->
  display_entry (i, p) out = (inr tt, out ++ entry_lines i p).
Proof.
  intros H. unfold display_entry, io_bind, print, lift, Float.truediv.
  unfold zero_area in H. rewrite H. unfold ret, entry_lines.
  rewrite <- !app_assoc. reflexivity.
Qed.

Lemma entry_fail i p out :
  zero_area p = true ->
  display_entry (i, p) out
  = (inl ZeroDivisionError, out ++ firstn 4 (entry_lines i p)).
Proof.
  intros H. unfold display_entry, io_bind, print, lift, Float.truediv.
  unfold zero_area in H. rewrite H. unfold raise, entry_lines. cbn [firstn].
  rewrite <- !app_assoc. reflexivity.
Qed.

Lemma for_each_ok l : forall start out,
  existsb zero_area l = false ->
  Seq.for_each (Seq.enumerate start l) display_entry out
  = (inr tt, out ++ entries start l).
Proof.
  induction l as [|p l IH]; intros start out H.
  - simpl. unfold io_ret. rewrite app_nil_r. reflexivity.
  - simpl in H. apply orb_false_iff in H as [Hp Hl].
    cbn [Seq.enumerate Seq.for_each entries]. unfold io_bind at 1.
    rewrite entry_ok by exact Hp. rewrite IH by exact Hl.
    rewrite <- app_assoc. reflexivity.
Qed.

Lemma for_each_fail before p after : forall start out,
  existsb zero_area before = false -> zero_area p = true ->
  Seq.for_each (Seq.enumerate start (before ++ p :: after)) display_entry out
  = (inl ZeroDivisionError,
     out ++ entries start before
         ++ firstn 4 (entry_lines (start + Z.of_nat (List.length before)) p)).
Proof.
  induction before as [|b before IH]; intros start out Hb Hp.
  - cbn [app Seq.enumerate Seq.for_each entries List.length Z.of_nat].
    unfold io_bind. rewrite entry_fail by exact Hp. rewrite Z.add_0_r. reflexivity.
  - simpl in Hb. apply orb_false_iff in Hb as [Hb0 Hb].
    cbn [app Seq.enumerate Seq.for_each entries]. unfold io_bind at 1.
    rewrite entry_ok by exact Hb0. rewrite IH by assumption.
    replace (start + Z.of_nat (List.length (b :: before)))
      with (start + 1 + Z.of_nat (List.length before))
      by (cbn [List.length]; lia).
    rewrite <- !app_assoc. reflexivity.
Qed.

Lemma existsb_perm {A} (f : A -> bool) l l' :
  Permutation l l' -> existsb f l = existsb f l'.
Proof.
  induction 1 as [|x l l' _ IH|x y l|l l' l'' _ IH1 _ IH2]; simpl.
  - reflexivity.
  - rewrite IH. reflexivity.
  - destruct (f x), (f y); reflexivity.
  - congruence.
Qed.

Lemma existsb_first {A} (f : A -> bool) l :
  existsb f l = true ->
  exists before p after,
    l = before ++ p :: after /\ existsb f before = false /\ f p = true.
Proof.
  induction l as [|a l IH]; simpl; [discriminate|].
  destruct (f a) eqn:Ea.
  - intros _. exists [], a, l. repeat split; assumption.
  - simpl. intros H. destruct (IH H) as (before & p & after & -> & Hb & Hp).
    exists (a :: before), p, after. simpl. rewrite Ea. repeat split; assumption.
Qed.

Lemma entries_length l : forall start,
  List.length (entries start l) = (6 * List.length l)%nat.
Proof.
  induction l as [|p l IH]; intros start; [reflexivity|].
  cbn [entries]. rewrite length_app, IH. cbn [entry_lines List.length]. lia.
Qed.

Lemma entries_nth l : forall start i p,
  nth_error l i = Some p ->
  firstn 6 (skipn (6 * i) (entries start l))
  = entry_lines (start + Z.of_nat i) p.
Proof.
  induction l as [|a l IH]; intros start i p H; [destruct i; discriminate H|].
  destruct i as [|i].
  - injection H as ->. rewrite Z.add_0_r. reflexivity.
  - simpl in H. cbn [entries].
    replace (6 * S i)%nat with (6 * i + 6)%nat by lia.
    rewrite <- skipn_skipn.
    change (skipn 6 (entry_lines start a ++ entries (start + 1) l))
      with (entries (start + 1) l).
    rewrite (IH (start + 1) i p H). f_equal. lia.
Qed.

(** The run of [display_results] when no pizza has the area 0. *)
Lemma display_ok pizzas best rest out :
  sorted_pizzas pizzas = best :: rest ->
  existsb zero_area pizzas = false ->
  display_results pizzas out
  = (inr tt,
     out ++ heading_lines ++ entries 1 (best :: rest) ++ closing_lines best).
Proof.
  intros E Z. rewrite display_results_unfold, E.
  assert (Z' : existsb zero_area (best :: rest) = false).
  { rewrite <- E, <- Z. apply existsb_perm, sorted_perm. }
  unfold io_bind at 1 2 3 4 5. unfold print at 1 2 3 4.
  rewrite for_each_ok by exact Z'.
  unfold io_bind, print, lift. cbn [Seq.item nth_error ret].
  unfold heading_lines, closing_lines.
  rewrite <- !app_assoc. reflexivity.
Qed.

(** The run of [display_results] up to the first pizza of the ranking
    that has the area 0. *)
Lemma display_cut pizzas before p after out :
  sorted_pizzas pizzas = before ++ p :: after ->
  existsb zero_area before = false ->
  zero_area p = true ->
  display_results pizzas out
  = (inl ZeroDivisionError,
     out ++ heading_lines ++ entries 1 before
         ++ firstn 4 (entry_lines (1 + Z.of_nat (List.length before)) p)).
Proof.
  intros E Zb Zp. rewrite display_results_unfold, E.
  unfold io_bind at 1 2 3 4 5. unfold print at 1 2 3 4.
  rewrite for_each_fail by assumption.
  unfold heading_lines. rewrite <- !app_assoc. reflexivity.
Qed.

(** X20: how [display_results] ends: with [ZeroDivisionError] when a pizza
    has the area 0, else with [IndexError] on the empty list, else
    normally; it always prints the heading first and never takes back what
    was printed before, and when it ends normally it has printed six lines
    for each pizza and four closing lines. *)
Theorem X20_display_results_outcome (pizzas : list Pizza) (out : list string) :
  fst (display_results pizzas out)
  = (if existsb zero_area pizzas then inl ZeroDivisionError
     else match pizzas with
          | [] => inl IndexError
          | _ :: _ => inr tt
          end)
  /\ exists printed,
      snd (display_results pizzas out) = out ++ heading_lines ++ printed
      /\ (fst (display_results pizzas out) = inr tt ->
          List.length printed = (6 * List.length pizzas + 4)%nat).
Proof.
  pose proof (sorted_perm value_ratio true pizzas) as P.
  fold (sorted_pizzas pizzas) in P.
  destruct (existsb zero_area pizzas) eqn:Z.
  - rewrite (existsb_perm _ _ _ (Permutation_sym P)) in Z.
    destruct (existsb_first _ _ Z) as (before & p & after & E & Zb & Zp).
    rewrite (display_cut _ _ _ _ out E Zb Zp). cbn [fst snd].
    split; [reflexivity|]. eexists. split; [reflexivity|]. discriminate.
  - destruct (sorted_pizzas pizzas) as [|best rest] eqn:E.
    + apply Permutation_nil in P. subst pizzas.
      unfold display_results, io_bind, print, lift. simpl.
      split; [reflexivity|]. exists []. split; [|discriminate].
      unfold heading_lines. rewrite <- !app_assoc. reflexivity.
    + rewrite (display_ok _ _ _ out E Z). cbn [fst snd].
      split.
      * destruct pizzas; [|reflexivity].
        apply Permutation_sym, Permutation_nil in P. discriminate P.
      * eexists. split; [reflexivity|]. intros _.
        rewrite length_app, entries_length.
        rewrite (Permutation_length P). reflexivity.
Qed.

(** X21: when the ranking reaches a pizza with the area 0, the report
    stops inside the block of that pizza, after its "Value" line: the
    heading, the blocks of the pizzas ranked before it and four lines of
    its own block have been printed. *)
Theorem X21_display_results_cut_off
    (pizzas before after : list Pizza) (p : Pizza) (out : list string) :
  sorted_pizzas pizzas = before ++ p :: after ->
  existsb zero_area before = false ->
  zero_area p = true ->
  display_results pizzas out
  = (inl ZeroDivisionError,
     out ++ heading_lines ++ entries 1 before
         ++ firstn 4 (entry_lines (1 + Z.of_nat (List.length before)) p)).
Proof. apply display_cut. Qed.

(** An instance of X21. *)
Lemma X21_display_results_cut_off_witness :
  display_results zero_area_items []
  = (inl ZeroDivisionError,
     [] ++ heading_lines
        ++ entries 1 [mkPizza "A" 1%float 2%float 2%float]
        ++ firstn 4 (entry_lines
                       (1 + Z.of_nat (List.length [mkPizza "A" 1%float 2%float 2%float]))
                       (mkPizza "Z" 1%float 0%float 0%float))).
Proof.
  apply (X21_display_results_cut_off zero_area_items
           [mkPizza "A" 1%float 2%float 2%float] []
           (mkPizza "Z" 1%float 0%float 0%float) []);
    vm_compute; reflexivity.
Defined.

(** X22: when no pizza has the area 0, the report has 6 n + 8 lines, and
    the block of the pizza at the place [i] of the ranking (from 0) is the
    lines 4 + 6 i to 9 + 6 i: its number [i + 1] and name, its area, price,
    ratio and cost per 100 cm², and an empty line. *)
Theorem X22_display_results_blocks
    (pizzas : list Pizza) (out : list string) (i : nat) (p : Pizza) :
  existsb zero_area pizzas = false ->
  nth_error (sorted_pizzas pizzas) i = Some p ->
  exists printed,
    display_results pizzas out = (inr tt, out ++ printed)
    /\ List.length printed = (6 * List.length pizzas + 8)%nat
    /\ firstn 4 printed = heading_lines
    /\ firstn 6 (skipn (4 + 6 * i) printed)
       = entry_lines (Z.of_nat i + 1) p.
Proof.
  intros Z H.
  pose proof (sorted_perm value_ratio true pizzas) as P.
  fold (sorted_pizzas pizzas) in P.
  destruct (sorted_pizzas pizzas) as [|best rest] eqn:E;
    [destruct i; discriminate H|].
  rewrite (display_ok _ _ _ out E Z). eexists. split; [reflexivity|].
  split; [|split].
  - rewrite !length_app, entries_length, (Permutation_length P).
    cbn [heading_lines closing_lines List.length]. lia.
  - reflexivity.
  - replace (4 + 6 * i)%nat with (6 * i + 4)%nat by lia.
    rewrite <- skipn_skipn.
    change (skipn 4 (heading_lines ++ entries 1 (best :: rest) ++ closing_lines best))
      with (entries 1 (best :: rest) ++ closing_lines best).
    assert (L : (6 * i + 6 <= List.length (entries 1 (best :: rest)))%nat).
    { rewrite entries_length.
      assert (i < List.length (best :: rest))%nat
        by (apply nth_error_Some; congruence). lia. }
    rewrite skipn_app.
    replace (6 * i - List.length (entries 1 (best :: rest)))%nat with 0%nat by lia.
    rewrite skipn_O, firstn_app.
    replace (6 - List.length (skipn (6 * i) (entries 1 (best :: rest))))%nat
      with 0%nat by (rewrite length_skipn; lia).
    rewrite firstn_O, app_nil_r.
    rewrite (entries_nth _ 1 i p H). f_equal. lia.
Qed.

(** An instance of X22. *)
Lemma X22_display_results_blocks_witness :
  exists printed,
    display_results sample_items [] = (inr tt, [] ++ printed)
    /\ List.length printed = (6 * List.length sample_items + 8)%nat
    /\ firstn 4 printed = heading_lines
    /\ firstn 6 (skipn (4 + 6 * 1) printed)
       = entry_lines (Z.of_nat 1 + 1) (mkPizza "C" 2%float 6%float 3%float).
Proof.
  apply (X22_display_results_blocks sample_items [] 1
           (mkPizza "C" 2%float 6%float 3%float));
    vm_compute; reflexivity.
Defined.

(** X23: the pizza that the closing lines of the report name as the best
    value is the one [find_best_pizza] returns. *)
Theorem X23_display_results_names_best (pizzas : list Pizza) (out : list string) :
  pizzas <> [] ->
  ratios_numeric pizzas ->
  existsb zero_area pizzas = false ->
  exists best printed,
    find_best_pizza pizzas = inr best
    /\ display_results pizzas out = (inr tt, out ++ printed)
    /\ skipn (List.length printed - 4) printed = closing_lines best.
Proof.
  intros Hne N Z.
  pose proof (best_is_head pizzas N) as B.
  pose proof (sorted_perm value_ratio true pizzas) as P.
  fold (sorted_pizzas pizzas) in P.
  destruct (sorted_pizzas pizzas) as [|best rest] eqn:E.
  - apply Permutation_nil in P. contradiction.
  - exists best. eexists. split; [exact B|].
    rewrite (display_ok _ _ _ out E Z). split; [reflexivity|].
    rewrite !app_assoc.
    set (front := (heading_lines ++ entries 1 (best :: rest))).
    rewrite length_app. cbn [closing_lines List.length].
    replace (List.length front + 4 - 4)%nat with (List.length front + 0)%nat by lia.
    rewrite skipn_app, Nat.add_0_r, skipn_all.
    replace (List.length front - List.length front)%nat with 0%nat by lia.
    reflexivity.
Qed.

(** An instance of X23. *)
Lemma X23_display_results_names_best_witness :
  exists best printed,
    find_best_pizza sample_items = inr best
    /\ display_results sample_items [] = (inr tt, [] ++ printed)
    /\ skipn (List.length printed - 4) printed = closing_lines best.
Proof.
  apply (X23_display_results_names_best sample_items []).
  - discriminate.
  - unfold ratios_numeric, sample_items.
    repeat (apply Forall_cons; [vm_compute; reflexivity|]). apply Forall_nil.
  - vm_compute. reflexivity.
Defined.

(** ** More about the budget *)

(** X24: the budget lines raise [ZeroDivisionError] when the price is a
    zero, [ValueError] when the quotient is NaN, [OverflowError] when it is
    infinite, and return in every other case: the integer that [int]
    returns is always one that [float] takes back. *)
Theorem X24_budget_exceptions (budget : float) (best : Pizza) :
  (PrimFloat.eqb (price best) PrimFloat.zero = true ->
   budget_recommendation budget best = inl ZeroDivisionError)
  /\ (PrimFloat.eqb (price best) PrimFloat.zero = false ->
      PrimFloat.is_nan (PrimFloat.div budget (price best)) = true ->
      budget_recommendation budget best = inl ValueError)
  /\ (PrimFloat.eqb (price best) PrimFloat.zero = false ->
      PrimFloat.is_infinity (PrimFloat.div budget (price best)) = true ->
      budget_recommendation budget best = inl OverflowError)
  /\ (PrimFloat.eqb (price best) PrimFloat.zero = false ->
      PrimFloat.is_finite (PrimFloat.div budget (price best)) = true ->
      exists count n,
        Float.to_int (PrimFloat.div budget (price best)) = inr count
        /\ Float.of_int count = inr n
        /\ budget_recommendation budget best
           = inr (count, PrimFloat.mul n (area best),
                  PrimFloat.sub budget (PrimFloat.mul n (price best)))).
Proof.
  unfold budget_recommendation, Float.truediv.
  split; [intros ->; reflexivity|].
  split; [|split]; intros ->; cbn [bind ret].
  - rewrite is_nan_spec. unfold Float.to_int. intros ->. reflexivity.
  - rewrite is_infinity_spec. unfold Float.to_int.
    destruct (Prim2SF (PrimFloat.div budget (price best))); try discriminate.
    reflexivity.
  - rewrite is_finite_spec. intros F.
    destruct (Float.to_int (PrimFloat.div budget (price best))) as [e|count] eqn:E.
    + unfold Float.to_int in E.
      destruct (Prim2SF (PrimFloat.div budget (price best))); discriminate.
    + destruct (of_int_to_int _ _ E) as (n & En).
      exists count, n. cbn [bind]. rewrite En. cbn [bind]. auto.
Qed.

Lemma mul_zero_pos p :
  PrimFloat.ltb PrimFloat.zero p = true -> PrimFloat.is_infinity p = false ->
  PrimFloat.mul PrimFloat.zero p = PrimFloat.zero.
Proof.
  rewrite ltb_zero_spec, is_infinity_spec. intros Hp Hi.
  apply Prim2SF_inj. rewrite mul_spec, Prim2SF_zero.
  destruct (Prim2SF p) as [s|s| |s m e]; try discriminate;
    destruct s; try discriminate; reflexivity.
Qed.

Lemma sub_zero b :
  PrimFloat.is_nan b = false -> PrimFloat.sub b PrimFloat.zero = b.
Proof.
  rewrite not_nan_spec. intros Hb.
  apply Prim2SF_inj. rewrite sub_spec, Prim2SF_zero.
  destruct (Prim2SF b) as [s|s| |s m e]; try congruence;
    destruct s; reflexivity.
Qed.

(** X25: a budget of zero or more that is less than a finite price buys
    nothing: the count is 0, the total area is [0.0 * area] and the whole
    budget is left over, exactly. *)
Theorem X25_budget_below_price (budget : float) (best : Pizza) :
  PrimFloat.leb PrimFloat.zero budget = true ->
  PrimFloat.ltb budget (price best) = true ->
  PrimFloat.is_infinity (price best) = false ->
  budget_recommendation budget best
  = inr (0, PrimFloat.mul PrimFloat.zero (area best), budget).
Proof.
  intros Hb Hlt Hi.
  destruct (ltb_not_nan _ _ Hlt) as [Nb Np].
  assert (Hp : PrimFloat.ltb PrimFloat.zero (price best) = true).
  { assert (N0 : PrimFloat.is_nan PrimFloat.zero = false) by reflexivity.
    rewrite (leb_ltb _ _ N0 Nb) in Hb. apply negb_true_iff in Hb.
    float_order. }
  unfold budget_recommendation, Float.truediv.
  rewrite (pos_not_zero _ Hp). cbn [bind ret].
  rewrite (to_int_div_lt _ _ Hb Hlt). cbn [bind].
  change (Float.of_int 0) with (@inr exn float PrimFloat.zero). cbn [bind].
  rewrite (mul_zero_pos _ Hp Hi), (sub_zero _ Nb). reflexivity.
Qed.

(** An instance of X25. *)
Lemma X25_budget_below_price_witness :
  budget_recommendation 5%float (mkPizza "Large Pizza" 5.50%float 706%float 128%float)
  = inr (0, PrimFloat.mul PrimFloat.zero 706%float, 5%float).
Proof.
  apply (X25_budget_below_price 5%float
           (mkPizza "Large Pizza" 5.50%float 706%float 128%float));
    vm_compute; reflexivity.
Defined.

Section AtLeastOne.

(** Rounding a number that is at least one gives at least one. *)
Lemma binary_round_aux_ge_one M E l :
  0 < M -> (E <= 0 -> 2 ^ (- E) <= M) ->
  match binary_round_aux prec emax false M E l with
  | S754_finite false m e => e <= 0 -> 2 ^ (- e) <= Zpos m
  | S754_infinity false => True
  | _ => False
  end.
Proof.
  intros HM HV.
  destruct (Zdigits2_bounds M HM) as [B0 D0].
  assert (HD : 1 <= Zdigits2 M + E).
  { destruct (Z_le_gt_dec E 0) as [LE|GT]; [|lia].
    specialize (HV LE).
    destruct M as [|p|p]; try lia. cbn [Zdigits2] in *.
    pose proof (digits2_bounds p) as [_ U].
    destruct (Z_le_gt_dec 1 (Zpos (digits2_pos p) + E)); [assumption|].
    assert (2 ^ Zpos (digits2_pos p) <= 2 ^ (- E))
      by (apply Z.pow_le_mono_r; lia).
    lia. }
  unfold binary_round_aux, shr_fexp.
  set (n1 := fexp prec emax (Zdigits2 M + E) - E).
  pose proof (shr_value (shr_record_of_loc M l) E n1) as S1.
  rewrite shr_m_of_loc in S1. specialize (S1 ltac:(lia)).
  destruct (shr (shr_record_of_loc M l) E n1) as [mrs1 e1] eqn:Es1.
  cbn [fst snd] in S1. destruct S1 as [Se1 Sm1].
  set (k := Z.max n1 0) in *.
  assert (Hk : 0 <= k <= Zdigits2 M - 1)
    by (unfold k, n1, fexp, SpecFloat.emin, prec, emax; lia).
  pose proof (shifted_positive M _ HM Hk) as Hm1. rewrite <- Sm1 in Hm1.
  assert (PK : 0 < 2 ^ k) by (apply Z.pow_pos_nonneg; lia).
  assert (V1 : e1 <= 0 -> 2 ^ (- e1) <= shr_m mrs1).
  { intros L1. rewrite Sm1. apply Z.div_le_lower_bound; [exact PK|].
    rewrite <- Z.pow_add_r by lia.
    replace (k + - e1) with (- E) by lia. apply HV. lia. }
  set (mr := round_nearest_even (shr_m mrs1) (loc_of_shr_record mrs1)).
  assert (Hmr : shr_m mrs1 <= mr).
  { pose proof (round_nearest_even_bounds (shr_m mrs1) (loc_of_shr_record mrs1))
      as [Lr _]. exact Lr. }
  clearbody mr.
  assert (Hmr0 : 0 < mr) by lia.
  destruct (Zdigits2_bounds mr Hmr0) as [_ D1].
  set (n2 := fexp prec emax (Zdigits2 mr + e1) - e1).
  pose proof (shr_value (shr_record_of_loc mr loc_Exact) e1 n2) as S2.
  cbn [shr_record_of_loc shr_m] in S2. specialize (S2 ltac:(lia)).
  cbn [shr_record_of_loc].
  destruct (shr (Build_shr_record mr false false) e1 n2) as [mrs2 e2].
  cbn [fst snd] in S2. destruct S2 as [Se2 Sm2].
  set (j := Z.max n2 0) in *.
  assert (He1 : -1074 <= e1)
    by (unfold k, n1, fexp, SpecFloat.emin, prec, emax in *; lia).
  assert (Hj : 0 <= j <= Zdigits2 mr - 1)
    by (unfold j, n2, fexp, SpecFloat.emin, prec, emax; lia).
  pose proof (shifted_positive mr _ Hmr0 Hj) as Hm2. rewrite <- Sm2 in Hm2.
  assert (PJ : 0 < 2 ^ j) by (apply Z.pow_pos_nonneg; lia).
  assert (V2 : e2 <= 0 -> 2 ^ (- e2) <= shr_m mrs2).
  { intros L2. rewrite Sm2. apply Z.div_le_lower_bound; [exact PJ|].
    rewrite <- Z.pow_add_r by lia.
    replace (j + - e2) with (- e1) by lia.
    specialize (V1 ltac:(lia)). lia. }
  destruct (shr_m mrs2) as [|p|p]; try lia.
  destruct (e2 <=? emax - prec); [exact V2 | exact I].
Qed.

(** The quotient of a float by a positive float that is not greater is at
    least one. *)
Lemma SFdiv_ge_one mb eb mp ep :
  bounded prec emax mb eb = true -> bounded prec emax mp ep = true ->
  SFleb (S754_finite false mp ep) (S754_finite false mb eb) = true ->
  match SF64div (S754_finite false mb eb) (S754_finite false mp ep) with
  | S754_finite false m e => e <= 0 -> 2 ^ (- e) <= Zpos m
  | S754_infinity false => True
  | _ => False
  end.
Proof.
  intros Vb Vp Hle.
  destruct (bounded_digits _ _ Vb) as (Db & Nb & Rb).
  destruct (bounded_digits _ _ Vp) as (Dp & Np & Rp).
  pose proof (digits2_bounds mb) as Bb. pose proof (digits2_bounds mp) as Bp.
  assert (Hord : ep < eb \/ (ep = eb /\ Zpos mp <= Zpos mb)).
  { revert Hle. unfold SFleb, SFcompare.
    change (Pos.compare_cont Eq mp mb) with (Pos.compare mp mb).
    destruct (Z.compare_spec ep eb); [destruct (Pos.compare_spec mp mb)|..];
      intros; try discriminate; lia. }
  set (g := eb - ep).
  assert (Hg : 0 <= g) by (unfold g; lia).
  assert (Pg : 0 < 2 ^ g) by (apply Z.pow_pos_nonneg; lia).
  assert (Key : Zpos mp <= Zpos mb * 2 ^ g).
  { destruct Hord as [Hlt|[Ee Hm]].
    - rewrite (Nb ltac:(lia)) in Bb.
      assert (Zpos mp < 2 ^ 53).
      { eapply Z.lt_le_trans; [apply Bp|]. apply Z.pow_le_mono_r; lia. }
      assert (2 ^ 1 <= 2 ^ g) by (apply Z.pow_le_mono_r; unfold g; lia).
      change (2 ^ (53 - 1)) with 4503599627370496 in Bb.
      change (2 ^ 53) with 9007199254740992 in *.
      change (2 ^ 1) with 2 in *. nia.
    - replace g with 0 by (unfold g; lia). rewrite Z.pow_0_r. lia. }
  unfold SF64div, SFdiv, SFdiv_core_binary. cbn [Zdigits2 xorb].
  set (db := Zpos (digits2_pos mb)) in *. set (dp := Zpos (digits2_pos mp)) in *.
  set (E := Z.min (fexp prec emax (db + eb - (dp + ep))) (eb - ep)).
  set (s := eb - ep - E).
  assert (Hs : 0 <= s) by (unfold s, E; lia).
  set (m' := match s with
             | 0 => Z.pos mb
             | Z.pos _ => Z.shiftl (Z.pos mb) s
             | Z.neg _ => 0
             end).
  assert (Em' : m' = Zpos mb * 2 ^ s).
  { unfold m'. destruct s as [|k|k] eqn:Es; try lia.
    rewrite Z.shiftl_mul_pow2 by lia. reflexivity. }
  clearbody m'.
  assert (Ps : 0 < 2 ^ s) by (apply Z.pow_pos_nonneg; lia).
  pose proof (Z_div_mod m' (Zpos mp) ltac:(lia)) as Hdm.
  destruct (Z.div_eucl m' (Z.pos mp)) as [q r]. destruct Hdm as [Eqr Hr].
  assert (Hq : 0 < q).
  { assert (Zpos mp <= m'); [|nia].
    rewrite Em'. destruct (Z_le_gt_dec E 0) as [LE|GT].
    - assert (2 ^ g <= 2 ^ s) by (apply Z.pow_le_mono_r; unfold g, s; lia). nia.
    - assert (S53 : 53 - db + dp <= s)
        by (unfold s, E, fexp, SpecFloat.emin, prec, emax in *; lia).
      assert (P1 : 2 ^ (53 - db + dp) <= 2 ^ s) by (apply Z.pow_le_mono_r; lia).
      assert (P2 : 2 ^ (db - 1) * 2 ^ (53 - db + dp) = 2 ^ 52 * 2 ^ dp).
      { rewrite <- !Z.pow_add_r by lia. f_equal. lia. }
      assert (P3 : 0 < 2 ^ (53 - db + dp)) by (apply Z.pow_pos_nonneg; lia).
      assert (P4 : 0 < 2 ^ dp) by (apply Z.pow_pos_nonneg; lia).
      change (2 ^ 52) with 4503599627370496 in P2. nia. }
  apply binary_round_aux_ge_one; [exact Hq|].
  intros LE.
  assert (Es : 2 ^ s = 2 ^ g * 2 ^ (- E))
    by (rewrite <- Z.pow_add_r by lia; f_equal; unfold s, g; lia).
  assert (PE : 0 < 2 ^ (- E)) by (apply Z.pow_pos_nonneg; lia).
  assert (Hm : Zpos mp * 2 ^ (- E) <= m') by (rewrite Em', Es; nia).
  nia.
Qed.

(** [int(b / p)] is at least 1 when the price [p] is positive and not
    greater than the budget [b]. *)
Lemma to_int_div_ge b p :
  PrimFloat.ltb PrimFloat.zero p = true ->
  PrimFloat.leb p b = true ->
  PrimFloat.is_finite (PrimFloat.div b p) = true ->
  exists z, Float.to_int (PrimFloat.div b p) = inr z /\ 1 <= z.
Proof.
  rewrite ltb_zero_spec, leb_spec, is_finite_spec. unfold Float.to_int.
  rewrite div_spec.
  pose proof (Prim2SF_valid b) as Vb. pose proof (Prim2SF_valid p) as Vp.
  destruct (Prim2SF p) as [sp|[]| |[] mp ep]; try discriminate;
    destruct (Prim2SF b) as [sb|[]| |[] mb eb]; try discriminate;
    intros _ Hle F; try discriminate.
  pose proof (SFdiv_ge_one mb eb mp ep Vb Vp Hle) as H.
  destruct (SF64div _ _) as [s|[]| |[] m e]; try contradiction; try discriminate.
  eexists. split; [reflexivity|]. cbn [cond_Zopp].
  destruct (Z.leb_spec 0 e) as [He|He].
  - assert (0 < 2 ^ e) by (apply Z.pow_pos_nonneg; lia). nia.
  - specialize (H ltac:(lia)).
    apply Z.div_le_lower_bound; [apply Z.pow_pos_nonneg; lia | lia].
Qed.

End AtLeastOne.

(** X26: a budget that is not less than a positive price buys at least one
    pizza. *)
Theorem X26_budget_covers_price (budget : float) (best : Pizza) :
  PrimFloat.ltb PrimFloat.zero (price best) = true ->
  PrimFloat.leb (price best) budget = true ->
  PrimFloat.is_finite (PrimFloat.div budget (price best)) = true ->
  exists count total leftover,
    budget_recommendation budget best = inr (count, total, leftover)
    /\ 1 <= count.
Proof.
  intros Hp Hle F.
  destruct (to_int_div_ge _ _ Hp Hle F) as (z & Ez & Hz).
  destruct (of_int_to_int _ _ Ez) as (n & En).
  unfold budget_recommendation, Float.truediv.
  rewrite (pos_not_zero _ Hp). cbn [bind ret]. rewrite Ez. cbn [bind].
  rewrite En. cbn [bind]. do 3 eexists. split; [reflexivity | exact Hz].
Qed.

(** An instance of X26. *)
Lemma X26_budget_covers_price_witness :
  exists count total leftover,
    budget_recommendation 0.07%float (mkPizza "Slice" 0.07%float 1%float 1%float)
    = inr (count, total, leftover)
    /\ 1 <= count.
Proof.
  apply (X26_budget_covers_price 0.07%float (mkPizza "Slice" 0.07%float 1%float 1%float));
    vm_compute; reflexivity.
Defined.

(** * Areas and ratios in the range of the normal numbers *)

(** ** The shape of a rounded number *)

Section Shape.

Lemma Zdigits2_unique M k : 0 < k -> 2 ^ (k - 1) <= M < 2 ^ k -> Zdigits2 M = k.
Proof.
  intros Hk [L U].
  assert (P : 0 < 2 ^ (k - 1)) by (apply Z.pow_pos_nonneg; lia).
  assert (HM : 0 < M) by lia.
  pose proof (Zdigits2_le M k ltac:(lia) ltac:(lia)) as H1.
  destruct M as [|p|p]; try lia. cbn [Zdigits2] in *.
  pose proof (digits2_ge p (k - 1) L). lia.
Qed.

Lemma fexp_spec x : fexp prec emax x = Z.max (x - 53) (-1074).
Proof. reflexivity. Qed.

(** What rounding does to a positive magnitude [M * 2^E] that has not
    fewer digits than the format keeps: with [F] the exponent of the
    format at that magnitude and [q] the digits of [M] above it, the
    result is [q] or [q + 1] at the exponent [F], a float of the format,
    or an infinity when [F] is beyond the greatest exponent. *)
Lemma binary_round_aux_shape s M E l :
  0 < M ->
  E <= fexp prec emax (Zdigits2 M + E) ->
  match binary_round_aux prec emax s M E l with
  | S754_zero s' =>
      s' = s /\ M / 2 ^ (fexp prec emax (Zdigits2 M + E) - E) = 0
  | S754_finite s' m e =>
      s' = s /\ bounded prec emax m e = true
      /\ fexp prec emax (Zdigits2 M + E) <= e <= fexp prec emax (Zdigits2 M + E) + 1
      /\ M / 2 ^ (fexp prec emax (Zdigits2 M + E) - E)
         <= Zpos m * 2 ^ (e - fexp prec emax (Zdigits2 M + E))
         <= M / 2 ^ (fexp prec emax (Zdigits2 M + E) - E) + 1
  | S754_infinity s' => s' = s /\ 971 <= fexp prec emax (Zdigits2 M + E)
  | S754_nan => False
  end.
Proof.
  intros HM HE.
  destruct (Zdigits2_bounds M HM) as [LM D0].
  assert (UM : M < 2 ^ Zdigits2 M).
  { destruct M as [|p|p]; try lia. cbn [Zdigits2]. apply digits2_bounds. }
  set (D := Zdigits2 M) in *.
  set (F := fexp prec emax (D + E)) in *.
  assert (HF : F = Z.max (D + E - 53) (-1074)) by reflexivity.
  unfold binary_round_aux, shr_fexp. fold D. fold F.
  pose proof (shr_value (shr_record_of_loc M l) E (F - E)) as S1.
  rewrite shr_m_of_loc in S1. specialize (S1 ltac:(lia)).
  destruct (shr (shr_record_of_loc M l) E (F - E)) as [mrs1 e1].
  cbn [fst snd] in S1. destruct S1 as [Se1 Sm1].
  rewrite Z.max_l in Se1, Sm1 by lia.
  assert (Ee1 : e1 = F) by lia. clear Se1. subst e1.
  set (q := M / 2 ^ (F - E)) in *.
  assert (Pn : 0 < 2 ^ (F - E)) by (apply Z.pow_pos_nonneg; lia).
  assert (Hq0 : 0 <= q) by (apply Z.div_pos; lia).
  assert (Hq1 : q < 2 ^ 53).
  { apply Z.div_lt_upper_bound; [exact Pn|].
    rewrite <- Z.pow_add_r by lia.
    eapply Z.lt_le_trans; [exact UM|]. apply Z.pow_le_mono_r; lia. }
  assert (Hq2 : -1074 < F -> 2 ^ 52 <= q).
  { intros HN. apply Z.div_le_lower_bound; [exact Pn|].
    rewrite <- Z.pow_add_r by lia.
    eapply Z.le_trans; [|exact LM]. apply Z.pow_le_mono_r; lia. }
  set (mr := round_nearest_even (shr_m mrs1) (loc_of_shr_record mrs1)).
  assert (Hmr : q <= mr <= q + 1).
  { pose proof (round_nearest_even_bounds (shr_m mrs1) (loc_of_shr_record mrs1))
      as [Lr Ur]. fold mr in Lr, Ur. rewrite Sm1 in Lr, Ur.
    assert (inexact (loc_of_shr_record mrs1) <= 1)
      by (destruct (loc_of_shr_record mrs1); simpl; lia).
    lia. }
  clearbody mr. clear Sm1 mrs1.
  set (n2 := fexp prec emax (Zdigits2 mr + F) - F).
  pose proof (shr_value (shr_record_of_loc mr loc_Exact) F n2) as S2.
  cbn [shr_record_of_loc shr_m] in S2. specialize (S2 ltac:(lia)).
  cbn [shr_record_of_loc].
  destruct (shr (Build_shr_record mr false false) F n2) as [mrs2 e2].
  cbn [fst snd] in S2. destruct S2 as [Se2 Sm2].
  change (2 ^ 53) with 9007199254740992 in *.
  change (2 ^ 52) with 4503599627370496 in *.
  destruct (Z.eq_dec mr 0) as [Z0|NZ].
  - (* the rounded mantissa is 0 *)
    subst mr. cbn [Zdigits2] in n2.
    assert (Hn2 : Z.max n2 0 = 0) by (unfold n2; rewrite fexp_spec; lia).
    rewrite Hn2 in *. rewrite Z.pow_0_r, Z.div_1_r in Sm2. rewrite Sm2.
    split; [reflexivity | lia].
  - destruct (Z_lt_le_dec mr 9007199254740992) as [Lt|Ge].
    + (* it has at most 53 digits *)
      assert (Dr : Zdigits2 mr <= 53)
        by (apply Zdigits2_le; [lia|]; change (2 ^ 53) with 9007199254740992; lia).
      assert (Hn2 : Z.max n2 0 = 0) by (unfold n2; rewrite fexp_spec; lia).
      rewrite Hn2 in *. rewrite Z.pow_0_r, Z.div_1_r in Sm2. rewrite Sm2.
      rewrite Z.add_0_r in Se2. subst e2.
      destruct mr as [|p|p]; try lia.
      destruct (Z.leb_spec F (emax - prec)) as [Le|Gt].
      * split; [reflexivity|]. split; [|split; [lia|]].
        -- unfold bounded, canonical_mantissa.
           apply andb_true_iff. split; [apply Z.eqb_eq | apply Z.leb_le; exact Le].
           cbn [Zdigits2] in Dr. rewrite fexp_spec.
           destruct (Z_lt_le_dec (-1074) F) as [HN|HS]; [|lia].
           specialize (Hq2 HN).
           pose proof (digits2_ge p 52 ltac:(change (2 ^ 52) with 4503599627370496; lia)).
           lia.
        -- rewrite Z.sub_diag, Z.pow_0_r. lia.
      * split; [reflexivity|]. unfold emax, prec in Gt. lia.
    + (* it is 2^53 *)
      assert (Er : mr = 9007199254740992) by lia. subst mr.
      change (Zdigits2 9007199254740992) with 54 in n2.
      assert (Hn2 : n2 = 1) by (unfold n2; rewrite fexp_spec; lia).
      rewrite Hn2 in *. change (Z.max 1 0) with 1 in *.
      change (9007199254740992 / 2 ^ 1) with 4503599627370496 in Sm2.
      rewrite Sm2. subst e2.
      destruct (Z.leb_spec (F + 1) (emax - prec)) as [Le|Gt].
      * split; [reflexivity|]. split; [|split; [lia|]].
        -- unfold bounded, canonical_mantissa.
           apply andb_true_iff. split; [apply Z.eqb_eq | apply Z.leb_le; exact Le].
           change (Zpos (digits2_pos 4503599627370496)) with 53.
           rewrite fexp_spec. lia.
        -- replace (F + 1 - F) with 1 by lia. change (2 ^ 1) with 2. lia.
      * split; [reflexivity|]. unfold emax, prec in Gt. lia.
Qed.


End Shape.

(** ** Sizes and prices in a range *)

Section Ranges.

Lemma SFabove_weaken k k' f : k' <= k -> SFabove k f -> SFabove k' f.
Proof.
  intros H [E|(m & e & E & B & L)]; [left; exact E|].
  right. exists m, e. repeat split; try assumption. lia.
Qed.

Lemma above_of_leb k x :
  valid_binary x = true ->
  SFleb (S754_finite false 4503599627370496 k) x = true -> SFabove k x.
Proof.
  intros V H. destruct (SFleb_exponent _ _ _ H) as [E|(m & e & E & L)].
  - left. exact E.
  - right. exists m, e. subst x. repeat split; assumption.
Qed.

Lemma leb_of_above k x :
  -1074 < k -> SFabove k x ->
  SFleb (S754_finite false 4503599627370496 k) x = true.
Proof.
  intros Hk [->|(m & e & -> & B & L)]; [reflexivity|].
  destruct (bounded_digits _ _ B) as (_ & N & _).
  pose proof (digits2_bounds m) as [Lm _]. rewrite N in Lm by lia.
  change (2 ^ (53 - 1)) with 4503599627370496 in Lm.
  unfold SFleb, SFcompare.
  change (Pos.compare_cont Eq 4503599627370496 m)
    with (Pos.compare 4503599627370496 m).
  destruct (Z.compare_spec k e); [|reflexivity|lia].
  destruct (Pos.compare_spec 4503599627370496 m) as [|?|Hlt]; try reflexivity.
  apply Pos2Z.pos_lt_pos in Hlt. lia.
Qed.

Lemma above_pos k x : SFabove k x -> SFpos x = true.
Proof. intros [->|(m & e & -> & _)]; reflexivity. Qed.

(** The product of two floats with exponents of at least [k1] and [k2]. *)
Lemma SFmul_above k1 k2 x y :
  -1074 < k1 -> -1074 < k2 -> -1126 <= k1 + k2 ->
  SFabove k1 x -> SFabove k2 y ->
  SFabove (k1 + k2 + 52) (SF64mul x y).
Proof.
  intros H1 H2 H12 [->|(m1 & e1 & -> & B1 & L1)] [->|(m2 & e2 & -> & B2 & L2)];
    try (left; reflexivity).
  unfold SF64mul, SFmul. cbn [xorb].
  destruct (bounded_digits _ _ B1) as (_ & N1 & _).
  destruct (bounded_digits _ _ B2) as (_ & N2 & _).
  pose proof (digits2_bounds m1) as [Lm1 _]. rewrite N1 in Lm1 by lia.
  pose proof (digits2_bounds m2) as [Lm2 _]. rewrite N2 in Lm2 by lia.
  change (2 ^ (53 - 1)) with 4503599627370496 in Lm1, Lm2.
  assert (D : 104 < Zpos (digits2_pos (m1 * m2))).
  { apply digits2_ge. rewrite Pos2Z.inj_mul.
    change (2 ^ 104) with (4503599627370496 * 4503599627370496). nia. }
  pose proof (binary_round_aux_shape false (Zpos (m1 * m2)) (e1 + e2) loc_Exact
                ltac:(lia)) as S.
  pose proof (binary_round_aux_nonzero false (Zpos (m1 * m2)) (e1 + e2) loc_Exact
                ltac:(lia)) as Z.
  cbn [Zdigits2] in S, Z. rewrite fexp_spec in S.
  specialize (S ltac:(lia)). specialize (Z ltac:(lia)).
  destruct (binary_round_aux prec emax false (Zpos (m1 * m2)) (e1 + e2) loc_Exact)
    as [s|s| |s m e]; try contradiction.
  - left. subst s. reflexivity.
  - destruct S as (-> & B & Le & _). right. exists m, e.
    repeat split; try assumption. lia.
Qed.

Lemma mul_above k1 k2 x y :
  -1074 < k1 -> -1074 < k2 -> -1126 <= k1 + k2 ->
  SFabove k1 (Prim2SF x) -> SFabove k2 (Prim2SF y) ->
  SFabove (k1 + k2 + 52) (Prim2SF (PrimFloat.mul x y)).
Proof. rewrite mul_spec. apply SFmul_above. Qed.

Lemma half_above k d :
  -588 <= k -> SFabove k (Prim2SF d) ->
  SFabove (k - 1) (Prim2SF (PrimFloat.div d 2%float)).
Proof.
  rewrite div_spec. intros Hk [->|(m & e & -> & B & L)]; [left; reflexivity|].
  destruct (SFhalf_range m e B ltac:(lia)) as [-> B'].
  right. exists m, (e - 1). repeat split; try assumption. lia.
Qed.

Lemma pi_above : SFabove (-51) (Prim2SF Float.pi).
Proof. right. exists 7074237752028440%positive, (-51). repeat split. lia. Qed.

(** The area of a circle whose radius has an exponent of at least -302. *)
Lemma circle_above r a :
  SFabove (-302) (Prim2SF r) ->
  (sq <- Float.pow2 r ;; ret (PrimFloat.mul Float.pi sq))%py = inr a ->
  SFabove (-552) (Prim2SF a).
Proof.
  intros Hr. unfold Float.pow2. cbv zeta.
  destruct (_ && _); cbn [bind raise ret]; [discriminate|].
  intros [= <-].
  apply SFabove_weaken with (-51 + (-302 + -302 + 52) + 52); [lia|].
  apply mul_above; try lia; [apply pi_above|].
  apply mul_above; try lia; exact Hr.
Qed.

(** Half of a positive integer, rounded. *)
Lemma SF64of_ratio_half_above p :
  match Float.SF64of_ratio false p 2 with
  | S754_finite s m e => s = false /\ bounded prec emax m e = true /\ -53 <= e
  | S754_infinity s => s = false
  | _ => False
  end.
Proof.
  unfold Float.SF64of_ratio, SFdiv_core_binary. cbn [Zdigits2].
  change (Zpos (digits2_pos 2)) with 2.
  pose proof (digits2_bounds p) as [Lp Up].
  set (d := Zpos (digits2_pos p)) in *.
  assert (Hd : 0 < d) by (unfold d; lia).
  rewrite fexp_spec.
  set (e' := Z.min (Z.max (d + 0 - (2 + 0) - 53) (-1074)) (0 - 0)).
  set (s := 0 - 0 - e').
  assert (Hs : 0 <= s /\ 55 <= d + s /\ s + e' = 0) by (unfold s, e'; lia).
  set (m' := match s with
             | 0 => Z.pos p
             | Z.pos _ => Z.shiftl (Z.pos p) s
             | Z.neg _ => 0
             end).
  assert (Em' : m' = Zpos p * 2 ^ s).
  { unfold m'. destruct s as [|k|k] eqn:Es; try lia.
    rewrite Z.shiftl_mul_pow2 by lia. reflexivity. }
  clearbody m'.
  pose proof (Z_div_mod m' 2 ltac:(lia)) as Hdm.
  destruct (Z.div_eucl m' 2) as [q r]. destruct Hdm as [Eqr Hr].
  assert (Ps : 0 < 2 ^ s) by (apply Z.pow_pos_nonneg; lia).
  assert (Pt : 0 < 2 ^ (d + s - 1 - 1)) by (apply Z.pow_pos_nonneg; lia).
  assert (E1 : 2 ^ (d + s - 1) = 2 * 2 ^ (d + s - 1 - 1)).
  { rewrite <- Z.pow_succ_r by lia. f_equal. lia. }
  assert (E0 : 2 ^ (d - 1) * 2 ^ s = 2 ^ (d + s - 1)).
  { rewrite <- Z.pow_add_r by lia. f_equal. lia. }
  assert (E2 : 2 ^ d * 2 ^ s = 2 * 2 ^ (d + s - 1)).
  { rewrite <- Z.pow_add_r, <- Z.pow_succ_r by lia. f_equal. lia. }
  assert (B2 : 2 ^ (d + s - 1 - 1) <= q < 2 ^ (d + s - 1)) by nia.
  assert (Dq : Zdigits2 q = d + s - 1) by (apply Zdigits2_unique; [lia | exact B2]).
  assert (Q0 : 0 < q) by lia.
  pose proof (binary_round_aux_shape false q e' (new_location 2 r) Q0) as S.
  pose proof (binary_round_aux_nonzero false q e' (new_location 2 r) Q0) as Z.
  rewrite Dq in S, Z. rewrite fexp_spec in S.
  specialize (S ltac:(lia)). specialize (Z ltac:(lia)).
  destruct (binary_round_aux prec emax false q e' (new_location 2 r))
    as [s0|s0| |s0 m e]; try contradiction.
  - exact Z.
  - destruct S as (-> & B & Le & _). repeat split; try assumption. lia.
Qed.

Lemma int_truediv_above n r :
  0 < n -> Float.int_truediv n 2 = inr r -> SFabove (-53) (Prim2SF r).
Proof.
  intros Hn. unfold Float.int_truediv. destruct n as [|p|p]; try lia.
  pose proof (SF64of_ratio_half_above p) as H.
  destruct (Float.SF64of_ratio false p 2) as [s|s| |s m e];
    try contradiction; try discriminate.
  destruct H as (-> & B & L). intros Hr.
  assert (Er : r = SF2Prim (S754_finite false m e))
    by (injection Hr as Hr; symmetry; exact Hr).
  rewrite Er, Prim2SF_SF2Prim by exact B.
  right. exists m, e. repeat split; assumption.
Qed.

Lemma least_side_spec :
  Prim2SF least_side = S754_finite false 4503599627370496 (-301).
Proof. reflexivity. Qed.

Lemma side_above x :
  PrimFloat.leb least_side x = true -> SFabove (-301) (Prim2SF x).
Proof.
  rewrite leb_spec, least_side_spec. apply above_of_leb, Prim2SF_valid.
Qed.

(** The area of a size in the range is at least 2^-500. *)
Lemma area_in_range size a :
  size_in_range size = true ->
  _calculate_area size = inr a ->
  PrimFloat.leb least_area a = true.
Proof.
  intros Hs Ha. rewrite leb_spec, least_area_spec.
  apply leb_of_above; [lia|]. revert Hs Ha.
  destruct size as [n|x|s]; unfold size_in_range, _calculate_area.
  - intros Hn. apply Z.ltb_lt in Hn.
    destruct (Float.int_truediv n 2) as [e|r] eqn:E; cbn [bind]; [discriminate|].
    apply circle_above. apply SFabove_weaken with (-53); [lia|].
    eapply int_truediv_above; eassumption.
  - intros Hx. rewrite truediv_2. cbn [bind].
    apply circle_above. apply (half_above (-301)); [lia|]. apply side_above, Hx.
  - fold (normalize s). destruct (Str.contains "x" (normalize s)).
    + destruct (Str.split "x" (normalize s)) as [|p0 [|p1 rest]];
        try discriminate.
      cbn [Seq.item nth_error bind ret].
      destruct (Float.of_str (Str.strip p0)) as [e|w]; [discriminate|].
      destruct (Float.of_str (Str.strip p1)) as [e|h]; [discriminate|].
      cbn [bind]. rewrite andb_true_iff.
      intros [Hw Hh] [= <-].
      apply SFabove_weaken with (-301 + -301 + 52); [lia|].
      apply mul_above; try lia; apply side_above; assumption.
    + destruct (Float.of_str (normalize s)) as [e|d]; [discriminate|].
      cbn [bind]. intros Hd.
      rewrite truediv_2. cbn [bind].
      apply circle_above. apply (half_above (-301)); [lia|]. apply side_above, Hd.
Qed.

(** The quotient of an area of at least 2^-500 by a positive price of at
    most 2^500 is positive. *)
Lemma div_pos_range a pr :
  PrimFloat.leb least_area a = true ->
  PrimFloat.ltb PrimFloat.zero pr = true ->
  PrimFloat.leb pr greatest_price = true ->
  PrimFloat.ltb PrimFloat.zero (PrimFloat.div a pr) = true.
Proof.
  intros Ha Hp Hg.
  rewrite leb_spec, least_area_spec in Ha.
  rewrite leb_spec, greatest_price_spec in Hg.
  rewrite ltb_zero_spec in Hp.
  rewrite ltb_zero_spec, div_spec.
  pose proof (Prim2SF_valid a) as Va. pose proof (Prim2SF_valid pr) as Vp.
  destruct (SFleb_exponent_below _ _ _ Hp Hg) as (mp & ep & Ep & Lp).
  rewrite Ep in *.
  destruct (SFleb_exponent _ _ _ Ha) as [Ea|(ma & ea & Ea & La)]; rewrite Ea in *.
  - reflexivity.
  - apply SFdiv_pos_range; assumption.
Qed.

Lemma nonneg_not_pos_zero x :
  PrimFloat.leb PrimFloat.zero x = true ->
  PrimFloat.ltb PrimFloat.zero x = false ->
  PrimFloat.eqb x PrimFloat.zero = true.
Proof.
  rewrite leb_zero_spec, ltb_zero_spec, eqb_zero_spec.
  destruct (Prim2SF x) as [[]|[]| |[] m e]; simpl; congruence.
Qed.

End Ranges.

(** C7, as the code has it: for a size in the range (a positive integer
    diameter, a float or text diameter of at least 2^-249, or a width and
    a height of at least 2^-249) and a price from 0 to 2^500, the area of
    the pizza is positive, its ratio is zero or more, and the ratio is 0
    exactly when the price is 0. *)
Theorem C7_item_invariants (nm : string) (size : size_descriptor)
    (pr : float) (p : Pizza) :
  size_in_range size = true ->
  PrimFloat.leb PrimFloat.zero pr = true ->
  PrimFloat.leb pr greatest_price = true ->
  __init__ nm size pr = inr p ->
  PrimFloat.ltb PrimFloat.zero (area p) = true
  /\ PrimFloat.leb PrimFloat.zero (value_ratio p) = true
  /\ PrimFloat.eqb (value_ratio p) PrimFloat.zero
     = PrimFloat.eqb pr PrimFloat.zero.
Proof.
  intros Hs Hpr Hg. unfold __init__.
  destruct (_calculate_area size) as [e|a] eqn:Ea; cbn [bind]; [discriminate|].
  pose proof (area_in_range _ _ Hs Ea) as Ha.
  assert (Pa : PrimFloat.ltb PrimFloat.zero a = true).
  { rewrite ltb_zero_spec. apply (above_pos (-552)).
    rewrite leb_spec, least_area_spec in Ha.
    apply above_of_leb; [apply Prim2SF_valid | exact Ha]. }
  destruct (PrimFloat.ltb PrimFloat.zero pr) eqn:Hp.
  - unfold Float.truediv. rewrite (pos_not_zero _ Hp). cbn [bind ret].
    intros [= <-]. cbn [area value_ratio].
    pose proof (div_pos_range a pr Ha Hp Hg) as Hr.
    split; [exact Pa|]. split.
    + rewrite leb_zero_spec. apply SFpos_nonneg. rewrite <- ltb_zero_spec. exact Hr.
    + rewrite (pos_not_zero _ Hr). reflexivity.
  - cbn [bind ret]. intros [= <-]. cbn [area value_ratio].
    split; [exact Pa|]. split; [reflexivity|].
    rewrite (nonneg_not_pos_zero _ Hpr Hp). reflexivity.
Qed.

(** An instance of C7: the small pizza of [main]. *)
Lemma C7_item_invariants_witness :
  exists p,
    __init__ "Small Pizza" (SizeStr "26cm") 4.80%float = inr p
    /\ PrimFloat.ltb PrimFloat.zero (area p) = true
    /\ PrimFloat.leb PrimFloat.zero (value_ratio p) = true
    /\ PrimFloat.eqb (value_ratio p) PrimFloat.zero
       = PrimFloat.eqb 4.80%float PrimFloat.zero.
Proof.
  eexists. split; [vm_compute; reflexivity|].
  apply (C7_item_invariants "Small Pizza" (SizeStr "26cm") 4.80%float);
    vm_compute; reflexivity.
Defined.

(** ** Powers of 2 as real numbers *)

Section Powers.

Local Open Scope R_scope.

Lemma pow2R_pos e : 0 < powerRZ 2 e.
Proof. apply powerRZ_lt. lra. Qed.

Lemma pow2R_add a b : powerRZ 2 (a + b) = powerRZ 2 a * powerRZ 2 b.
Proof. apply powerRZ_add. lra. Qed.

Lemma pow2R_IZR n : (0 <= n)%Z -> powerRZ 2 n = IZR (2 ^ n).
Proof.
  intros H. destruct n as [|p|p]; [reflexivity| |lia].
  symmetry. apply (Zpower_pos_powerRZ 2 p).
Qed.

Lemma pow2R_ge_1 n : (0 <= n)%Z -> 1 <= powerRZ 2 n.
Proof.
  intros H. rewrite pow2R_IZR by exact H. apply IZR_le.
  assert (0 < 2 ^ n)%Z by (apply Z.pow_pos_nonneg; lia). lia.
Qed.

Lemma pow2R_le a b : (a <= b)%Z -> powerRZ 2 a <= powerRZ 2 b.
Proof.
  intros H. replace b with (a + (b - a))%Z by lia. rewrite pow2R_add.
  pose proof (pow2R_pos a). pose proof (pow2R_ge_1 (b - a) ltac:(lia)). nra.
Qed.

Lemma pow2R_lt a b : (a < b)%Z -> powerRZ 2 a < powerRZ 2 b.
Proof.
  intros H. replace b with (a + 1 + (b - a - 1))%Z by lia. rewrite !pow2R_add.
  pose proof (pow2R_pos a). pose proof (pow2R_ge_1 (b - a - 1) ltac:(lia)).
  change (powerRZ 2 1) with (2 * 1). nra.
Qed.

Lemma pow2R_le_inv a b : powerRZ 2 a <= powerRZ 2 b -> (a <= b)%Z.
Proof.
  intros H. destruct (Z_le_gt_dec a b) as [L|G]; [exact L|].
  pose proof (pow2R_lt b a ltac:(lia)). lra.
Qed.

Lemma pow2R_lt_inv a b : powerRZ 2 a < powerRZ 2 b -> (a < b)%Z.
Proof.
  intros H. destruct (Z_lt_le_dec a b) as [L|G]; [exact L|].
  pose proof (pow2R_le b a G). lra.
Qed.

End Powers.

Section Closeness.

Local Open Scope R_scope.

Lemma inexact_range l : (0 <= inexact l <= 1)%Z.
Proof. destruct l; simpl; lia. Qed.

(** Rounding a magnitude in the range of the normal numbers moves it by
    at most [2^-52] of its value.  The magnitude is [v * 2^E], known by
    its integer part [M] and the location [l] of the rest. *)
Lemma binary_round_aux_close M E l v :
  (0 < M)%Z -> (53 <= Zdigits2 M)%Z ->
  (-1074 <= Zdigits2 M + E - 53 <= 970)%Z ->
  IZR M <= v <= IZR M + IZR (inexact l) ->
  exists m e,
    binary_round_aux prec emax false M E l = S754_finite false m e
    /\ bounded prec emax m e = true
    /\ (Zdigits2 M + E - 53 <= e)%Z
    /\ Rabs (IZR (Zpos m) * powerRZ 2 e - v * powerRZ 2 E)
       <= / 2 ^ 52 * (v * powerRZ 2 E).
Proof.
  intros HM HD HR Hv.
  pose proof (binary_round_aux_shape false M E l HM) as S.
  pose proof (binary_round_aux_nonzero false M E l HM ltac:(lia)) as Z.
  destruct (Zdigits2_bounds M HM) as [LM _].
  set (D := Zdigits2 M) in *.
  rewrite fexp_spec in S. rewrite Z.max_l in S by lia.
  specialize (S ltac:(lia)).
  destruct (binary_round_aux prec emax false M E l) as [s|s| |s m e];
    try contradiction; [lia|].
  destruct S as (-> & B & Le & Hq). exists m, e.
  split; [reflexivity|]. split; [exact B|]. split; [lia|].
  replace (D + E - 53 - E)%Z with (D - 53)%Z in Hq by lia.
  set (n := (D - 53)%Z) in *.
  set (q := (M / 2 ^ n)%Z) in *.
  set (X := (Zpos m * 2 ^ (e - (D + E - 53)))%Z) in *.
  assert (Pn : (0 < 2 ^ n)%Z) by (apply Z.pow_pos_nonneg; lia).
  assert (Q1 : (2 ^ n * q <= M)%Z) by (apply Z.mul_div_le; exact Pn).
  assert (Q2 : (M < 2 ^ n * Z.succ q)%Z) by (apply Z.mul_succ_div_gt; exact Pn).
  assert (Q3 : (4503599627370496 * 2 ^ n <= M)%Z).
  { replace (D - 1)%Z with (52 + n)%Z in LM by lia.
    rewrite Z.pow_add_r in LM by lia. exact LM. }
  pose proof (inexact_range l) as Hi.
  assert (W1 : (X * 2 ^ n - M <= 2 ^ n)%Z) by nia.
  assert (W2 : (M + inexact l - X * 2 ^ n <= 2 ^ n)%Z) by nia.
  apply IZR_le in W1, W2, Q3.
  rewrite minus_IZR, mult_IZR in W1. rewrite minus_IZR, plus_IZR, mult_IZR in W2.
  rewrite mult_IZR in Q3.
  (* the value of the result in units of 2^E *)
  assert (EV : IZR (Zpos m) * powerRZ 2 e = IZR X * IZR (2 ^ n) * powerRZ 2 E).
  { unfold X. rewrite mult_IZR.
    rewrite <- !pow2R_IZR by lia.
    replace e with ((e - (D + E - 53)) + n + E)%Z at 1 by lia.
    rewrite !pow2R_add. ring. }
  rewrite EV.
  replace (IZR X * IZR (2 ^ n) * powerRZ 2 E - v * powerRZ 2 E)
    with ((IZR X * IZR (2 ^ n) - v) * powerRZ 2 E) by ring.
  pose proof (pow2R_pos E) as PE.
  rewrite Rabs_mult, (Rabs_pos_eq (powerRZ 2 E)) by lra.
  rewrite <- Rmult_assoc. apply Rmult_le_compat_r; [lra|].
  assert (P52 : (2 ^ 52 = 4503599627370496)%R) by lra.
  rewrite P52.
  set (t := IZR (2 ^ n)) in *. set (x := IZR X) in *.
  unfold Rabs. destruct (Rcase_abs (x * t - v)); lra.
Qed.

End Closeness.

(** ** The values of floats *)

Section Values.

Local Open Scope R_scope.

Lemma Rabs_bound x b : Rabs x <= b -> - b <= x <= b.
Proof. unfold Rabs. destruct (Rcase_abs x); lra. Qed.

Lemma PI_bounds : 3141592653 / 1000000000 < PI < 3141592654 / 1000000000.
Proof.
  pose proof (PI_2_3_7_ineq 5) as [L U].
  cbv beta iota zeta delta
    [sum_f_R0 tg_alt PI_2_3_7_tg Ratan_seq Nat.mul Nat.add INR pow] in L, U.
  split; lra.
Qed.

Lemma to_R_finite x s m e :
  Prim2SF x = S754_finite s m e ->
  Float.to_R x = IZR (cond_Zopp s (Zpos m)) * powerRZ 2 e.
Proof. intros E. unfold Float.to_R. rewrite E. reflexivity. Qed.

Lemma mantissa_bounds m e :
  bounded prec emax m e = true ->
  IZR (Zpos m) < 9007199254740992
  /\ ((-1074 < e)%Z -> 4503599627370496 <= IZR (Zpos m)).
Proof.
  intros B. destruct (bounded_digits _ _ B) as (Dm & Nm & _).
  pose proof (digits2_bounds m) as [L U].
  split.
  - apply IZR_lt. eapply Z.lt_le_trans; [exact U|].
    change 9007199254740992%Z with (2 ^ 53)%Z. apply Z.pow_le_mono_r; lia.
  - intros He. rewrite (Nm He) in L. apply IZR_le. exact L.
Qed.

(** A finite float with a value between two powers of 2 is positive, and
    its exponent is between theirs. *)
Lemma exponent_bounds x lo hi :
  PrimFloat.is_finite x = true ->
  (-1021 <= lo)%Z ->
  powerRZ 2 lo <= Float.to_R x <= powerRZ 2 hi ->
  exists m e,
    Prim2SF x = S754_finite false m e
    /\ bounded prec emax m e = true
    /\ (lo - 53 < e <= hi - 52)%Z.
Proof.
  intros Hf Hlo [L U]. rewrite is_finite_spec in Hf.
  pose proof (Prim2SF_valid x) as V. unfold Float.to_R in L, U.
  pose proof (pow2R_pos lo) as Plo.
  destruct (Prim2SF x) as [s|s| |s m e]; try discriminate; [lra|].
  simpl in V. destruct (mantissa_bounds m e V) as [Um Lm].
  pose proof (pow2R_pos e) as Pe.
  assert (P1 : 1 <= IZR (Zpos m)) by (apply IZR_le; lia).
  destruct s; cbn [cond_Zopp] in L, U.
  { rewrite opp_IZR in L. nra. }
  exists m, e. split; [reflexivity|]. split; [exact V|].
  assert (E1 : (lo - 53 < e)%Z).
  { assert (lo < 53 + e)%Z; [|lia]. apply pow2R_lt_inv. rewrite pow2R_add.
    rewrite (pow2R_IZR 53) by lia. change (2 ^ 53)%Z with 9007199254740992%Z.
    nra. }
  split; [exact E1|].
  specialize (Lm ltac:(lia)).
  assert (52 + e <= hi)%Z; [|lia]. apply pow2R_le_inv. rewrite pow2R_add.
  rewrite (pow2R_IZR 52) by lia. change (2 ^ 52)%Z with 4503599627370496%Z.
  nra.
Qed.

(** The product of two positive floats in the range of the normal
    numbers is within [2^-52] of the product of their values. *)
Lemma mul_close x y mx ex my ey :
  Prim2SF x = S754_finite false mx ex ->
  Prim2SF y = S754_finite false my ey ->
  (-1074 < ex)%Z -> (-1074 < ey)%Z -> (-1126 <= ex + ey <= 917)%Z ->
  PrimFloat.is_finite (PrimFloat.mul x y) = true
  /\ Rabs (Float.to_R (PrimFloat.mul x y) - Float.to_R x * Float.to_R y)
     <= / 2 ^ 52 * (Float.to_R x * Float.to_R y).
Proof.
  intros Ex Ey Hx Hy Hxy.
  pose proof (Prim2SF_valid x) as Vx. pose proof (Prim2SF_valid y) as Vy.
  rewrite Ex in Vx. rewrite Ey in Vy. simpl in Vx, Vy.
  destruct (bounded_digits _ _ Vx) as (_ & Nx & _).
  destruct (bounded_digits _ _ Vy) as (_ & Ny & _).
  pose proof (digits2_bounds mx) as [Lx Ux]. rewrite Nx in Lx, Ux by lia.
  pose proof (digits2_bounds my) as [Ly Uy]. rewrite Ny in Ly, Uy by lia.
  change (2 ^ (53 - 1))%Z with 4503599627370496%Z in Lx, Ly.
  change (2 ^ 53)%Z with 9007199254740992%Z in Ux, Uy.
  assert (D1 : (104 < Zdigits2 (Zpos (mx * my)))%Z).
  { cbn [Zdigits2]. apply digits2_ge. rewrite Pos2Z.inj_mul.
    change (2 ^ 104)%Z with (4503599627370496 * 4503599627370496)%Z. nia. }
  assert (D2 : (Zdigits2 (Zpos (mx * my)) <= 106)%Z).
  { apply Zdigits2_le; [lia|]. rewrite Pos2Z.inj_mul.
    change (2 ^ 106)%Z with (9007199254740992 * 9007199254740992)%Z. nia. }
  destruct (binary_round_aux_close (Zpos (mx * my)) (ex + ey) loc_Exact
              (IZR (Zpos (mx * my))) ltac:(lia) ltac:(lia) ltac:(lia))
    as (m & e & Er & B & _ & C).
  { cbn [inexact]. lra. }
  assert (Em : Prim2SF (PrimFloat.mul x y) = S754_finite false m e).
  { rewrite mul_spec, Ex, Ey. exact Er. }
  split.
  - rewrite is_finite_spec, Em. reflexivity.
  - rewrite (to_R_finite _ _ _ _ Em), (to_R_finite _ _ _ _ Ex),
      (to_R_finite _ _ _ _ Ey). cbn [cond_Zopp].
    replace (IZR (Zpos mx) * powerRZ 2 ex * (IZR (Zpos my) * powerRZ 2 ey))
      with (IZR (Zpos (mx * my)) * powerRZ 2 (ex + ey)); [exact C|].
    rewrite Pos2Z.inj_mul, mult_IZR, pow2R_add. ring.
Qed.

Lemma to_R_pi : Float.to_R Float.pi = 7074237752028440 / 2251799813685248.
Proof.
  rewrite (to_R_finite _ _ _ _ pi_plus). cbn [cond_Zopp].
  change (-51)%Z with (- (51))%Z. rewrite powerRZ_neg', (pow2R_IZR 51) by lia.
  change (2 ^ 51)%Z with 2251799813685248%Z. reflexivity.
Qed.

Lemma to_R_one : Float.to_R PrimFloat.one = 1.
Proof.
  assert (E : Prim2SF PrimFloat.one = S754_finite false 4503599627370496 (-52))
    by reflexivity.
  rewrite (to_R_finite _ _ _ _ E). cbn [cond_Zopp].
  change (-52)%Z with (- (52))%Z. rewrite powerRZ_neg', (pow2R_IZR 52) by lia.
  change (2 ^ 52)%Z with 4503599627370496%Z. lra.
Qed.

(** The tolerance of the area: the two roundings and the distance of
    [math.pi] from pi are together below [10^-9]. *)
Lemma circle_tolerance A SQ T :
  0 < T ->
  Rabs (SQ - T) <= / 2 ^ 50 * T ->
  Rabs (A - 7074237752028440 / 2251799813685248 * SQ)
    <= / 2 ^ 52 * (7074237752028440 / 2251799813685248 * SQ) ->
  Rabs (A - PI * T) <= / 10 ^ 9 * (PI * T).
Proof.
  intros HT H1 H2. apply Rabs_bound in H1, H2.
  destruct PI_bounds as [L U].
  assert (L' : 3141592653 / 1000000000 * T < PI * T)
    by (apply Rmult_lt_compat_r; assumption).
  assert (U' : PI * T < 3141592654 / 1000000000 * T)
    by (apply Rmult_lt_compat_r; assumption).
  set (V := PI * T) in *. clearbody V.
  apply Rabs_le. lra.
Qed.

End Values.

(** ** The area of a circle with the [pow] of the C library *)

Section Squares.

Lemma finite_not_infinity x :
  PrimFloat.is_finite x = true -> PrimFloat.is_infinity x = false.
Proof.
  rewrite is_finite_spec, is_infinity_spec.
  destruct (Prim2SF x) as [s|s| |s m e]; simpl; congruence.
Qed.

(** [x ** 2] for a positive finite [x]. *)
Lemma pow_libm_positive libm x m e :
  Prim2SF x = S754_finite false m e ->
  Float.pow_libm libm x
  = if PrimFloat.eqb x PrimFloat.one then ret PrimFloat.one
    else let '(ix, er) := libm x 2%float in
         match Float.adjust_erange ix er with
         | Float.ENONE => ret ix
         | Float.ERANGE => raise OverflowError
         | Float.EDOM => raise ValueError
         end.
Proof.
  intros E. unfold Float.pow_libm.
  assert (N : PrimFloat.is_nan x = false)
    by (apply not_nan_spec; rewrite E; discriminate).
  assert (I : PrimFloat.is_infinity x = false)
    by (rewrite is_infinity_spec, E; reflexivity).
  assert (Z : PrimFloat.eqb x PrimFloat.zero = false)
    by (rewrite eqb_zero_spec, E; reflexivity).
  assert (L : PrimFloat.ltb x PrimFloat.zero = false)
    by (rewrite ltb_spec, E; reflexivity).
  rewrite N, I, Z, L. reflexivity.
Qed.

Lemma SFeqb_finite m e m' e' :
  SFeqb (S754_finite false m e) (S754_finite false m' e') = true ->
  m = m' /\ e = e'.
Proof.
  unfold SFeqb, SFcompare.
  change (Pos.compare_cont Eq m m') with (Pos.compare m m').
  destruct (Z.compare_spec e e') as [->| |]; try discriminate.
  destruct (Pos.compare_spec m m') as [->| |]; try discriminate.
  split; reflexivity.
Qed.

Lemma eqb_one x m e :
  Prim2SF x = S754_finite false m e ->
  PrimFloat.eqb x PrimFloat.one = true -> x = PrimFloat.one.
Proof.
  intros E H. apply Prim2SF_inj. rewrite E.
  rewrite eqb_spec, E in H.
  assert (E1 : Prim2SF PrimFloat.one = S754_finite false 4503599627370496 (-52))
    by reflexivity.
  rewrite E1 in *.
  destruct (SFeqb_finite _ _ _ _ H) as [-> ->]. reflexivity.
Qed.

Local Open Scope R_scope.

(** With an accurate [pow], [x ** 2] returns a float close to the
    square. *)
Lemma pow_libm_close libm x m e :
  Prim2SF x = S754_finite false m e ->
  accurate_square libm x ->
  exists sq,
    Float.pow_libm libm x = inr sq
    /\ PrimFloat.is_finite sq = true
    /\ Rabs (Float.to_R sq - Float.to_R x * Float.to_R x) <= / 2 ^ 50 * (Float.to_R x * Float.to_R x).
Proof.
  intros E (H1 & H2 & H3). rewrite (pow_libm_positive libm x m e E).
  destruct (PrimFloat.eqb x PrimFloat.one) eqn:E1.
  - exists PrimFloat.one. split; [reflexivity|]. split; [reflexivity|].
    rewrite (eqb_one x m e E E1), to_R_one.
    replace (1 - 1 * 1) with 0 by ring. rewrite Rabs_R0. lra.
  - destruct (libm x 2%float) as [ix er]. cbn [fst snd] in *. subst er.
    exists ix. unfold Float.adjust_erange. rewrite (finite_not_infinity _ H2).
    repeat split; assumption.
Qed.

(** The area of a circle from a radius between 2^-501 and 2^500. *)
Lemma circle_libm_close libm r m e :
  Prim2SF r = S754_finite false m e ->
  (-553 <= e <= 447)%Z ->
  accurate_square libm r ->
  exists a,
    (sq <- Float.pow_libm libm r ;; ret (PrimFloat.mul Float.pi sq))%py = inr a
    /\ PrimFloat.is_finite a = true
    /\ Rabs (Float.to_R a - PI * (Float.to_R r * Float.to_R r))
       <= / 10 ^ 9 * (PI * (Float.to_R r * Float.to_R r)).
Proof.
  intros E He Hacc.
  destruct (pow_libm_close libm r m e E Hacc) as (sq & Esq & Fsq & Csq).
  rewrite Esq. cbn [bind ret]. exists (PrimFloat.mul Float.pi sq).
  split; [reflexivity|].
  pose proof (Prim2SF_valid r) as V. rewrite E in V. simpl in V.
  destruct (mantissa_bounds m e V) as [Um Lm]. specialize (Lm ltac:(lia)).
  pose proof (to_R_finite _ _ _ _ E) as ER. cbn [cond_Zopp] in ER.
  set (R := Float.to_R r) in *. set (SQ := Float.to_R sq) in *.
  (* the radius and its square between powers of 2 *)
  pose proof (pow2R_pos e) as Pe.
  assert (R1 : powerRZ 2 (52 + e) <= R).
  { rewrite pow2R_add, (pow2R_IZR 52) by lia.
    change (2 ^ 52)%Z with 4503599627370496%Z. rewrite ER. nra. }
  assert (R2 : R <= powerRZ 2 (53 + e)).
  { rewrite pow2R_add, (pow2R_IZR 53) by lia.
    change (2 ^ 53)%Z with 9007199254740992%Z. rewrite ER. nra. }
  pose proof (pow2R_pos (52 + e)) as P1. pose proof (pow2R_pos (53 + e)) as P2.
  assert (T1 : powerRZ 2 (-1002) <= R * R).
  { apply Rle_trans with (powerRZ 2 (52 + e + (52 + e))).
    - apply pow2R_le. lia.
    - rewrite pow2R_add. nra. }
  assert (T2 : R * R <= powerRZ 2 1000).
  { apply Rle_trans with (powerRZ 2 (53 + e + (53 + e))).
    - rewrite pow2R_add. nra.
    - apply pow2R_le. lia. }
  pose proof (pow2R_pos (-1002)) as P3.
  apply Rabs_bound in Csq.
  assert (S1 : powerRZ 2 (-1003) <= SQ).
  { replace (-1003)%Z with (-1002 + -1)%Z by lia. rewrite pow2R_add.
    change (powerRZ 2 (-1)) with (/ (2 * 1)). lra. }
  assert (S2 : SQ <= powerRZ 2 1001).
  { replace 1001%Z with (1000 + 1)%Z by lia. rewrite pow2R_add.
    change (powerRZ 2 1) with (2 * 1). lra. }
  destruct (exponent_bounds sq (-1003) 1001 Fsq ltac:(lia) (conj S1 S2))
    as (ms & es & Es & Bs & Hes).
  destruct (mul_close Float.pi sq _ _ _ _ pi_plus Es
              ltac:(lia) ltac:(lia) ltac:(lia)) as [Fa Ca].
  split; [exact Fa|].
  rewrite to_R_pi in Ca. fold SQ in Ca.
  apply circle_tolerance with SQ; [lra | apply Rabs_le; lra | exact Ca].
Qed.

End Squares.

Lemma least_diameter_spec :
  Prim2SF least_diameter = S754_finite false 4503599627370496 (-552).
Proof. reflexivity. Qed.

Lemma greatest_diameter_spec :
  Prim2SF greatest_diameter = S754_finite false 4503599627370496 448.
Proof. reflexivity. Qed.

Lemma diameter_in_range d :
  PrimFloat.leb least_diameter d = true ->
  PrimFloat.leb d greatest_diameter = true ->
  exists m e,
    Prim2SF d = S754_finite false m e
    /\ bounded prec emax m e = true /\ -552 <= e <= 448.
Proof.
  rewrite !leb_spec, least_diameter_spec, greatest_diameter_spec.
  intros H1 H2. pose proof (Prim2SF_valid d) as V.
  destruct (SFleb_exponent _ _ _ H1) as [E|(m & e & E & L)]; rewrite E in *.
  - discriminate H2.
  - destruct (SFleb_exponent_below _ _ (S754_finite false m e) eq_refl H2)
      as (m' & e' & [= <- <-] & L').
    exists m, e. repeat split; try assumption; lia.
Qed.

Lemma to_R_half d m e :
  Prim2SF d = S754_finite false m e ->
  Prim2SF (PrimFloat.div d 2%float) = S754_finite false m (e - 1) ->
  Float.to_R (PrimFloat.div d 2%float) = (Float.to_R d / 2)%R.
Proof.
  intros E1 E2. rewrite (to_R_finite _ _ _ _ E1), (to_R_finite _ _ _ _ E2).
  cbn [cond_Zopp]. replace (e - 1) with (e + -1) by lia. rewrite pow2R_add.
  change (powerRZ 2 (-1)) with (/ (2 * 1))%R. field.
Qed.

Section LibmTexts.

Local Open Scope string_scope.

(** A diameter written as text is the diameter. *)
Lemma circle_text_libm libm sd d w1 w2 u w3 :
  Float.of_str sd = inr d ->
  all_chars Str.is_space w1 = true ->
  all_chars Str.is_space w2 = true ->
  all_chars Str.is_space w3 = true ->
  Str.lower u = "cm" \/ u = "" ->
  _calculate_area_libm libm (SizeStr (w1 ++ sd ++ w2 ++ u ++ w3))
  = _calculate_area_libm libm (SizeFloat d).
Proof.
  intros Hsd H1 H2 H3 Hu.
  destruct (of_str_split _ _ Hsd) as (a & lit & b & -> & Ha & Hb & Hne & Hp & Hl).
  unfold _calculate_area_libm.
  fold (normalize (w1 ++ (a ++ lit ++ b) ++ w2 ++ u ++ w3)).
  replace (w1 ++ (a ++ lit ++ b) ++ w2 ++ u ++ w3)
    with ((w1 ++ a) ++ lit ++ (b ++ w2) ++ u ++ w3)
    by (rewrite !append_assoc'; reflexivity).
  rewrite normalize_round_unit; try assumption;
    try (rewrite all_chars_app; rewrite ?H1, ?H2, ?Ha, ?Hb; reflexivity).
  rewrite contains_plain by exact Hp.
  rewrite of_str_plain by exact Hp. rewrite Hl. reflexivity.
Qed.

End LibmTexts.

(** C4, as the code has it: for a float diameter [d] from 2^-500 to 2^500
    and a C library whose [pow] is accurate at the radius [d / 2.0], the
    area calculator returns a finite float [a] within [10^-9],
    relatively, of pi * (d/2)^2; and it returns the same [a] for every
    text made of white space, a text that [float] reads as [d], white
    space, the unit "cm" in any letter case or no unit, and white space,
    and for the integer of the value of [d] when that is below 2^53.
    "26CM", " 26 cm " and the number 26 have the same result with every C
    library. *)
Theorem C4_circle_area
    (libm : float -> float -> float * Float.errno) (d : float) :
  PrimFloat.leb least_diameter d = true ->
  PrimFloat.leb d greatest_diameter = true ->
  accurate_square libm (PrimFloat.div d 2%float) ->
  exists a : float,
    _calculate_area_libm libm (SizeFloat d) = inr a
    /\ close_to_circle a (Float.to_R d)
    /\ (forall sd w1 w2 u w3 : string,
          Float.of_str sd = inr d ->
          all_chars Str.is_space w1 = true ->
          all_chars Str.is_space w2 = true ->
          all_chars Str.is_space w3 = true ->
          Str.lower u = "cm"%string \/ u = ""%string ->
          _calculate_area_libm libm (SizeStr (w1 ++ sd ++ w2 ++ u ++ w3)) = inr a)
    /\ (forall n : Z,
          Z.abs n < 2 ^ 53 ->
          Float.of_int n = inr d ->
          _calculate_area_libm libm (SizeInt n) = inr a)
    /\ _calculate_area_libm libm (SizeStr "26CM")
       = _calculate_area_libm libm (SizeInt 26)
    /\ _calculate_area_libm libm (SizeStr " 26 cm ")
       = _calculate_area_libm libm (SizeInt 26).
Proof.
  intros H1 H2 Hacc.
  destruct (diameter_in_range d H1 H2) as (m & e & E & B & He).
  destruct (SFhalf_range m e B ltac:(lia)) as [Er Br].
  rewrite <- E, <- div_spec in Er.
  destruct (circle_libm_close libm (PrimFloat.div d 2%float) m (e - 1) Er
              ltac:(lia) Hacc) as (a & Ea & Fa & Ca).
  assert (Ed : _calculate_area_libm libm (SizeFloat d) = inr a).
  { unfold _calculate_area_libm. rewrite truediv_2. exact Ea. }
  assert (I26 : _calculate_area_libm libm (SizeInt 26)
                = _calculate_area_libm libm (SizeFloat 26%float)).
  { unfold _calculate_area_libm.
    rewrite (int_truediv_half 26 26%float), truediv_2;
      [reflexivity | vm_compute; reflexivity | reflexivity]. }
  assert (F26 : Float.of_str "26" = inr 26%float) by (vm_compute; reflexivity).
  exists a. split; [exact Ed|]. split; [|split; [|split; [|split]]].
  - split; [exact Fa|].
    rewrite (to_R_half d m e E Er) in Ca.
    replace ((Float.to_R d / 2) ^ 2)%R with (Float.to_R d / 2 * (Float.to_R d / 2))%R by ring.
    exact Ca.
  - intros sd w1 w2 u w3 Hsd Hw1 Hw2 Hw3 Hu.
    rewrite (circle_text_libm libm sd d w1 w2 u w3) by assumption. exact Ed.
  - intros n Hn Hf. rewrite <- Ed. unfold _calculate_area_libm.
    rewrite (int_truediv_half n d Hn Hf), truediv_2. reflexivity.
  - rewrite I26.
    exact (circle_text_libm libm "26" 26%float "" "" "CM" "" F26
             eq_refl eq_refl eq_refl (or_introl eq_refl)).
  - rewrite I26.
    exact (circle_text_libm libm "26" 26%float " " " " "cm" " " F26
             eq_refl eq_refl eq_refl (or_introl eq_refl)).
Qed.

(** The correctly rounded square is an accurate [pow] on the positive
    floats whose squares are normal numbers. *)
Lemma rounded_square_accurate x m e :
  Prim2SF x = S754_finite false m e ->
  -563 <= e <= 458 ->
  accurate_square Float.rounded_square x.
Proof.
  intros E He. unfold accurate_square, Float.rounded_square. cbn [fst snd].
  destruct (mul_close x x m e m e E E ltac:(lia) ltac:(lia) ltac:(lia)) as [F C].
  split; [reflexivity|]. split; [exact F|].
  eapply Rle_trans; [exact C|].
  pose proof (Rle_0_sqr (Float.to_R x)) as P. unfold Rsqr in P.
  apply Rmult_le_compat_r; [exact P|]. lra.
Qed.

(** With the correctly rounded square for [pow], [x ** 2] is
    [Float.pow2]. *)
Lemma pow_libm_rounded_square x : Float.pow_libm Float.rounded_square x = Float.pow2 x.
Proof.
  unfold Float.pow2. cbv zeta.
  destruct (Prim2SF x) as [s|s| |s m e] eqn:E.
  - (* a zero *)
    unfold Float.pow_libm.
    assert (N : PrimFloat.is_nan x = false)
      by (apply not_nan_spec; rewrite E; discriminate).
    assert (I : PrimFloat.is_infinity x = false)
      by (rewrite is_infinity_spec, E; reflexivity).
    assert (Z : PrimFloat.eqb x PrimFloat.zero = true)
      by (rewrite eqb_zero_spec, E; reflexivity).
    rewrite N, I, Z. cbn [negb]. rewrite andb_true_r.
    assert (M : PrimFloat.mul x x = PrimFloat.zero).
    { apply Prim2SF_inj. rewrite mul_spec, E. destruct s; reflexivity. }
    rewrite M. reflexivity.
  - (* an infinity *)
    unfold Float.pow_libm.
    assert (N : PrimFloat.is_nan x = false)
      by (apply not_nan_spec; rewrite E; discriminate).
    assert (I : PrimFloat.is_infinity x = true)
      by (rewrite is_infinity_spec, E; reflexivity).
    rewrite N, I. cbn [negb]. rewrite andb_false_r.
    unfold ret. f_equal. apply Prim2SF_inj.
    rewrite abs_spec, mul_spec, E. destruct s; reflexivity.
  - (* a NaN *)
    unfold Float.pow_libm.
    assert (N : PrimFloat.is_nan x = true) by (apply is_nan_spec; exact E).
    assert (I : PrimFloat.is_infinity x = false)
      by (rewrite is_infinity_spec, E; reflexivity).
    rewrite N, I. cbn [negb]. rewrite andb_true_r.
    assert (M : PrimFloat.mul x x = x).
    { apply Prim2SF_inj. rewrite mul_spec, E. reflexivity. }
    rewrite M, I. reflexivity.
  - (* a finite number *)
    assert (I : PrimFloat.is_infinity x = false)
      by (rewrite is_infinity_spec, E; reflexivity).
    rewrite I. cbn [negb]. rewrite andb_true_r.
    set (iv := if PrimFloat.ltb x PrimFloat.zero then PrimFloat.opp x else x).
    assert (Ei : Prim2SF iv = S754_finite false m e).
    { unfold iv. destruct s.
      - assert (L : PrimFloat.ltb x PrimFloat.zero = true)
          by (rewrite ltb_spec, E; reflexivity).
        rewrite L, opp_spec, E. reflexivity.
      - assert (L : PrimFloat.ltb x PrimFloat.zero = false)
          by (rewrite ltb_spec, E; reflexivity).
        rewrite L. exact E. }
    assert (Em : PrimFloat.mul iv iv = PrimFloat.mul x x).
    { unfold iv. destruct (PrimFloat.ltb x PrimFloat.zero);
        [apply mul_opp_opp | reflexivity]. }
    assert (P : Float.pow_libm Float.rounded_square x = Float.pow_libm Float.rounded_square iv).
    { unfold Float.pow_libm. fold iv.
      assert (N : PrimFloat.is_nan x = false)
        by (apply not_nan_spec; rewrite E; discriminate).
      assert (Z : PrimFloat.eqb x PrimFloat.zero = false)
        by (rewrite eqb_zero_spec, E; reflexivity).
      assert (N' : PrimFloat.is_nan iv = false)
        by (apply not_nan_spec; rewrite Ei; discriminate).
      assert (I' : PrimFloat.is_infinity iv = false)
        by (rewrite is_infinity_spec, Ei; reflexivity).
      assert (Z' : PrimFloat.eqb iv PrimFloat.zero = false)
        by (rewrite eqb_zero_spec, Ei; reflexivity).
      assert (L' : PrimFloat.ltb iv PrimFloat.zero = false)
        by (rewrite ltb_spec, Ei; reflexivity).
      rewrite N, I, Z, N', I', Z', L'. reflexivity. }
    rewrite P, (pow_libm_positive Float.rounded_square iv m e Ei), <- Em.
    destruct (PrimFloat.eqb iv PrimFloat.one) eqn:E1.
    + rewrite (eqb_one iv m e Ei E1). reflexivity.
    + unfold Float.rounded_square, Float.adjust_erange.
      destruct (PrimFloat.is_infinity (PrimFloat.mul iv iv)); reflexivity.
Qed.

(** And the area calculator with it is [_calculate_area]. *)
Lemma _calculate_area_rounded_square size :
  _calculate_area_libm Float.rounded_square size = _calculate_area size.
Proof.
  destruct size as [n|x|s]; unfold _calculate_area_libm, _calculate_area.
  - destruct (Float.int_truediv n 2); cbn [bind]; [reflexivity|].
    rewrite pow_libm_rounded_square. reflexivity.
  - destruct (Float.truediv x 2%float); cbn [bind]; [reflexivity|].
    rewrite pow_libm_rounded_square. reflexivity.
  - destruct (Str.contains "x" _); [reflexivity|].
    destruct (Float.of_str _); cbn [bind]; [reflexivity|].
    destruct (Float.truediv _ 2%float); cbn [bind]; [reflexivity|].
    rewrite pow_libm_rounded_square. reflexivity.
Qed.

(** An instance of C4: the diameter 26 with the correctly rounded square. *)
Lemma C4_circle_area_witness :
  exists a : float,
    _calculate_area_libm Float.rounded_square (SizeFloat 26%float) = inr a
    /\ close_to_circle a (Float.to_R 26%float)
    /\ (forall sd w1 w2 u w3 : string,
          Float.of_str sd = inr 26%float ->
          all_chars Str.is_space w1 = true ->
          all_chars Str.is_space w2 = true ->
          all_chars Str.is_space w3 = true ->
          Str.lower u = "cm"%string \/ u = ""%string ->
          _calculate_area_libm Float.rounded_square (SizeStr (w1 ++ sd ++ w2 ++ u ++ w3))
          = inr a)
    /\ (forall n : Z,
          Z.abs n < 2 ^ 53 ->
          Float.of_int n = inr 26%float ->
          _calculate_area_libm Float.rounded_square (SizeInt n) = inr a)
    /\ _calculate_area_libm Float.rounded_square (SizeStr "26CM")
       = _calculate_area_libm Float.rounded_square (SizeInt 26)
    /\ _calculate_area_libm Float.rounded_square (SizeStr " 26 cm ")
       = _calculate_area_libm Float.rounded_square (SizeInt 26).
Proof.
  apply (C4_circle_area Float.rounded_square 26%float).
  - vm_compute. reflexivity.
  - vm_compute. reflexivity.
  - apply (rounded_square_accurate _ 7318349394477056 (-49)).
    + vm_compute. reflexivity.
    + lia.
Defined.

(** C4, against the claim: the positive diameter 1e200 has no area, its
    squared radius is out of range and [**] raises [OverflowError]; and
    the positive diameter 1e-200 has the area 0.0, which is not within
    any relative tolerance of pi * (d/2)^2, because its squared radius
    underflows. *)
Lemma C4_diameter_out_of_range :
  PrimFloat.ltb 0%float 1e200%float = true
  /\ _calculate_area (SizeFloat 1e200%float) = inl OverflowError
  /\ _calculate_area (SizeStr "1e200cm") = inl OverflowError
  /\ _calculate_area_libm Float.rounded_square (SizeFloat 1e200%float) = inl OverflowError
  /\ PrimFloat.ltb 0%float 1e-200%float = true
  /\ _calculate_area (SizeFloat 1e-200%float) = inr 0%float
  /\ _calculate_area_libm Float.rounded_square (SizeFloat 1e-200%float) = inr 0%float.
Proof. repeat split; vm_compute; reflexivity. Qed.
